(** * chroma-sync: delta engine, document chunker, sync session, batch runner

    A shallow embedding of the TypeScript sources
      - [src/delta.ts]            (DeltaEngine)
      - [src/document-chunker.ts] (DocumentChunker)
      - [src/sync-state.ts]       (SyncStateManager)
      - [src/chroma-runner.ts]    (ChromaRunner.executeSync, resumeSync,
                                   executeSyncBatches)
    followed by the properties established about them.

    Conventions of the embedding.
      - A JavaScript string is a [string]: a sequence of code units, here
        restricted to the units below 256.  [\s] and [trim] therefore see
        the white space characters 9-13, 32 and 160, and [.] excludes 10
        and 13.  Regular expressions are embedded one by one, as the
        matcher that the expression denotes.
      - A JavaScript number that the code uses as a count, an offset or a
        millisecond time stamp is a [Z], which stands for the binary64
        number of that value (exact up to [2^53]).  The quotients and
        products of the progress report are rounded as binary64
        arithmetic rounds them ([Binary64.round]); the two quotients that
        are only compared with a constant (the hours since a verification,
        the success rate of a run) are taken in [Q].
      - [Record<string, T>] is a [gmap string T], the own properties of
        the object; its prototype is [Object.prototype], whose keys
        ([inheritedKeys]) a read [record[key]] finds when the record has
        no own property of that name.  The delta plan models these reads
        and the write to [__proto__], which replaces the prototype of the
        record being scanned instead of adding a property.  The retry
        counts are modelled for own properties only, and the properties
        about them name the keys they are stated for.
      - [Date.now()] and [Math.random()] are explicit arguments.
      - An async generator is the list of the values it yields.
      - The session file is modelled up to [JSON.parse]: it is absent, holds
        text that does not parse, or holds a JSON document.  File system
        calls do not fail.
      - The indexing script is part of the environment: a run of the batch
        loop is driven by the list of its outcomes.
      - The vault is the list of its files and does not change while a
        plan is made.  The minimatch library and the enumeration order of
        [Object.entries] are parameters of the delta engine; the
        properties assume of the latter only that it lists every own
        property once.  SHA-1 and SHA-256 are embedded and evaluated. *)

From Stdlib Require Import ZArith QArith Qround Ascii String List Lia Lqa.
From Stdlib Require SpecFloat.
From stdpp Require Import base gmap strings list pretty sorting.
Close Scope Q_scope.
Set Warnings "-clear-no-such-hyp,-register-all".
Open Scope Z_scope.

(* ================================================================== *)
(** * Part I.  Definitions                                             *)
(* ================================================================== *)

(** ** JavaScript string primitives *)

Definition charCode (c : ascii) : N := N_of_ascii c.

(** White space as matched by [\s] and stripped by [trim()]. *)
Definition isWhiteSpace (c : ascii) : bool :=
  let n := charCode c in
  ((9 <=? n)%N && (n <=? 13)%N) || (n =? 32)%N || (n =? 160)%N.

(** Line terminators, the characters that [.] does not match. *)
Definition isLineTerminator (c : ascii) : bool :=
  let n := charCode c in (n =? 10)%N || (n =? 13)%N.

Definition isDigit (c : ascii) : bool :=
  let n := charCode c in (48 <=? n)%N && (n <=? 57)%N.

Definition isAlpha (c : ascii) : bool :=
  let n := charCode c in
  ((65 <=? n)%N && (n <=? 90)%N) || ((97 <=? n)%N && (n <=? 122)%N).

Definition ch (n : N) : ascii := ascii_of_N n.

Definition LF : ascii := ch 10.
Definition newline : string := String LF "".

Fixpoint String_map (f : ascii -> ascii) (s : string) : string :=
  match s with
  | EmptyString => EmptyString
  | String c r => String (f c) (String_map f r)
  end.

(** Every character of [s] satisfies [p]. *)
Fixpoint String_forallb (p : ascii -> bool) (s : string) : bool :=
  match s with
  | EmptyString => true
  | String c r => p c && String_forallb p r
  end.

Fixpoint String_drop (n : nat) (s : string) : string :=
  match n, s with
  | O, _ => s
  | S _, EmptyString => EmptyString
  | S k, String _ r => String_drop k r
  end.

Fixpoint String_take (n : nat) (s : string) : string :=
  match n, s with
  | O, _ => EmptyString
  | S _, EmptyString => EmptyString
  | S k, String c r => String c (String_take k r)
  end.

Definition strlen (s : string) : Z := Z.of_nat (String.length s).

(** [s.slice(start)]: a negative [start] counts from the end. *)
Definition String_slice (start : Z) (s : string) : string :=
  let len := strlen s in
  let from := if start <? 0 then Z.max (len + start) 0 else Z.min start len in
  String_drop (Z.to_nat from) s.

(** [s.slice(0, n)] for a literal [n >= 0]. *)
Definition String_slice0 (n : nat) (s : string) : string := String_take n s.

(** [s.substring(0, finish)]: arguments are clamped to [0 .. length]. *)
Definition String_substring0 (finish : Z) (s : string) : string :=
  String_take (Z.to_nat (Z.min (Z.max finish 0) (strlen s))) s.

Fixpoint trimStart (s : string) : string :=
  match s with
  | EmptyString => EmptyString
  | String c r => if isWhiteSpace c then trimStart r else s
  end.

Fixpoint trimEnd (s : string) : string :=
  match s with
  | EmptyString => EmptyString
  | String c r =>
      match trimEnd r with
      | EmptyString => if isWhiteSpace c then EmptyString else String c EmptyString
      | t => String c t
      end
  end.

Definition trim (s : string) : string := trimEnd (trimStart s).

(** [s.split(sep)] for a one-character separator: never the empty array. *)
Fixpoint String_split (sep : ascii) (s : string) : list string :=
  match s with
  | EmptyString => [EmptyString]
  | String c r =>
      if Ascii.eqb c sep then EmptyString :: String_split sep r
      else match String_split sep r with
           | h :: t => String c h :: t
           | [] => [String c EmptyString]
           end
  end.

(** [parts.join(sep)]. *)
Definition Array_join (sep : string) (parts : list string) : string :=
  String.concat sep parts.

Definition startsWith (s p : string) : bool := String.prefix p s.

(** [s.includes(needle)]. *)
Fixpoint String_includes (needle s : string) : bool :=
  String.prefix needle s ||
  match s with
  | EmptyString => false
  | String _ r => String_includes needle r
  end.

(** [s.repeat(n)] for a one-character string. *)
Fixpoint String_repeat (c : ascii) (n : nat) : string :=
  match n with
  | O => EmptyString
  | S k => String c (String_repeat c k)
  end.

(** [[...new Set(xs)]]: first occurrences, in insertion order. *)
Fixpoint Set_spread_from (seen xs : list string) : list string :=
  match xs with
  | [] => []
  | x :: r =>
      if bool_decide (x ∈ seen) then Set_spread_from seen r
      else x :: Set_spread_from (x :: seen) r
  end.

Definition Set_spread (xs : list string) : list string := Set_spread_from [] xs.

(** [xs.includes(x)] on an array of strings. *)
Definition Array_includes (xs : list string) (x : string) : bool :=
  bool_decide (x ∈ xs).

(** [v || 0] on a possibly missing count: [undefined] and [0] are falsy. *)
Definition or_zero (v : option Z) : Z :=
  match v with
  | Some n => if n =? 0 then 0 else n
  | None => 0
  end.

(** The keys of [Object.prototype].  A read [record[key]] of a record
    that has no own property [key] finds the inherited member when [key]
    is one of them (a function, or for [__proto__] the prototype itself:
    an object in either case), and [undefined] otherwise. *)
Definition inheritedKeys : list string :=
  ["constructor"; "__proto__"; "hasOwnProperty"; "isPrototypeOf";
   "propertyIsEnumerable"; "toLocaleString"; "toString"; "valueOf";
   "__defineGetter__"; "__defineSetter__"; "__lookupGetter__";
   "__lookupSetter__"]%string.

Definition inherited (key : string) : bool :=
  bool_decide (key ∈ inheritedKeys).

(** [record[key] = value]: the key [__proto__] is the setter of
    [Object.prototype], which replaces the prototype of the record (when
    the value is an object) and adds no property. *)
Definition Record_set {T} (record : gmap string T) (key : string) (value : T)
  : gmap string T :=
  if String.eqb key "__proto__" then record else <[key := value]> record.

(** [Math.round] and [Math.ceil] of a finite number, and a count read as a
    number. *)
Definition Math_round (q : Q) : Z := Qfloor (q + (1 # 2))%Q.
Definition Math_ceil (q : Q) : Z := Qceiling q.
Definition asQ (z : Z) : Q := inject_Z z.

(** ** Binary64 arithmetic

    A finite binary64 number is a rational [n * 2^e] with [|n| <= 2^53]
    and [-1074 <= e]; an arithmetic operation returns its exact result
    rounded to the nearest such number, a tie going to the even [n]
    (IEEE 754, round to nearest, ties to even).  Results of [2^1024] and
    more, which JavaScript turns into [Infinity], and the sign of zero are
    outside the model. *)
Module Binary64.

Definition pow2 (e : Z) : Q :=
  if 0 <=? e then inject_Z (2 ^ e) else 1 # Z.to_pos (2 ^ (- e)).

(** The integer nearest to [q], the even one of two that are equally near. *)
Definition nearestEven (q : Q) : Z :=
  let f := Qfloor q in
  match (q - inject_Z f ?= 1 # 2)%Q with
  | Lt => f
  | Gt => f + 1
  | Eq => if Z.even f then f else f + 1
  end.

(** [floor (log2 x)] for [2^-1100 <= x], and [-1100] below. *)
Definition ilog2 (x : Q) : Z := Z.log2 (Qfloor (x * pow2 1100)) - 1100.

(** The exponent of the last place of [x]: 52 places below the leading
    bit of a normal number, [-1074] for a subnormal one. *)
Definition exponent (x : Q) : Z := Z.max (ilog2 x - 52) (- 1074).

Definition roundPositive (x : Q) : Q :=
  (inject_Z (nearestEven (x / pow2 (exponent x))) * pow2 (exponent x))%Q.

Definition round (x : Q) : Q :=
  match (x ?= 0)%Q with
  | Eq => 0%Q
  | Gt => roundPositive x
  | Lt => (- roundPositive (- x))%Q
  end.

(** [x / y] and [x * y] on binary64 numbers. *)
Definition divide (x y : Q) : Q := round (x / y).
Definition times (x y : Q) : Q := round (x * y).

(** Half the distance from [1] to the next binary64 number. *)
Definition unitRoundoff : Q := 1 # 9007199254740992.

End Binary64.

(** The value of a finite float of [SpecFloat], the specification of
    IEEE 754 arithmetic in the Standard Library, in which binary64 has the
    precision 53 and the exponent bound 1024; and [(a / b) * c] as that
    specification computes it.  [Binary64] is checked against it on the
    samples below. *)
Definition Float_value (f : SpecFloat.spec_float) : Q :=
  match f with
  | SpecFloat.S754_finite s m e =>
      ((if s then - 1 else 1) * inject_Z (Z.pos m) * Binary64.pow2 e)%Q
  | _ => 0%Q
  end.

Definition Float_ofZ (z : Z) : SpecFloat.spec_float :=
  SpecFloat.binary_normalize 53 1024 z 0 false.

Definition referenceScaled (a b c : Z) : Q :=
  Float_value (SpecFloat.SFmul 53 1024
                 (SpecFloat.SFdiv 53 1024 (Float_ofZ a) (Float_ofZ b))
                 (Float_ofZ c)).

Definition binary64Samples : list (Z * Z * Z) :=
  [(23, 40, 100); (49, 6, 15); (1, 3, 100); (199, 200, 100); (1, 8, 100);
   (7, 9, 100); (2, 3, 3); (1, 1000000007, 999); (9007199254740991, 3, 7);
   (123456789, 987654321, 100); (0, 5, 100); (5, 5, 100)].

(* ------------------------------------------------------------------ *)
(** ** src/delta.ts *)

Record FileMetadata := {
  fm_path : string;
  fm_hash : string;
  fm_mtime : Z;
  fm_size : Z
}.

Record PartialSync := {
  failedFiles : list string;
  retryCount : gmap string Z;
  lastFailure : Z
}.

Inductive VerificationStatus := pending | verified | inconsistent.

Record Inconsistencies := {
  missingInChroma : list string;
  extraInChroma : list string;
  lastChecked : Z
}.

Record ChromaState := {
  lastVerification : Z;
  verificationStatus : VerificationStatus;
  inconsistencies : option Inconsistencies
}.

Record FileState := {
  files : gmap string FileMetadata;
  lastSync : Z;
  version : Z;
  partialSync : option PartialSync;
  chromaState : option ChromaState
}.

Definition with_partialSync (state : FileState) (ps : option PartialSync) : FileState :=
  {| files := files state; lastSync := lastSync state; version := version state;
     partialSync := ps; chromaState := chromaState state |}.

Definition with_chromaState (state : FileState) (cs : option ChromaState) : FileState :=
  {| files := files state; lastSync := lastSync state; version := version state;
     partialSync := partialSync state; chromaState := cs |}.

(** [path.replace(/[/\\]/g, '_')] *)
Definition replaceSeparator (c : ascii) : ascii :=
  if ((charCode c =? 47)%N || (charCode c =? 92)%N)%bool then ch 95 else c.

(** The class [[a-zA-Z0-9_.-]]. *)
Definition isIdChar (c : ascii) : bool :=
  isAlpha c || isDigit c ||
  (charCode c =? 95)%N || (charCode c =? 46)%N || (charCode c =? 45)%N.

(** [.replace(/[^a-zA-Z0-9_.-]/g, '_')] *)
Definition replaceSpecial (c : ascii) : ascii :=
  if isIdChar c then c else ch 95.

Definition getDocumentId (path : string) : string :=
  String_map replaceSpecial (String_map replaceSeparator path).

(** [markFilesFailed].  The counts are modelled for the paths that are
    not keys of [Object.prototype]: for such a key without a count of its
    own, [(updatedRetryCount[file] || 0) + 1] reads the inherited member
    and yields a string, not a number, which the record of counts of the
    model cannot hold. *)
Definition markFilesFailed (now : Z) (state : FileState) (failed : list string)
  : FileState :=
  let currentPartialSync :=
    match partialSync state with
    | Some ps => ps
    | None => {| failedFiles := []; retryCount := ∅; lastFailure := now |}
    end in
  let updatedFailedFiles :=
    Set_spread (failedFiles currentPartialSync ++ failed) in
  let updatedRetryCount :=
    foldl (fun (m : gmap string Z) file => <[file := or_zero (m !! file) + 1]> m)
          (retryCount currentPartialSync) failed in
  with_partialSync state
    (Some {| failedFiles := updatedFailedFiles;
             retryCount := updatedRetryCount;
             lastFailure := now |}).

Definition markFilesSucceeded (state : FileState) (succeeded : list string)
  : FileState :=
  match partialSync state with
  | None => state
  | Some ps =>
      let remainingFailedFiles :=
        List.filter (fun file => negb (Array_includes succeeded file))
                    (failedFiles ps) in
      let updatedRetryCount :=
        foldl (fun (m : gmap string Z) file => delete file m)
              (retryCount ps) succeeded in
      with_partialSync state
        (if (0 <? Z.of_nat (List.length remainingFailedFiles))
         then Some {| failedFiles := remainingFailedFiles;
                      retryCount := updatedRetryCount;
                      lastFailure := lastFailure ps |}
         else None)
  end.

(** [getRetryableFiles].  For a failed path without a count of its own,
    [retryCount[file] || 0] is [0], unless the path is a key of
    [Object.prototype]: then it is the inherited member, which is not less
    than any number. *)
Definition getRetryableFiles (state : FileState) (maxRetries : Z) : list string :=
  match partialSync state with
  | None => []
  | Some ps =>
      List.filter
        (fun file =>
           match retryCount ps !! file with
           | Some count => or_zero (Some count) <? maxRetries
           | None => negb (inherited file) && (0 <? maxRetries)
           end)
        (failedFiles ps)
  end.

Definition updateVerificationState (now : Z) (state : FileState)
    (status : VerificationStatus)
    (found : option (list string * list string)) : FileState :=
  with_chromaState state
    (Some {| lastVerification := now;
             verificationStatus := status;
             inconsistencies :=
               match found with
               | Some (missing, extra) =>
                   Some {| missingInChroma := missing;
                           extraInChroma := extra;
                           lastChecked := now |}
               | None => None
               end |}).

Definition needsVerification (now : Z) (state : FileState) : bool :=
  match chromaState state with
  | None => true
  | Some cs =>
      let hoursSinceVerification :=
        (asQ (now - lastVerification cs) / asQ (1000 * 60 * 60))%Q in
      Qle_bool 24 hoursSinceVerification
  end.

(* ------------------------------------------------------------------ *)
(** ** Node's [createHash('sha1').update(s, 'utf8').digest('hex')] *)

Module Sha1.

Definition mask32 : Z := 4294967295.
Definition add32 (a b : Z) : Z := Z.land (a + b) mask32.
Definition rotl (n x : Z) : Z :=
  Z.land (Z.lor (Z.shiftl x n) (Z.shiftr x (32 - n))) mask32.
Definition not32 (x : Z) : Z := Z.lxor x mask32.

(** UTF-8 encoding of a string of code units below 256. *)
Fixpoint utf8 (s : string) : list Z :=
  match s with
  | EmptyString => []
  | String c r =>
      let n := Z.of_N (N_of_ascii c) in
      if n <? 128 then n :: utf8 r
      else Z.lor 192 (Z.shiftr n 6) :: Z.lor 128 (Z.land n 63) :: utf8 r
  end.

(** Big-endian bytes of [x], [n] of them. *)
Fixpoint be_bytes (n : nat) (x : Z) : list Z :=
  match n with
  | O => []
  | S k => Z.land (Z.shiftr x (8 * Z.of_nat k)) 255 :: be_bytes k x
  end.

Definition pad (msg : list Z) : list Z :=
  let len := Z.of_nat (List.length msg) in
  let zeros := Z.to_nat ((55 - len) mod 64) in
  msg ++ [128] ++ List.repeat 0 zeros ++ be_bytes 8 (8 * len).

Fixpoint words (bytes : list Z) : list Z :=
  match bytes with
  | a :: b :: c :: d :: r =>
      Z.lor (Z.shiftl a 24) (Z.lor (Z.shiftl b 16) (Z.lor (Z.shiftl c 8) d))
      :: words r
  | _ => []
  end.

(** The message schedule, most recent word first. *)
Fixpoint extend (n : nat) (w : list Z) : list Z :=
  match n with
  | O => w
  | S k =>
      let x := Z.lxor (Z.lxor (nth 2 w 0) (nth 7 w 0))
                      (Z.lxor (nth 13 w 0) (nth 15 w 0)) in
      extend k (rotl 1 x :: w)
  end.

Definition schedule (block : list Z) : list Z :=
  List.rev (extend 64 (List.rev block)).

Definition state : Type := Z * Z * Z * Z * Z.

Definition round (t : Z) (st : state) (w : Z) : state :=
  let '(a, b, c, d, e) := st in
  let '(f, k) :=
    if t <? 20 then (Z.lor (Z.land b c) (Z.land (not32 b) d), 1518500249)
    else if t <? 40 then (Z.lxor b (Z.lxor c d), 1859775393)
    else if t <? 60 then
      (Z.lor (Z.land b c) (Z.lor (Z.land b d) (Z.land c d)), 2400959708)
    else (Z.lxor b (Z.lxor c d), 3395469782) in
  let temp := add32 (add32 (add32 (add32 (rotl 5 a) f) e) k) w in
  (temp, a, rotl 30 b, c, d).

Fixpoint rounds (t : Z) (st : state) (ws : list Z) : state :=
  match ws with
  | [] => st
  | w :: r => rounds (t + 1) (round t st w) r
  end.

Definition compress (h : state) (block : list Z) : state :=
  let '(h0, h1, h2, h3, h4) := h in
  let '(a, b, c, d, e) := rounds 0 h (schedule block) in
  (add32 h0 a, add32 h1 b, add32 h2 c, add32 h3 d, add32 h4 e).

Fixpoint blocks (n : nat) (h : state) (ws : list Z) : state :=
  match n with
  | O => h
  | S k => blocks k (compress h (firstn 16 ws)) (skipn 16 ws)
  end.

Definition initial : state :=
  (1732584193, 4023233417, 2562383102, 271733878, 3285377520).

Definition hexDigit (n : Z) : ascii :=
  if n <? 10 then ascii_of_N (Z.to_N (48 + n)) else ascii_of_N (Z.to_N (87 + n)).

Fixpoint hexWord (n : nat) (x : Z) : string :=
  match n with
  | O => EmptyString
  | S k => String (hexDigit (Z.land (Z.shiftr x (4 * Z.of_nat k)) 15)) (hexWord k x)
  end.

Definition digest (s : string) : string :=
  let ws := words (pad (utf8 s)) in
  let '(h0, h1, h2, h3, h4) := blocks (List.length ws / 16) initial ws in
  hexWord 8 h0 ++ hexWord 8 h1 ++ hexWord 8 h2 ++ hexWord 8 h3 ++ hexWord 8 h4.

End Sha1.

(* ------------------------------------------------------------------ *)
(** ** src/document-chunker.ts *)

Record ChunkerOptions := {
  maxLen : Z;      (* hard ceiling per chunk *)
  targetLen : Z;   (* soft goal before looking for a boundary *)
  overlap : Z      (* trailing characters to repeat *)
}.

Definition DEFAULT_OPTIONS : ChunkerOptions :=
  {| maxLen := 1000; targetLen := 800; overlap := 200 |}.

Inductive Mime := markdown | text | pdf.

Record SourceDocument := {
  doc_id : string;
  doc_mime : Mime;
  doc_content : string;
  doc_updatedAt : Z
}.

Record ChunkMeta := {
  overlapWithPrev : bool;
  overlapWithNext : bool;
  meta_mime : Mime;
  parentPath : option string;
  headings : list string;
  order : Z;
  meta_updatedAt : Z
}.

Record DocumentChunk := {
  chunk_id : string;
  parentId : string;
  chunk_content : string;
  chunk_start : Z;
  chunk_end : Z;
  chunk_hash : string;
  meta : ChunkMeta
}.

Inductive TokenType := heading | code_fence | list_item | paragraph | blank.

Record TokenChunk := {
  tok_start : Z;
  tok_end : Z;
  tok_type : TokenType;
  tok_content : string
}.

Definition hashContent (content : string) : string := Sha1.digest content.

Definition nonEmpty (s : string) : bool :=
  match s with EmptyString => false | _ => true end.

(** Splits off the longest prefix of characters satisfying [p]. *)
Fixpoint String_span (p : ascii -> bool) (s : string) : nat * string :=
  match s with
  | EmptyString => (O, EmptyString)
  | String c r =>
      if p c then let '(n, rest) := String_span p r in (S n, rest)
      else (O, s)
  end.

Definition beginsWithSpace (s : string) : bool :=
  match s with
  | String c _ => isWhiteSpace c
  | EmptyString => false
  end.

Definition isHash (c : ascii) : bool := (charCode c =? 35)%N.

(** [s.match(/^#{1,6}\s+/)] *)
Definition matchesHeading (s : string) : bool :=
  let '(n, rest) := String_span isHash s in
  (1 <=? n)%nat && (n <=? 6)%nat && beginsWithSpace rest.

(** [s.match(/^[-*+]\s+/)] *)
Definition matchesBullet (s : string) : bool :=
  match s with
  | String c rest =>
      ((charCode c =? 45)%N || (charCode c =? 42)%N || (charCode c =? 43)%N)
      && beginsWithSpace rest
  | EmptyString => false
  end.

(** [s.match(/^\d+\.\s+/)] *)
Definition matchesNumbered (s : string) : bool :=
  let '(n, rest) := String_span isDigit s in
  (1 <=? n)%nat &&
  match rest with
  | String c rest' => (charCode c =? 46)%N && beginsWithSpace rest'
  | EmptyString => false
  end.

Definition fence : string := "```".

Definition isFenceLine (line : string) : bool := startsWith (trim line) fence.
Definition isHeadingLine (line : string) : bool := matchesHeading (trim line).
Definition isListLine (line : string) : bool :=
  matchesBullet (trim line) || matchesNumbered (trim line).
Definition isBlankLine (line : string) : bool := negb (nonEmpty (trim line)).

(** The lines [extractCodeBlock] adds after the opening fence. *)
Fixpoint codeBlockTail (lines : list string) : list string :=
  match lines with
  | [] => []
  | l :: r => if isFenceLine l then [l] else l :: codeBlockTail r
  end.

Definition extractCodeBlock (first : string) (following : list string)
  : list string :=
  first :: codeBlockTail following.

(** The lines [extractListItem] adds after the item's first line. *)
Fixpoint listItemTail (lines : list string) : list string :=
  match lines with
  | [] => []
  | l :: r =>
      if startsWith l "  " || isBlankLine l then
        if isBlankLine l &&
           match r with
           | next :: _ => isListLine next
           | [] => false
           end
        then [l]
        else l :: listItemTail r
      else []
  end.

Definition extractListItem (first : string) (following : list string)
  : list string :=
  first :: listItemTail following.

(** The lines [extractParagraph] adds after the paragraph's first line. *)
Fixpoint paragraphTail (lines : list string) : list string :=
  match lines with
  | [] => []
  | l :: r =>
      if nonEmpty (trim l) then
        if isHeadingLine l || isListLine l || isFenceLine l then []
        else l :: paragraphTail r
      else []
  end.

Definition extractParagraph (first : string) (following : list string)
  : list string :=
  first :: paragraphTail following.

(** The loop of [tokenizeMarkdown]: [lines] are the lines from index [i] on,
    [currentPos] the running offset.  Every turn consumes at least one line,
    so [fuel] only makes the recursion structural. *)
Fixpoint tokenizeLines (fuel : nat) (lines : list string) (currentPos : Z)
  : list TokenChunk :=
  match fuel, lines with
  | S fuel', line :: following =>
      let lineStart := currentPos in
      let lineEnd := currentPos + strlen line + 1 in
      let multi (type : TokenType) (taken : list string) :=
        let blockContent := Array_join newline taken in
        {| tok_start := lineStart;
           tok_end := currentPos + strlen blockContent;
           tok_type := type;
           tok_content := blockContent |}
        :: tokenizeLines fuel' (skipn (List.length taken) lines)
             (currentPos + strlen blockContent + 1) in
      let single (type : TokenType) :=
        {| tok_start := lineStart;
           tok_end := lineEnd - 1;
           tok_type := type;
           tok_content := line |}
        :: tokenizeLines fuel' following lineEnd in
      if isFenceLine line then multi code_fence (extractCodeBlock line following)
      else if isHeadingLine line then single heading
      else if isListLine line then multi list_item (extractListItem line following)
      else if nonEmpty (trim line) then
        multi paragraph (extractParagraph line following)
      else single blank
  | _, _ => []
  end.

Definition tokenizeMarkdown (content : string) : list TokenChunk :=
  let lines := String_split LF content in
  tokenizeLines (List.length lines) lines 0.

(** Within a run of white space, the length of its shortest prefix that
    ends at the last line feed of the run; [0] when the run has none. *)
Fixpoint lastLineFeedInRun (s : string) : nat :=
  match s with
  | EmptyString => O
  | String c r =>
      if isWhiteSpace c then
        match lastLineFeedInRun r with
        | O => if Ascii.eqb c LF then 1%nat else O
        | S k => S (S k)
        end
      else O
  end.

(** Length of the match of [/\n\s*\n/] at the head of [s], if any. *)
Definition matchBlankSeparator (s : string) : option nat :=
  match s with
  | String c r =>
      if Ascii.eqb c LF then
        match lastLineFeedInRun r with
        | O => None
        | S k => Some (S (S k))
        end
      else None
  | EmptyString => None
  end.

(** [content.split(/\n\s*\n/)]; [skip] counts the characters still inside
    the separator matched last. *)
Fixpoint splitParagraphs (skip : nat) (s : string) : list string :=
  match s with
  | EmptyString => [EmptyString]
  | String c r =>
      match skip with
      | S k => splitParagraphs k r
      | O =>
          match matchBlankSeparator s with
          | Some n => EmptyString :: splitParagraphs (Nat.pred n) r
          | None =>
              match splitParagraphs O r with
              | h :: t => String c h :: t
              | [] => [String c EmptyString]
              end
          end
      end
  end.

Fixpoint plainTextTokens (paragraphs : list string) (currentPos : Z)
  : list TokenChunk :=
  match paragraphs with
  | [] => []
  | para :: rest =>
      let next := plainTextTokens rest (currentPos + strlen para + 2) in
      if nonEmpty (trim para) then
        {| tok_start := currentPos;
           tok_end := currentPos + strlen para;
           tok_type := paragraph;
           tok_content := para |} :: next
      else next
  end.

Definition tokenizePlainText (content : string) : list TokenChunk :=
  plainTextTokens (splitParagraphs O content) 0.

Definition tokenizeDocument (doc : SourceDocument) : list TokenChunk :=
  match doc_mime doc with
  | markdown => tokenizeMarkdown (doc_content doc)
  | _ => tokenizePlainText (doc_content doc)
  end.

(** Greedy [\s+] followed by [(.+)$]: the text captured by the group. *)
Definition matchSpacesThenRest (s : string) : option string :=
  let '(m, _) := String_span isWhiteSpace s in
  let captures (k : nat) : bool :=
    let g := String_drop k s in
    nonEmpty g && String_forallb (fun c => negb (isLineTerminator c)) g in
  match List.find captures (List.rev (List.seq 1 m)) with
  | Some k => Some (String_drop k s)
  | None => None
  end.

(** [line.match(/^(#{1,6})\s+(.+)$/)]: the level and the captured title. *)
Definition matchHeadingLine (line : string) : option (nat * string) :=
  let '(n, rest) := String_span isHash line in
  if (1 <=? n)%nat && (n <=? 6)%nat then
    match matchSpacesThenRest rest with
    | Some title => Some (n, title)
    | None => None
    end
  else None.

(** The [while] loop of [extractHeadings] on the stack, top first. *)
Fixpoint popHeadings (level : nat) (stack : list string) : list string :=
  match stack with
  | [] => []
  | top :: below =>
      let lastLevel := Nat.min 6 (fst (String_span isHash top)) in
      if (lastLevel <? level)%nat then stack else popHeadings level below
  end.

Definition extractHeadings (content : string) (position : Z) : list string :=
  let lines := String_split LF (String_substring0 position content) in
  List.rev
    (foldl (fun stack line =>
              match matchHeadingLine line with
              | Some (level, title) =>
                  (String_repeat (ch 35) level ++ " " ++ trim title)%string
                  :: popHeadings level stack
              | None => stack
              end)
           [] lines).

Definition createSingleChunk (doc : SourceDocument) : DocumentChunk :=
  let hash := hashContent (doc_content doc) in
  {| chunk_id := (doc_id doc ++ ":" ++ String_slice0 12 hash)%string;
     parentId := doc_id doc;
     chunk_content := doc_content doc;
     chunk_start := 0;
     chunk_end := strlen (doc_content doc);
     chunk_hash := hash;
     meta := {| overlapWithPrev := false;
                overlapWithNext := false;
                meta_mime := doc_mime doc;
                parentPath := None;
                headings := extractHeadings (doc_content doc) 0;
                order := 0;
                meta_updatedAt := doc_updatedAt doc |} |}.

Definition tokenContents (buffer : list TokenChunk) : string :=
  Array_join newline (List.map tok_content buffer).

Definition lastTokenEnd (buffer : list TokenChunk) : Z :=
  match List.rev buffer with
  | lastToken :: _ => tok_end lastToken
  | [] => 0
  end.

Definition finalizeChunk (doc : SourceDocument) (buffer : list TokenChunk)
    (start : Z) (overlapContent : string) : option DocumentChunk :=
  match buffer with
  | [] => None
  | _ =>
      let chunkContent :=
        ((if nonEmpty overlapContent then overlapContent ++ newline else "")
         ++ tokenContents buffer)%string in
      let hash := hashContent chunkContent in
      Some {| chunk_id := (doc_id doc ++ ":" ++ String_slice0 12 hash)%string;
              parentId := doc_id doc;
              chunk_content := chunkContent;
              chunk_start := start;
              chunk_end := lastTokenEnd buffer;
              chunk_hash := hash;
              meta := {| overlapWithPrev := 0 <? strlen overlapContent;
                         overlapWithNext := true;
                         meta_mime := doc_mime doc;
                         parentPath := None;
                         headings := extractHeadings (doc_content doc) start;
                         order := 0;
                         meta_updatedAt := doc_updatedAt doc |} |}
  end.

Definition isSentenceTerminator (c : ascii) : bool :=
  (charCode c =? 46)%N || (charCode c =? 33)%N || (charCode c =? 63)%N.

(** Length of the match of [/[.!?]\s+/] at the head of [s], if any. *)
Definition matchSentenceEnd (s : string) : option nat :=
  match s with
  | String c r =>
      if isSentenceTerminator c then
        match fst (String_span isWhiteSpace r) with
        | O => None
        | S k => Some (S (S k))
        end
      else None
  | EmptyString => None
  end.

(** The [exec] loop of [findSentenceBoundary]: [index] is the offset of [s]
    in the content, [skip] the characters left of the match found last. *)
Fixpoint lastSentenceEnd (s : string) (index skip lastMatch : nat) : nat :=
  match s with
  | EmptyString => lastMatch
  | String _ r =>
      match skip with
      | S k => lastSentenceEnd r (S index) k lastMatch
      | O =>
          match matchSentenceEnd s with
          | Some n => lastSentenceEnd r (S index) (Nat.pred n) (index + n)
          | None => lastSentenceEnd r (S index) O lastMatch
          end
      end
  end.

Definition findSentenceBoundary (content : string) : Z :=
  let lastMatch := Z.of_nat (lastSentenceEnd content 0 0 0) in
  if lastMatch =? 0 then strlen content else lastMatch.

Record Overlap := {
  overlapContent : string;
  nextStart : Z;
  nextBuffer : list TokenChunk;
  nextBufferLen : Z
}.

Definition with_content (token : TokenChunk) (content : string) : TokenChunk :=
  {| tok_start := tok_start token; tok_end := tok_end token;
     tok_type := tok_type token; tok_content := content |}.

Definition isAtomic (type : TokenType) : bool :=
  match type with
  | code_fence | heading => true
  | _ => false
  end.

Section Chunker.

Variable options : ChunkerOptions.

(** The backward [for] loop of [prepareOverlap]; [reversed] is the buffer
    from its last token down, the result is in document order. *)
Fixpoint overlapTokens (reversed : list TokenChunk) (remainingOverlap : Z)
  : list TokenChunk :=
  match reversed with
  | [] => []
  | token :: earlier =>
      if 0 <? remainingOverlap then
        if strlen (tok_content token) <=? remainingOverlap then
          overlapTokens earlier (remainingOverlap - strlen (tok_content token))
          ++ [token]
        else if isAtomic (tok_type token) then [token]
        else
          let partialContent :=
            String_slice (- remainingOverlap) (tok_content token) in
          let sentenceBoundary := findSentenceBoundary partialContent in
          if 0 <? sentenceBoundary then
            [with_content token
               (String_slice (- sentenceBoundary) (tok_content token))]
          else []
      else []
  end.

Definition prepareOverlap (buffer : list TokenChunk) : Overlap :=
  match buffer with
  | [] => {| overlapContent := ""; nextStart := 0;
             nextBuffer := []; nextBufferLen := 0 |}
  | _ =>
      let kept := overlapTokens (List.rev buffer) (overlap options) in
      let joined := tokenContents kept in
      {| overlapContent := joined;
         nextStart := lastTokenEnd buffer - strlen joined;
         nextBuffer := kept;
         nextBufferLen := strlen joined |}
  end.

(** [if (chunk) yield chunk] *)
Definition yield (chunk : option DocumentChunk) : list DocumentChunk :=
  match chunk with
  | Some c => [c]
  | None => []
  end.

(** The [for] loop of [processTokens] and the flush after it. *)
Fixpoint processLoop (doc : SourceDocument) (tokens : list TokenChunk)
    (buffer : list TokenChunk) (bufferLen : Z)
    (overlapBuffer : string) (chunkStart : Z) : list DocumentChunk :=
  match tokens with
  | [] =>
      if (0 <? Z.of_nat (List.length buffer))
      then yield (finalizeChunk doc buffer chunkStart overlapBuffer)
      else []
  | token :: rest =>
      let '(out1, buffer1, bufferLen1, overlapBuffer1, chunkStart1) :=
        if (maxLen options <? bufferLen + strlen (tok_content token))
           && (0 <? Z.of_nat (List.length buffer))
        then
          let result := prepareOverlap buffer in
          (yield (finalizeChunk doc buffer chunkStart overlapBuffer),
           nextBuffer result, nextBufferLen result,
           overlapContent result, nextStart result)
        else ([], buffer, bufferLen, overlapBuffer, chunkStart) in
      let buffer2 := buffer1 ++ [token] in
      let bufferLen2 := bufferLen1 + strlen (tok_content token) in
      if targetLen options <=? bufferLen2 then
        let result := prepareOverlap buffer2 in
        out1 ++ yield (finalizeChunk doc buffer2 chunkStart1 overlapBuffer1)
        ++ processLoop doc rest (nextBuffer result) (nextBufferLen result)
             (overlapContent result) (nextStart result)
      else
        out1 ++ processLoop doc rest buffer2 bufferLen2 overlapBuffer1 chunkStart1
  end.

Definition processTokens (doc : SourceDocument) (tokens : list TokenChunk)
  : list DocumentChunk :=
  processLoop doc tokens [] 0 "" 0.

Definition with_order (chunk : DocumentChunk) (index : Z) : DocumentChunk :=
  {| chunk_id := chunk_id chunk; parentId := parentId chunk;
     chunk_content := chunk_content chunk;
     chunk_start := chunk_start chunk; chunk_end := chunk_end chunk;
     chunk_hash := chunk_hash chunk;
     meta := {| overlapWithPrev := overlapWithPrev (meta chunk);
                overlapWithNext := overlapWithNext (meta chunk);
                meta_mime := meta_mime (meta chunk);
                parentPath := parentPath (meta chunk);
                headings := headings (meta chunk);
                order := index;
                meta_updatedAt := meta_updatedAt (meta chunk) |} |}.

(** [chunk.meta.order = chunkIndex++] over the chunks as they are yielded. *)
Fixpoint assignOrder (chunkIndex : Z) (chunks : list DocumentChunk)
  : list DocumentChunk :=
  match chunks with
  | [] => []
  | c :: r => with_order c chunkIndex :: assignOrder (chunkIndex + 1) r
  end.

(** The chunks the generator yields, in order. *)
Definition chunkDocument (doc : SourceDocument) : list DocumentChunk :=
  if strlen (doc_content doc) <=? maxLen options then [createSingleChunk doc]
  else assignOrder 0 (processTokens doc (tokenizeDocument doc)).

End Chunker.

Definition needsChunking (content : string) (opts : ChunkerOptions) : bool :=
  maxLen opts <? strlen content.

Definition documentHash (content : string) : string := Sha1.digest content.

(** Specification vocabulary and sample inputs for the chunker. *)

(** Some position of [s] holds [.], [!] or [?] followed by white space. *)
Fixpoint hasSentenceBoundary (s : string) : bool :=
  match s with
  | EmptyString => false
  | String c r =>
      (isSentenceTerminator c && beginsWithSpace r) || hasSentenceBoundary r
  end.

Definition totalLength (buffer : list TokenChunk) : Z :=
  foldr (fun token acc => strlen (tok_content token) + acc) 0 buffer.

(** Consecutive chunks: each is the flush of a non-empty token buffer whose
    text is prefixed by the overlap prepared from the buffer before it. *)
Inductive chained (options : ChunkerOptions) (doc : SourceDocument)
  : string -> list DocumentChunk -> Prop :=
| chained_nil (pending : string) : chained options doc pending []
| chained_cons (pending : string) (buffer : list TokenChunk) (start : Z)
    (c : DocumentChunk) (rest : list DocumentChunk) :
    buffer <> [] ->
    finalizeChunk doc buffer start pending = Some c ->
    chained options doc (overlapContent (prepareOverlap options buffer)) rest ->
    chained options doc pending (c :: rest).

Fixpoint String_times (n : nat) (s : string) : string :=
  match n with
  | O => EmptyString
  | S k => (s ++ String_times k s)%string
  end.

(** The configuration and the paragraph of the repository's chunker tests. *)
Definition testOptions : ChunkerOptions :=
  {| maxLen := 100; targetLen := 80; overlap := 20 |}.

Definition testParagraph : string :=
  "This is the first sentence. This is the second sentence.".

Definition blankLine : string := (newline ++ newline)%string.

Definition longContent : string :=
  (testParagraph ++ blankLine ++ testParagraph ++ blankLine ++
   testParagraph ++ blankLine ++ testParagraph ++ blankLine ++
   testParagraph)%string.

Definition document (m : Mime) (content : string) : SourceDocument :=
  {| doc_id := "test-doc"; doc_mime := m; doc_content := content;
     doc_updatedAt := 0 |}.

(** 1001 characters: 250 two-letter lines, each followed by a blank line. *)
Definition shortLines : string :=
  (String_times 250 ("ab" ++ blankLine) ++ "c")%string.

Definition paragraphToken (content : string) : TokenChunk :=
  {| tok_start := 0; tok_end := strlen content;
     tok_type := paragraph; tok_content := content |}.

(* ------------------------------------------------------------------ *)
(** ** JSON documents, as [JSON.parse] returns them *)

(** The members of an object are its own properties; a lookup takes the
    first member of that name. *)
Inductive json :=
| JNull
| JBool (b : bool)
| JNum (n : Z)
| JStr (s : string)
| JArr (items : list json)
| JObj (members : list (string * json)).

(** [data.name]: [None] is [undefined]. *)
Definition member (name : string) (data : json) : option json :=
  match data with
  | JObj members =>
      match List.find (fun m => String.eqb (fst m) name) members with
      | Some m => Some (snd m)
      | None => None
      end
  | _ => None
  end.

Definition truthy (v : json) : bool :=
  match v with
  | JNull => false
  | JBool b => b
  | JNum n => negb (n =? 0)
  | JStr s => nonEmpty s
  | JArr _ | JObj _ => true
  end.

Definition isString (v : option json) : bool :=
  match v with Some (JStr _) => true | _ => false end.
Definition isNumber (v : option json) : bool :=
  match v with Some (JNum _) => true | _ => false end.
Definition isArray (v : option json) : bool :=
  match v with Some (JArr _) => true | _ => false end.

(** What a file holds: text that [JSON.parse] rejects, or a document. *)
Inductive FileContent :=
| Unparseable (raw : string)
| Document (data : json).

(* ------------------------------------------------------------------ *)
(** ** src/delta.ts, DeltaAction *)

Inductive ActionKind := Upsert | Delete.

Record DeltaAction := {
  act_action : ActionKind;
  act_id : string;
  act_path : option string;
  act_text : option string;
  act_metadata : option (list (string * json))
}.

Definition optionalMember (name : string) (v : option json) : list (string * json) :=
  match v with
  | Some x => [(name, x)]
  | None => []
  end.

(** The object [JSON.stringify] writes for an action ([undefined] members
    are left out). *)
Definition encodeAction (a : DeltaAction) : json :=
  JObj ([("action", JStr match act_action a with
                         | Upsert => "upsert"
                         | Delete => "delete"
                         end);
         ("id", JStr (act_id a))]
        ++ optionalMember "path" (JStr <$> act_path a)
        ++ optionalMember "text" (JStr <$> act_text a)
        ++ optionalMember "metadata" (JObj <$> act_metadata a)).

Definition optionalString (v : option json) : option (option string) :=
  match v with
  | None => Some None
  | Some (JStr s) => Some (Some s)
  | Some _ => None
  end.

(** A parsed object read at the type [DeltaAction]; [None] when it holds
    a value that the interface excludes. *)
Definition decodeAction (v : json) : option DeltaAction :=
  kind ← match member "action" v with
          | Some (JStr s) =>
              if String.eqb s "upsert" then Some Upsert
              else if String.eqb s "delete" then Some Delete
              else None
          | _ => None
          end;
  ident ← match member "id" v with Some (JStr s) => Some s | _ => None end;
  path ← optionalString (member "path" v);
  body ← optionalString (member "text" v);
  metadata ← match member "metadata" v with
              | None => Some None
              | Some (JObj m) => Some (Some m)
              | Some _ => None
              end;
  Some {| act_action := kind; act_id := ident; act_path := path;
          act_text := body; act_metadata := metadata |}.

(* ------------------------------------------------------------------ *)
(** ** src/sync-state.ts *)

(** [SyncState] is a union of string literals; a loaded record may hold
    any string. *)
Definition idle : string := "idle".
Definition running : string := "running".
Definition paused : string := "paused".
Definition stopping : string := "stopping".

Record SyncSession := {
  sess_id : string;
  sess_state : string;
  startTime : Z;
  pauseTime : option Z;
  resumeTime : option Z;
  totalActions : Z;
  processedActions : Z;
  remainingActions : list DeltaAction;
  processedIds : list string;   (* a [Set<string>], in insertion order *)
  sess_errors : list string;
  lastCheckpointTime : Z;
  batchSize : Z
}.

Record SyncProgress := {
  processed : Z;
  total : Z;
  percentage : Z;
  remaining : Z;
  currentBatch : Z;
  totalBatches : Z;
  progressState : string;
  elapsedTime : Z;
  estimatedTimeRemaining : option Z
}.

(** The manager's fields: the live session, the session file on disk, and
    the abort controller ([Some aborted], or [None] for [null]). *)
Record Manager := {
  currentSession : option SyncSession;
  sessionFile : option FileContent;
  abortController : option bool
}.

Definition newManager (file : option FileContent) : Manager :=
  {| currentSession := None; sessionFile := file; abortController := None |}.

Definition with_session (m : Manager) (s : option SyncSession) : Manager :=
  {| currentSession := s; sessionFile := sessionFile m;
     abortController := abortController m |}.

Definition with_file (m : Manager) (f : option FileContent) : Manager :=
  {| currentSession := currentSession m; sessionFile := f;
     abortController := abortController m |}.

Definition with_controller (m : Manager) (c : option bool) : Manager :=
  {| currentSession := currentSession m; sessionFile := sessionFile m;
     abortController := c |}.

(** The document [saveSession] writes: the session with [processedIds] as
    an array.  Member order is not significant. *)
Definition encodeSession (s : SyncSession) : json :=
  JObj ([("id", JStr (sess_id s));
         ("state", JStr (sess_state s));
         ("startTime", JNum (startTime s))]
        ++ optionalMember "pauseTime" (JNum <$> pauseTime s)
        ++ optionalMember "resumeTime" (JNum <$> resumeTime s)
        ++ [("totalActions", JNum (totalActions s));
            ("processedActions", JNum (processedActions s));
            ("remainingActions", JArr (encodeAction <$> remainingActions s));
            ("processedIds", JArr (JStr <$> processedIds s));
            ("errors", JArr (JStr <$> sess_errors s));
            ("lastCheckpointTime", JNum (lastCheckpointTime s));
            ("batchSize", JNum (batchSize s))]).

Definition saveSession (m : Manager) : Manager :=
  match currentSession m with
  | None => m
  | Some s => with_file m (Some (Document (encodeSession s)))
  end.

Definition clearSessionFile (m : Manager) : Manager := with_file m None.

Definition clearSession (m : Manager) : Manager :=
  {| currentSession := None; sessionFile := None; abortController := None |}.

Definition isValidSession (data : json) : bool :=
  truthy data &&
  isString (member "id" data) &&
  isString (member "state" data) &&
  isNumber (member "startTime" data) &&
  isNumber (member "totalActions" data) &&
  isNumber (member "processedActions" data) &&
  isArray (member "remainingActions" data) &&
  isArray (member "errors" data) &&
  isNumber (member "lastCheckpointTime" data) &&
  isNumber (member "batchSize" data).

Definition chars (s : string) : list json :=
  (fun c => JStr (String c EmptyString)) <$> list_ascii_of_string s.

(** The elements [new Set(v || [])] iterates; [None] when it throws. *)
Definition setElements (v : option json) : option (list json) :=
  match v with
  | None => Some []
  | Some x =>
      if truthy x then
        match x with
        | JArr items => Some items
        | JStr s => Some (chars s)
        | _ => None
        end
      else Some []
  end.

(** What [loadSession] returns: the validated document and the elements
    of its [processedIds] set. *)
Record LoadedSession := {
  sessionData : json;
  loadedIds : list json
}.

Definition loadSession (m : Manager) : option LoadedSession * Manager :=
  match sessionFile m with
  | None => (None, m)
  | Some (Unparseable _) => (None, clearSessionFile m)
  | Some (Document data) =>
      if negb (isValidSession data) then (None, clearSessionFile m)
      else
        match setElements (member "processedIds" data) with
        | Some ids => (Some {| sessionData := data; loadedIds := ids |}, m)
        | None => (None, clearSessionFile m)
        end
  end.

Definition loadedState (l : LoadedSession) : string :=
  match member "state" (sessionData l) with
  | Some (JStr s) => s
  | _ => ""
  end.

Definition loadedRemaining (l : LoadedSession) : list json :=
  match member "remainingActions" (sessionData l) with
  | Some (JArr items) => items
  | _ => []
  end.

Definition numberOf (v : option json) : option Z :=
  match v with Some (JNum n) => Some n | _ => None end.

Definition optionalNumber (v : option json) : option (option Z) :=
  match v with
  | None => Some None
  | Some (JNum n) => Some (Some n)
  | Some _ => None
  end.

Definition stringOf (v : json) : option string :=
  match v with JStr s => Some s | _ => None end.

(** The loaded record read at the type [SyncSession]; [None] when a part
    that [isValidSession] does not inspect holds a value that the
    interface excludes.  Such records are outside this model. *)
Definition asSyncSession (l : LoadedSession) : option SyncSession :=
  let data := sessionData l in
  ident ← (member "id" data ≫= stringOf);
  start ← numberOf (member "startTime" data);
  pausedAt ← optionalNumber (member "pauseTime" data);
  resumedAt ← optionalNumber (member "resumeTime" data);
  totalCount ← numberOf (member "totalActions" data);
  processedCount ← numberOf (member "processedActions" data);
  actions ← mapM decodeAction (loadedRemaining l);
  ids ← mapM stringOf (loadedIds l);
  messages ← match member "errors" data with
              | Some (JArr items) => mapM stringOf items
              | _ => None
              end;
  checkpoint ← numberOf (member "lastCheckpointTime" data);
  size ← numberOf (member "batchSize" data);
  Some {| sess_id := ident; sess_state := loadedState l; startTime := start;
          pauseTime := pausedAt; resumeTime := resumedAt;
          totalActions := totalCount; processedActions := processedCount;
          remainingActions := actions; processedIds := Set_spread ids;
          sess_errors := messages; lastCheckpointTime := checkpoint;
          batchSize := size |}.

(** [`sync_${timestamp}_${random}`]; [random] stands for
    [Math.random().toString(36).substring(2)]. *)
Definition generateSessionId (now : Z) (random : string) : string :=
  ("sync_" ++ pretty now ++ "_" ++ random)%string.

Definition len {A} (l : list A) : Z := Z.of_nat (List.length l).

(** [xs.slice(0, finish)] *)
Definition Array_slice0 {A} (finish : Z) (xs : list A) : list A :=
  let to := if finish <? 0 then Z.max (len xs + finish) 0
            else Z.min finish (len xs) in
  firstn (Z.to_nat to) xs.

(** [xs.slice(start)] *)
Definition Array_slice {A} (start : Z) (xs : list A) : list A :=
  let from := if start <? 0 then Z.max (len xs + start) 0
              else Z.min start (len xs) in
  skipn (Z.to_nat from) xs.

Definition Set_add (ids : list string) (x : string) : list string :=
  if bool_decide (x ∈ ids) then ids else ids ++ [x].

(** [initializeSession]; [None] only when the stored record is resumed and
    is outside the model, see [asSyncSession]. *)
Definition initializeSession (now : Z) (random : string)
    (actions : list DeltaAction) (size : Z) (m : Manager)
  : option (SyncSession * Manager) :=
  let '(existingSession, m1) := loadSession m in
  let fresh :=
    {| sess_id := generateSessionId now random;
       sess_state := running;
       startTime := now;
       pauseTime := None;
       resumeTime := None;
       totalActions := len actions;
       processedActions := 0;
       remainingActions := actions;
       processedIds := [];
       sess_errors := [];
       lastCheckpointTime := now;
       batchSize := size |} in
  session ←
    match existingSession with
    | Some l =>
        if String.eqb (loadedState l) paused && (0 <? len (loadedRemaining l))
        then
          existing ← asSyncSession l;
          Some {| sess_id := sess_id existing;
                  sess_state := running;
                  startTime := startTime existing;
                  pauseTime := pauseTime existing;
                  resumeTime := Some now;
                  totalActions := totalActions existing;
                  processedActions := processedActions existing;
                  remainingActions := remainingActions existing;
                  processedIds := processedIds existing;
                  sess_errors := sess_errors existing;
                  lastCheckpointTime := lastCheckpointTime existing;
                  batchSize := size |}
        else Some fresh
    | None => Some fresh
    end;
  Some (session,
        saveSession (with_controller (with_session m1 (Some session)) (Some false))).

Definition getNextBatch (m : Manager) : list DeltaAction * bool :=
  match currentSession m with
  | Some s =>
      if String.eqb (sess_state s) running then
        (Array_slice0 (batchSize s) (remainingActions s),
         batchSize s <? len (remainingActions s))
      else ([], false)
  | None => ([], false)
  end.

Definition completeBatch (now : Z) (completedActions : list DeltaAction)
    (m : Manager) : Manager :=
  match currentSession m with
  | None => m
  | Some s =>
      saveSession (with_session m (Some
        {| sess_id := sess_id s;
           sess_state := sess_state s;
           startTime := startTime s;
           pauseTime := pauseTime s;
           resumeTime := resumeTime s;
           totalActions := totalActions s;
           processedActions := processedActions s + len completedActions;
           remainingActions :=
             Array_slice (len completedActions) (remainingActions s);
           processedIds :=
             foldl (fun ids a => Set_add ids (act_id a))
                   (processedIds s) completedActions;
           sess_errors := sess_errors s;
           lastCheckpointTime := now;
           batchSize := batchSize s |}))
  end.

Definition set_errors (s : SyncSession) (e : list string) : SyncSession :=
  {| sess_id := sess_id s; sess_state := sess_state s;
     startTime := startTime s; pauseTime := pauseTime s;
     resumeTime := resumeTime s; totalActions := totalActions s;
     processedActions := processedActions s;
     remainingActions := remainingActions s; processedIds := processedIds s;
     sess_errors := e; lastCheckpointTime := lastCheckpointTime s;
     batchSize := batchSize s |}.

Definition set_state (s : SyncSession) (st : string) (pausedAt resumedAt : option Z)
  : SyncSession :=
  {| sess_id := sess_id s; sess_state := st;
     startTime := startTime s; pauseTime := pausedAt;
     resumeTime := resumedAt; totalActions := totalActions s;
     processedActions := processedActions s;
     remainingActions := remainingActions s; processedIds := processedIds s;
     sess_errors := sess_errors s; lastCheckpointTime := lastCheckpointTime s;
     batchSize := batchSize s |}.

Definition addError (error : string) (m : Manager) : Manager :=
  match currentSession m with
  | None => m
  | Some s =>
      saveSession (with_session m (Some (set_errors s (sess_errors s ++ [error]))))
  end.

(** [abortController.abort(reason)], when there is a controller. *)
Definition abort (m : Manager) : Manager :=
  match abortController m with
  | Some _ => with_controller m (Some true)
  | None => m
  end.

Definition pauseSession (now : Z) (m : Manager) : bool * Manager :=
  match currentSession m with
  | Some s =>
      if String.eqb (sess_state s) running then
        (true,
         abort (saveSession (with_session m
           (Some (set_state s paused (Some now) (resumeTime s))))))
      else (false, m)
  | None => (false, m)
  end.

Definition resumeSession (now : Z) (m : Manager) : bool * Manager :=
  match currentSession m with
  | Some s =>
      if String.eqb (sess_state s) paused then
        (true,
         saveSession (with_controller
           (with_session m (Some (set_state s running (pauseTime s) (Some now))))
           (Some false)))
      else (false, m)
  | None => (false, m)
  end.

(** [stopSession] up to the timer it arms; the timer's body is
    [clearSession]. *)
Definition stopSession (m : Manager) : bool * Manager :=
  match currentSession m with
  | Some s =>
      if String.eqb (sess_state s) idle then (false, m)
      else
        (true,
         abort (saveSession (with_session m
           (Some (set_state s stopping (pauseTime s) (resumeTime s))))))
  | None => (false, m)
  end.

Definition completeSession (m : Manager) : Manager :=
  match currentSession m with
  | None => m
  | Some _ => clearSession m
  end.

(** [getProgress].  The quotients and products are binary64 operations.
    A [batchSize] of zero makes JavaScript divide by zero (giving
    [Infinity] or [NaN]); the model is meant for the other sizes. *)
Definition getProgress (now : Z) (m : Manager) : option SyncProgress :=
  match currentSession m with
  | None => None
  | Some s =>
      let done := processedActions s in
      let all := totalActions s in
      let left := all - done in
      let percent :=
        if 0 <? all then
          Math_round
            (Binary64.times (Binary64.divide (asQ done) (asQ all)) 100%Q)
        else 0 in
      let currentTime :=
        match pauseTime s with
        | Some t => if t =? 0 then now else t
        | None => now
        end in
      let elapsed := currentTime - startTime s in
      let estimate :=
        if (0 <? done) && String.eqb (sess_state s) running then
          let timePerAction := Binary64.divide (asQ elapsed) (asQ done) in
          Some (Math_round (Binary64.times timePerAction (asQ left)))
        else None in
      let batches := Math_ceil (Binary64.divide (asQ all) (asQ (batchSize s))) in
      let batch := Math_ceil (Binary64.divide (asQ done) (asQ (batchSize s))) in
      Some {| processed := done;
              total := all;
              percentage := percent;
              remaining := left;
              currentBatch := Z.max 1 batch;
              totalBatches := Z.max 1 batches;
              progressState := sess_state s;
              elapsedTime := elapsed;
              estimatedTimeRemaining := estimate |}
  end.

(* ------------------------------------------------------------------ *)
(** ** src/chroma-runner.ts, executeSyncBatches *)

Record SyncResult := {
  success : bool;
  res_processed : Z;
  res_errors : list string;
  duration : Z
}.

(** How the call of the indexing script settles. *)
Inductive ScriptOutcome :=
| Resolved (result : SyncResult)
| Rejected (name message : string).

(** What may happen to the manager while the script call is pending. *)
Inductive Interruption :=
| PauseRequested
| StopRequested
| StopTimerFired.

(** One script call as the environment plays it: the interruptions that
    arrive while it is pending, the clock when it settles, its outcome. *)
Record Turn := {
  interruptions : list Interruption;
  settledAt : Z;
  outcome : ScriptOutcome
}.

Definition interrupt (now : Z) (m : Manager) (i : Interruption) : Manager :=
  match i with
  | PauseRequested => snd (pauseSession now m)
  | StopRequested => snd (stopSession m)
  | StopTimerFired => clearSession m
  end.

Definition isAborted (signal : option bool) : bool :=
  match signal with
  | Some aborted => aborted
  | None => false
  end.

(** The manager after the interruptions of a turn, and whether the signal
    taken before them is aborted by then. *)
Fixpoint interruptAll (now : Z) (events : list Interruption) (m : Manager)
    (aborted : bool) : Manager * bool :=
  match events with
  | [] => (m, aborted)
  | i :: later =>
      let m' := interrupt now m i in
      interruptAll now later m' (aborted || isAborted (abortController m'))
  end.

Definition isQuotaError (error : string) : bool :=
  String_includes "Quota exceeded" error || String_includes "quota limit" error.

(** The verdict after the loop.  The success rate is a quotient that is
    only compared with constants; it is taken in exact arithmetic. *)
Definition declareSuccess (totalProcessed : Z) (session : option SyncSession)
    (allErrors : list string) : bool :=
  let totalActions :=
    match session with
    | Some s => if totalActions s =? 0 then 1 else totalActions s
    | None => 1
    end in
  let successRate := (asQ totalProcessed / asQ totalActions)%Q in
  let hasOnlyQuotaErrors := forallb isQuotaError allErrors in
  Qle_bool (8 # 10) successRate
  || (hasOnlyQuotaErrors && negb (Qle_bool successRate 0)).

(** The [while (true)] loop.  [None]: the trace ends while a script call is
    still pending. *)
Fixpoint batchLoop (trace : list Turn) (m : Manager) (totalProcessed : Z)
    (allErrors : list string) : option (Z * list string * Manager) :=
  let '(actions, _) := getNextBatch m in
  if len actions =? 0 then Some (totalProcessed, allErrors, m)
  else
    let abortSignal := abortController m in
    if isAborted abortSignal then Some (totalProcessed, allErrors, m)
    else
      match trace with
      | [] => None
      | turn :: later =>
          let now := settledAt turn in
          let '(m1, aborted) :=
            interruptAll now (interruptions turn) m false in
          let signalAborted :=
            match abortSignal with Some _ => aborted | None => false end in
          match outcome turn with
          | Resolved batchResult =>
              let completed :=
                Array_slice0 (res_processed batchResult) actions in
              if success batchResult then
                batchLoop later (completeBatch now completed m1)
                  (totalProcessed + res_processed batchResult) allErrors
              else
                batchLoop later
                  (completeBatch now completed
                     (addError (Array_join ", " (res_errors batchResult)) m1))
                  (totalProcessed + res_processed batchResult)
                  (allErrors ++ res_errors batchResult)
          | Rejected name message =>
              if String.eqb name "AbortError" || signalAborted
              then Some (totalProcessed, allErrors, m1)
              else Some (totalProcessed, allErrors ++ [message],
                         addError message m1)
          end
      end.

Definition executeSyncBatches (trace : list Turn) (m : Manager)
  : option (SyncResult * Manager) :=
  match batchLoop trace m 0 [] with
  | Some (totalProcessed, allErrors, m') =>
      Some ({| success :=
                 declareSuccess totalProcessed (currentSession m') allErrors;
               res_processed := totalProcessed;
               res_errors := allErrors;
               duration := 0 |}, m')
  | None => None
  end.

(** Specification vocabulary for the delta engine. *)

(** The characters that [getDocumentId] writes as an underscore: the
    underscore itself and every character outside [a-zA-Z0-9_.-]. *)
Definition writtenAsUnderscore (c : ascii) : bool :=
  negb (isIdChar c) || Ascii.eqb c (ch 95).

(** The retry count a path has on record, [0] when it has none. *)
Definition priorRetries (state : FileState) (path : string) : Z :=
  match partialSync state with
  | Some ps => or_zero (retryCount ps !! path)
  | None => 0
  end.

Definition priorFailed (state : FileState) : list string :=
  match partialSync state with
  | Some ps => failedFiles ps
  | None => []
  end.

Definition occurrences (path : string) (paths : list string) : Z :=
  Z.of_nat (count_occ string_dec paths path).

(** The retry count of [path] is one that a call naming [paths] raises as
    a number: the path is no key of [Object.prototype], and the count
    stays within the integers that binary64 holds exactly. *)
Definition countable (state : FileState) (paths : list string) (path : string)
  : Prop :=
  inherited path = false /\
  - 2 ^ 53 <= priorRetries state path /\
  priorRetries state path + occurrences path paths <= 2 ^ 53.

Definition emptyState : FileState :=
  {| files := ∅; lastSync := 0; version := 1;
     partialSync := None; chromaState := None |}.

Definition msPerDay : Z := 24 * 60 * 60 * 1000.

Definition verifiedAt (t : Z) : FileState :=
  with_chromaState emptyState
    (Some {| lastVerification := t; verificationStatus := verified;
             inconsistencies := None |}).

(** Specification vocabulary and sample inputs for the sync session. *)

(** The least [k] with [a <= k * b], for [0 < b]. *)
Definition ceilDiv (a b : Z) : Z := (a + b - 1) / b.

(** The integer nearest to [a / b], halves upwards, for [0 < b]. *)
Definition nearest (a b : Z) : Z := (2 * a + b) / (2 * b).

(** What [Math.round] may return for a binary64 value computed for
    [a / b]: the integer nearest to [a / b], or, where [a / b] lies
    exactly halfway between two integers and the rounding errors decide,
    the lower of the two. *)
Definition roundedQuotient (a b r : Z) : Prop :=
  r = nearest a b \/ ((2 * a + b) mod (2 * b) = 0 /\ r = nearest a b - 1).

(** The clock [getProgress] reads: frozen at a non-zero pause stamp. *)
Definition progressClock (now : Z) (s : SyncSession) : Z :=
  match pauseTime s with
  | Some t => if t =? 0 then now else t
  | None => now
  end.

Definition freshSession (now : Z) (random : string)
    (actions : list DeltaAction) (size : Z) : SyncSession :=
  {| sess_id := generateSessionId now random;
     sess_state := running;
     startTime := now;
     pauseTime := None;
     resumeTime := None;
     totalActions := len actions;
     processedActions := 0;
     remainingActions := actions;
     processedIds := [];
     sess_errors := [];
     lastCheckpointTime := now;
     batchSize := size |}.

(** One of the fields that [isValidSession] checks is missing or of the
    wrong type, or the document is not an object at all. *)
Definition failsValidation (data : json) : Prop :=
  truthy data = false \/
  isString (member "id" data) = false \/
  isString (member "state" data) = false \/
  isNumber (member "startTime" data) = false \/
  isNumber (member "totalActions" data) = false \/
  isNumber (member "processedActions" data) = false \/
  isArray (member "remainingActions" data) = false \/
  isArray (member "errors" data) = false \/
  isNumber (member "lastCheckpointTime" data) = false \/
  isNumber (member "batchSize" data) = false.

(** The stored record cannot be used: unparseable text, a document that
    fails validation, or one whose [processedIds] cannot be iterated. *)
Definition unusable (file : FileContent) : Prop :=
  match file with
  | Unparseable _ => True
  | Document data =>
      failsValidation data \/ setElements (member "processedIds" data) = None
  end.

(** The actions of the repository's session tests. *)
Definition testAction (i : nat) : DeltaAction :=
  let path := ("test/file_" ++ pretty i ++ ".md")%string in
  {| act_action := Upsert;
     act_id := ("doc_" ++ pretty i)%string;
     act_path := Some path;
     act_text := Some ("Test content " ++ pretty i)%string;
     act_metadata := Some [("path", JStr path); ("size", JNum 100);
                           ("type", JStr "file"); ("extension", JStr "md")] |}.

Definition createTestActions (count : nat) : list DeltaAction :=
  testAction <$> seq 0 count.

(** [getNextBatch] followed by [completeBatch] of what it returned. *)
Definition processBatch (now : Z) (m : Manager) : Manager :=
  completeBatch now (fst (getNextBatch m)) m.

Definition startedManager (count : nat) (size : Z) : Manager :=
  match initializeSession 1000 "k3j2" (createTestActions count) size
          (newManager None) with
  | Some (_, m) => m
  | None => newManager None
  end.

(** A paused record as [saveSession] writes it, with [processedIds]
    removed by hand. *)
Definition recordWithoutProcessedIds : json :=
  JObj [("id", JStr "sync_1000_k3j2");
        ("state", JStr "paused");
        ("startTime", JNum 1000);
        ("pauseTime", JNum 1500);
        ("totalActions", JNum 3);
        ("processedActions", JNum 2);
        ("remainingActions", JArr [encodeAction (testAction 2)]);
        ("errors", JArr []);
        ("lastCheckpointTime", JNum 1400);
        ("batchSize", JNum 2)].

Definition scriptOk (n : Z) : ScriptOutcome :=
  Resolved {| success := true; res_processed := n; res_errors := [];
              duration := 0 |}.

Definition scriptFailed (n : Z) (errors : list string) : ScriptOutcome :=
  Resolved {| success := false; res_processed := n; res_errors := errors;
              duration := 0 |}.

Definition quietTurn (at_ : Z) (o : ScriptOutcome) : Turn :=
  {| interruptions := []; settledAt := at_; outcome := o |}.

(** Specification vocabulary for the runs of the batch loop. *)






(** What may happen to a session between two pauses. *)
Inductive Operation :=
| Resume (now : Z)
| CompleteBatch (now : Z)
| AddError (error : string).

Definition perform (m : Manager) (operation : Operation) : Manager :=
  match operation with
  | Resume now => snd (resumeSession now m)
  | CompleteBatch now => processBatch now m
  | AddError error => addError error m
  end.

Definition performAll (operations : list Operation) (m : Manager) : Manager :=
  foldl perform m operations.

(* ------------------------------------------------------------------ *)
(** ** src/delta.ts, areStatesEqual *)

(** [Object.keys(files).sort()]: the default sort compares code units. *)
Definition sortedKeys (m : gmap string FileMetadata) : list string :=
  merge_sort String.le (map_to_list m).*1.

(** The [for] loop of [areStatesEqual] over the two sorted arrays, which
    have the same length.  The last branch is not reached: the paths are
    keys of the two maps. *)
Fixpoint comparePaths (files1 files2 : gmap string FileMetadata)
    (paths1 paths2 : list string) : bool :=
  match paths1, paths2 with
  | p1 :: rest1, p2 :: rest2 =>
      if negb (String.eqb p1 p2) then false
      else
        match files1 !! p1, files2 !! p1 with
        | Some file1, Some file2 =>
            if negb (String.eqb (fm_hash file1) (fm_hash file2))
               || negb (fm_mtime file1 =? fm_mtime file2)
            then false
            else comparePaths files1 files2 rest1 rest2
        | _, _ => false
        end
  | _, _ => true
  end.

Definition areStatesEqual (state1 state2 : FileState) : bool :=
  let paths1 := sortedKeys (files state1) in
  let paths2 := sortedKeys (files state2) in
  if negb (len paths1 =? len paths2) then false
  else comparePaths (files state1) (files state2) paths1 paths2.

(** Specification vocabulary for the retry record. *)

(** The record is consistent: no path is listed twice, the paths with a
    retry count are the failed ones, and every count is at least 1. *)
Definition consistent (ps : PartialSync) : Prop :=
  NoDup (failedFiles ps) /\
  (forall p, p ∈ failedFiles ps <-> is_Some (retryCount ps !! p)) /\
  (forall p n, retryCount ps !! p = Some n -> 1 <= n).

(** [n] successive calls of [markFilesFailed], each naming [path] once. *)
Definition failTimes (n : nat) (now : Z) (state : FileState) (path : string)
  : FileState :=
  Nat.iter n (fun st => markFilesFailed now st [path]) state.

(** Two states agree on a path: both lack it, or both hold it with the
    same hash and modification time. *)
Definition sameFingerprint (state1 state2 : FileState) (path : string) : Prop :=
  match files state1 !! path, files state2 !! path with
  | Some file1, Some file2 =>
      fm_hash file1 = fm_hash file2 /\ fm_mtime file1 = fm_mtime file2
  | None, None => True
  | _, _ => False
  end.

(* ------------------------------------------------------------------ *)
(** ** src/sync-state.ts, state queries *)

(** [this.currentSession?.state === st] *)
Definition stateIs (m : Manager) (st : string) : bool :=
  match currentSession m with
  | Some s => String.eqb (sess_state s) st
  | None => false
  end.

Definition getCurrentSession (m : Manager) : option SyncSession :=
  currentSession m.

Definition isActive (m : Manager) : bool := stateIs m running || stateIs m paused.
Definition canPause (m : Manager) : bool := stateIs m running.
Definition canResume (m : Manager) : bool := stateIs m paused.
Definition canStop (m : Manager) : bool := stateIs m running || stateIs m paused.

(** Specification vocabulary for sessions. *)

(** No action is lost or counted twice. *)
Definition conserved (s : SyncSession) : Prop :=
  processedActions s + len (remainingActions s) = totalActions s.

(** The session that a restart resumes from the stored session [s]. *)
Definition resumedSession (s : SyncSession) (now size : Z) : SyncSession :=
  {| sess_id := sess_id s;
     sess_state := running;
     startTime := startTime s;
     pauseTime := pauseTime s;
     resumeTime := Some now;
     totalActions := totalActions s;
     processedActions := processedActions s;
     remainingActions := remainingActions s;
     processedIds := processedIds s;
     sess_errors := sess_errors s;
     lastCheckpointTime := lastCheckpointTime s;
     batchSize := size |}.

(** The file holds the live session, if there is one. *)
Definition persisted (m : Manager) : Prop :=
  match currentSession m with
  | Some s => sessionFile m = Some (Document (encodeSession s))
  | None => True
  end.

(** A running session started at 1000 with the given counts. *)
Definition sessionAt (done all : Z) : SyncSession :=
  {| sess_id := "sync_1000_k3j2";
     sess_state := running;
     startTime := 1000;
     pauseTime := None;
     resumeTime := None;
     totalActions := all;
     processedActions := done;
     remainingActions := [];
     processedIds := [];
     sess_errors := [];
     lastCheckpointTime := 1000;
     batchSize := 50 |}.

(** A session with one action of 200 left (the processed ids, which the
    progress report does not read, are left out). *)
Definition almostDone : SyncSession :=
  {| sess_id := "sync_1000_k3j2";
     sess_state := running;
     startTime := 1000;
     pauseTime := None;
     resumeTime := None;
     totalActions := 200;
     processedActions := 199;
     remainingActions := [testAction 199];
     processedIds := [];
     sess_errors := [];
     lastCheckpointTime := 1900;
     batchSize := 50 |}.

(* ------------------------------------------------------------------ *)
(** ** src/chroma-runner.ts, executeSync / resumeSync *)

(** [{ ...result, duration }] *)
Definition with_duration (result : SyncResult) (d : Z) : SyncResult :=
  {| success := success result; res_processed := res_processed result;
     res_errors := res_errors result; duration := d |}.

(** [executeSync].  [ensurePythonEnvironment] catches its own errors and
    [executeSyncBatches] those of the script; the progress callback is
    taken not to throw, so the [catch] branch is not entered.  [startedAt]
    and [finishedAt] are the readings of the clock that give the
    duration, [initializedAt] the one of [initializeSession]; [None] as
    for [initializeSession] and [batchLoop]. *)
Definition executeSync (startedAt initializedAt : Z) (random : string)
    (actions : list DeltaAction) (size : Z) (trace : list Turn)
    (finishedAt : Z) (m : Manager) : option (SyncResult * Manager) :=
  '(_, m1) ← initializeSession initializedAt random actions size m;
  '(result, m2) ← executeSyncBatches trace m1;
  let m3 := if success result then completeSession m2 else m2 in
  Some (with_duration result (finishedAt - startedAt), m3).

Definition pauseSync (now : Z) (m : Manager) : bool * Manager :=
  pauseSession now m.

Definition stopSync (m : Manager) : bool * Manager := stopSession m.

(** [resumeSync]; [resumedAt] is the clock read by [resumeSession]. *)
Definition resumeSync (resumedAt startedAt : Z) (trace : list Turn)
    (finishedAt : Z) (m : Manager) : option (SyncResult * Manager) :=
  let '(resumed, m1) := resumeSession resumedAt m in
  if negb resumed then
    Some ({| success := false; res_processed := 0;
             res_errors := ["No paused session to resume"%string];
             duration := 0 |}, m1)
  else
    '(result, m2) ← executeSyncBatches trace m1;
    let m3 := if success result then completeSession m2 else m2 in
    Some (with_duration result (finishedAt - startedAt), m3).

(** Specification vocabulary for runs. *)

(** A script that indexes every action it is sent: the turns it takes for
    [left] actions in batches of [size], none of them interrupted. *)
Fixpoint cooperative (fuel : nat) (now size left : Z) : list Turn :=
  match fuel with
  | O => []
  | S fuel' =>
      if left <=? 0 then []
      else quietTurn now (scriptOk (Z.min size left))
           :: cooperative fuel' now size (left - size)
  end.

(** The script makes no progress in this turn: it reports nothing
    processed, with or without errors, and nothing interrupts it. *)
Definition stalled (turn : Turn) : Prop :=
  interruptions turn = [] /\
  exists result, outcome turn = Resolved result /\ res_processed result = 0.

(** Further vocabulary for the chunker. *)

(** The tokens lie one after the other from [pos] on: each spans its own
    text, and the next one starts one character (the line break) after
    it. *)
Fixpoint tiled (pos : Z) (tokens : list TokenChunk) : Prop :=
  match tokens with
  | [] => True
  | token :: rest =>
      tok_start token = pos /\
      tok_end token = pos + strlen (tok_content token) /\
      tiled (tok_end token + 1) rest
  end.

(** The tokens cover a block of lines that starts at [pos]: joined they
    give back the lines, they are tiled from [pos], and the last one ends
    where the block ends. *)
Definition covers (tokens : list TokenChunk) (lines : list string) (pos : Z)
  : Prop :=
  tokens <> [] /\
  tokenContents tokens = Array_join newline lines /\
  tiled pos tokens /\
  lastTokenEnd tokens = pos + strlen (Array_join newline lines).

(** The number of [#] a breadcrumb entry starts with. *)
Definition headingLevel (entry : string) : nat :=
  fst (String_span isHash entry).

(** [s] ends with [suffix]. *)
Definition endsWith (s suffix : string) : Prop :=
  exists before, s = (before ++ suffix)%string.

(* ------------------------------------------------------------------ *)
(** ** [crypto.subtle.digest('SHA-256', bytes)], in hexadecimal *)

Module Sha256.

Definition rotr (n x : Z) : Z :=
  Z.land (Z.lor (Z.shiftr x n) (Z.shiftl x (32 - n))) Sha1.mask32.

Definition constants : list Z :=
  [
   1116352408; 1899447441; 3049323471; 3921009573; 961987163; 1508970993;
   2453635748; 2870763221; 3624381080; 310598401; 607225278; 1426881987;
   1925078388; 2162078206; 2614888103; 3248222580; 3835390401; 4022224774;
   264347078; 604807628; 770255983; 1249150122; 1555081692; 1996064986;
   2554220882; 2821834349; 2952996808; 3210313671; 3336571891; 3584528711;
   113926993; 338241895; 666307205; 773529912; 1294757372; 1396182291;
   1695183700; 1986661051; 2177026350; 2456956037; 2730485921; 2820302411;
   3259730800; 3345764771; 3516065817; 3600352804; 4094571909; 275423344;
   430227734; 506948616; 659060556; 883997877; 958139571; 1322822218;
   1537002063; 1747873779; 1955562222; 2024104815; 2227730452; 2361852424;
   2428436474; 2756734187; 3204031479; 3329325298
  ].

Definition initial : list Z :=
  [1779033703; 3144134277; 1013904242; 2773480762; 1359893119; 2600822924; 528734635; 1541459225].

Definition smallSigma0 (x : Z) : Z :=
  Z.lxor (rotr 7 x) (Z.lxor (rotr 18 x) (Z.shiftr x 3)).
Definition smallSigma1 (x : Z) : Z :=
  Z.lxor (rotr 17 x) (Z.lxor (rotr 19 x) (Z.shiftr x 10)).
Definition bigSigma0 (x : Z) : Z :=
  Z.lxor (rotr 2 x) (Z.lxor (rotr 13 x) (rotr 22 x)).
Definition bigSigma1 (x : Z) : Z :=
  Z.lxor (rotr 6 x) (Z.lxor (rotr 11 x) (rotr 25 x)).

(** The message schedule, most recent word first. *)
Fixpoint extend (n : nat) (w : list Z) : list Z :=
  match n with
  | O => w
  | S k =>
      let x :=
        Sha1.add32 (Sha1.add32 (smallSigma1 (nth 1 w 0)) (nth 6 w 0))
                   (Sha1.add32 (smallSigma0 (nth 14 w 0)) (nth 15 w 0)) in
      extend k (x :: w)
  end.

Definition schedule (block : list Z) : list Z :=
  List.rev (extend 48 (List.rev block)).

Definition state : Type := Z * Z * Z * Z * Z * Z * Z * Z.

Definition round (st : state) (kw : Z * Z) : state :=
  let '(a, b, c, d, e, f, g, h) := st in
  let '(k, w) := kw in
  let choose := Z.lxor (Z.land e f) (Z.land (Sha1.not32 e) g) in
  let majority := Z.lxor (Z.land a b) (Z.lxor (Z.land a c) (Z.land b c)) in
  let t1 :=
    Sha1.add32 (Sha1.add32 (Sha1.add32 (Sha1.add32 h (bigSigma1 e)) choose) k) w in
  let t2 := Sha1.add32 (bigSigma0 a) majority in
  (Sha1.add32 t1 t2, a, b, c, Sha1.add32 d t1, e, f, g).

Definition compress (hs : state) (block : list Z) : state :=
  let '(h0, h1, h2, h3, h4, h5, h6, h7) := hs in
  let '(a, b, c, d, e, f, g, h) :=
    foldl round hs (combine constants (schedule block)) in
  (Sha1.add32 h0 a, Sha1.add32 h1 b, Sha1.add32 h2 c, Sha1.add32 h3 d,
   Sha1.add32 h4 e, Sha1.add32 h5 f, Sha1.add32 h6 g, Sha1.add32 h7 h).

Fixpoint blocks (n : nat) (hs : state) (ws : list Z) : state :=
  match n with
  | O => hs
  | S k => blocks k (compress hs (firstn 16 ws)) (skipn 16 ws)
  end.

Definition start : state :=
  (nth 0 initial 0, nth 1 initial 0, nth 2 initial 0, nth 3 initial 0,
   nth 4 initial 0, nth 5 initial 0, nth 6 initial 0, nth 7 initial 0).

(** The digest of the UTF-8 bytes of [s], as [getFileHash] prints it. *)
Definition digest (s : string) : string :=
  let ws := Sha1.words (Sha1.pad (Sha1.utf8 s)) in
  let '(h0, h1, h2, h3, h4, h5, h6, h7) :=
    blocks (List.length ws / 16) start ws in
  Sha1.hexWord 8 h0 ++ Sha1.hexWord 8 h1 ++ Sha1.hexWord 8 h2
  ++ Sha1.hexWord 8 h3 ++ Sha1.hexWord 8 h4 ++ Sha1.hexWord 8 h5
  ++ Sha1.hexWord 8 h6 ++ Sha1.hexWord 8 h7.

End Sha256.

(* ------------------------------------------------------------------ *)
(** ** src/delta.ts, scanning the vault and planning *)

(** A file of the vault as the engine reads it: [stat.mtime], [stat.size],
    [extension], and what [vault.read] resolves with ([None] when it
    rejects).  The vault is the array [vault.getFiles()] returns and does
    not change while one plan is made. *)
Record TFile := {
  file_path : string;
  file_content : option string;
  file_mtime : Z;
  file_size : Z;
  file_extension : string
}.

Definition Vault := list TFile.

Record Stats := {
  added : Z;
  updated : Z;
  deleted : Z;
  unchanged : Z
}.

Record DeltaPlan := {
  plan_actions : list DeltaAction;
  plan_stats : Stats
}.

(** [vault.getAbstractFileByPath(path)]; [None] is [null]. *)
Definition getAbstractFileByPath (vault : Vault) (path : string) : option TFile :=
  List.find (fun file => String.eqb (file_path file) path) vault.

Definition getFileHash (file : TFile) : option string :=
  Sha256.digest <$> file_content file.

Definition getFileMetadata (file : TFile) : option FileMetadata :=
  hash ← getFileHash file;
  Some {| fm_path := file_path file; fm_hash := hash;
          fm_mtime := file_mtime file; fm_size := file_size file |}.

Definition upsertAction (path : string) (currentMeta : FileMetadata)
    (file : TFile) (content : string) : DeltaAction :=
  {| act_action := Upsert;
     act_id := getDocumentId path;
     act_path := Some path;
     act_text := Some content;
     act_metadata :=
       Some [("path", JStr path);
             ("mtime", JNum (fm_mtime currentMeta));
             ("size", JNum (fm_size currentMeta));
             ("type", JStr "file");
             ("extension", JStr (file_extension file))] |}.

Definition deleteAction (path : string) : DeltaAction :=
  {| act_action := Delete; act_id := getDocumentId path;
     act_path := None; act_text := None; act_metadata := None |}.

Definition noStats : Stats :=
  {| added := 0; updated := 0; deleted := 0; unchanged := 0 |}.

Section DeltaEngine.

(** [minimatch(path, pattern)] of the minimatch library, and the order in
    which [Object.entries] enumerates a record. *)
Variable minimatch : string -> string -> bool.
Variable Object_entries :
  gmap string FileMetadata -> list (string * FileMetadata).

Variable includeGlobs excludeGlobs : list string.

Definition shouldIncludeFile (path : string) : bool :=
  if existsb (minimatch path) excludeGlobs then false
  else existsb (minimatch path) includeGlobs.

(** [scanVault]: the own properties of the record it returns.  A file
    whose metadata cannot be read is skipped with a warning. *)
Definition scanVault (vault : Vault) : gmap string FileMetadata :=
  let includedFiles :=
    List.filter (fun file => shouldIncludeFile (file_path file)) vault in
  foldl (fun fileState file =>
           match getFileMetadata file with
           | Some metadata => Record_set fileState (file_path file) metadata
           | None => fileState
           end)
        ∅ includedFiles.

(** The prototype of the record [scanVault] returns, when the scan has
    replaced it: the metadata of the last file named [__proto__]. *)
Definition scanPrototype (vault : Vault) : option FileMetadata :=
  let includedFiles :=
    List.filter (fun file => shouldIncludeFile (file_path file)) vault in
  foldl (fun prototype file =>
           match getFileMetadata file with
           | Some metadata =>
               if String.eqb (file_path file) "__proto__" then Some metadata
               else prototype
           | None => prototype
           end)
        None includedFiles.

(** The first loop of [generateDeltaPlan]; [None] when a file to upsert is
    not found or cannot be read, which rejects the promise.  For a path
    that the previous record does not hold but [Object.prototype] does,
    [previousFiles[path]] is the inherited member, whose [hash] is
    [undefined]: the file counts as updated. *)
Fixpoint planUpserts (vault : Vault) (previousFiles : gmap string FileMetadata)
    (entries : list (string * FileMetadata))
    (actions : list DeltaAction) (stats : Stats)
  : option (list DeltaAction * Stats) :=
  match entries with
  | [] => Some (actions, stats)
  | (path, currentMeta) :: rest =>
      match previousFiles !! path with
      | None =>
          file ← getAbstractFileByPath vault path;
          content ← file_content file;
          planUpserts vault previousFiles rest
            (actions ++ [upsertAction path currentMeta file content])
            (if inherited path then
               {| added := added stats; updated := updated stats + 1;
                  deleted := deleted stats; unchanged := unchanged stats |}
             else
               {| added := added stats + 1; updated := updated stats;
                  deleted := deleted stats; unchanged := unchanged stats |})
      | Some previousMeta =>
          if negb (String.eqb (fm_hash currentMeta) (fm_hash previousMeta)) then
            file ← getAbstractFileByPath vault path;
            content ← file_content file;
            planUpserts vault previousFiles rest
              (actions ++ [upsertAction path currentMeta file content])
              {| added := added stats; updated := updated stats + 1;
                 deleted := deleted stats; unchanged := unchanged stats |}
          else
            planUpserts vault previousFiles rest actions
              {| added := added stats; updated := updated stats;
                 deleted := deleted stats; unchanged := unchanged stats + 1 |}
      end
  end.

(** The fields of a metadata object. *)
Definition metadataFields : list string :=
  ["path"; "hash"; "mtime"; "size"]%string.

(** Whether [metadata[key]] is truthy. *)
Definition hasTruthyField (metadata : FileMetadata) (key : string) : bool :=
  (String.eqb key "path" && negb (String.eqb (fm_path metadata) ""))
  || (String.eqb key "hash" && negb (String.eqb (fm_hash metadata) ""))
  || (String.eqb key "mtime" && negb (fm_mtime metadata =? 0))
  || (String.eqb key "size" && negb (fm_size metadata =? 0)).

(** Whether [currentFiles[path]] is truthy: the record has the path as an
    own property, or inherits a truthy value for it, from the metadata
    that replaced its prototype or from [Object.prototype]. *)
Definition tracked (currentFiles : gmap string FileMetadata)
    (prototype : option FileMetadata) (path : string) : bool :=
  match currentFiles !! path with
  | Some _ => true
  | None =>
      match prototype with
      | Some metadata => hasTruthyField metadata path || inherited path
      | None => inherited path
      end
  end.

(** The second loop. *)
Fixpoint planDeletes (currentFiles : gmap string FileMetadata)
    (prototype : option FileMetadata)
    (entries : list (string * FileMetadata))
    (actions : list DeltaAction) (stats : Stats) : list DeltaAction * Stats :=
  match entries with
  | [] => (actions, stats)
  | (path, _) :: rest =>
      if tracked currentFiles prototype path then
        planDeletes currentFiles prototype rest actions stats
      else
        planDeletes currentFiles prototype rest
          (actions ++ [deleteAction path])
          {| added := added stats; updated := updated stats;
             deleted := deleted stats + 1; unchanged := unchanged stats |}
  end.

(** [generateDeltaPlan].  The record of the previous state is read with
    the prototype [Object.prototype], which a state read from its JSON
    file has.  A state that [createCurrentState] made and that is still
    in memory has the prototype the scan gave its record: it differs when
    a file [__proto__] was scanned, and then only in reads of the names
    of [metadataFields]. *)
Definition generateDeltaPlan (vault : Vault) (previousState : option FileState)
  : option DeltaPlan :=
  let currentFiles := scanVault vault in
  let previousFiles :=
    match previousState with
    | Some state => files state
    | None => ∅
    end in
  '(actions, stats) ←
    planUpserts vault previousFiles (Object_entries currentFiles) [] noStats;
  let '(actions', stats') :=
    planDeletes currentFiles (scanPrototype vault)
      (Object_entries previousFiles) actions stats in
  Some {| plan_actions := actions'; plan_stats := stats' |}.

Definition createCurrentState (now : Z) (vault : Vault) : FileState :=
  {| files := scanVault vault; lastSync := now; version := 1;
     partialSync := None; chromaState := None |}.

End DeltaEngine.

(** Specification vocabulary and samples for the plan. *)

(** What a scanned path is to the previous record: new when the record has
    no property of that name, own or inherited; changed when the record
    holds it with another hash, or holds no such property of its own but
    inherits one (whose [hash] is [undefined]). *)
Definition isNew (previous : gmap string FileMetadata) (path : string) : bool :=
  match previous !! path with
  | Some _ => false
  | None => negb (inherited path)
  end.

Definition hasChanged (previous : gmap string FileMetadata) (path : string)
    (currentMeta : FileMetadata) : bool :=
  match previous !! path with
  | Some previousMeta =>
      negb (String.eqb (fm_hash currentMeta) (fm_hash previousMeta))
  | None => inherited path
  end.

(** The number of entries that satisfy [f]. *)
Definition countIf {A} (f : A -> bool) (l : list A) : Z := len (List.filter f l).

(** The vault of the repository's tests, and the answers of minimatch for
    its paths and the default patterns. *)
Definition note (path content : string) (mtime : Z) : TFile :=
  {| file_path := path; file_content := Some content; file_mtime := mtime;
     file_size := strlen content; file_extension := "md" |}.

Definition testVault : Vault :=
  [note "note1.md" "# Note 1" 1000; note "note2.md" "# Note 2" 2000;
   {| file_path := ".obsidian/workspace.json"; file_content := Some "{}";
      file_mtime := 3000; file_size := 2; file_extension := "json" |}].

Definition testMatch (path pattern : string) : bool :=
  bool_decide ((path, pattern) ∈
    [("note1.md", "**/*.md"); ("note2.md", "**/*.md");
     (".obsidian/workspace.json", "**/.obsidian/**")]%string).

(** A vault and a state with names that records inherit, and a matcher
    that lets every path in. *)
Definition anyMatch (path pattern : string) : bool := true.

Definition oddVault : Vault :=
  [note "constructor" "x" 1; note "__proto__" "y" 2; note "a.md" "z" 3].

Definition oddState : FileState :=
  {| files :=
       {[ "toString"%string :=
            {| fm_path := "toString"; fm_hash := "00"; fm_mtime := 1;
               fm_size := 1 |};
          "size"%string :=
            {| fm_path := "size"; fm_hash := "00"; fm_mtime := 1;
               fm_size := 1 |};
          "gone.md"%string :=
            {| fm_path := "gone.md"; fm_hash := "00"; fm_mtime := 1;
               fm_size := 1 |} ]};
     lastSync := 0; version := 1; partialSync := None; chromaState := None |}.

(* ================================================================== *)
(** * Part II.  Properties                                             *)
(* ================================================================== *)

(** ** Strings *)

Lemma String_map_length f s : String.length (String_map f s) = String.length s.
Proof. induction s as [|c r IH]; simpl; [reflexivity | now rewrite IH]. Qed.

Lemma String_map_id_on f p s :
  (forall c, p c = true -> f c = c) ->
  String_forallb p s = true -> String_map f s = s.
Proof.
  intros Hf. induction s as [|c r IH]; simpl; [reflexivity|].
  intros [Hc Hr]%andb_prop. rewrite (Hf c Hc), (IH Hr). reflexivity.
Qed.

Lemma isIdChar_not_separator c :
  isIdChar c = true -> replaceSeparator c = c.
Proof.
  unfold replaceSeparator. intros H.
  destruct ((charCode c =? 47)%N || (charCode c =? 92)%N)%bool eqn:E; [|reflexivity].
  exfalso. revert H E. unfold isIdChar, isAlpha, isDigit.
  generalize (charCode c). intros n H E.
  apply orb_prop in E. destruct E as [E|E]; apply N.eqb_eq in E; subst n;
    vm_compute in H; discriminate.
Qed.

Lemma isIdChar_kept c : isIdChar c = true -> replaceSpecial c = c.
Proof. unfold replaceSpecial. now intros ->. Qed.

Lemma getDocumentId_identifier path :
  String_forallb isIdChar path = true -> getDocumentId path = path.
Proof.
  intros H. unfold getDocumentId.
  rewrite (String_map_id_on replaceSeparator isIdChar path isIdChar_not_separator H).
  exact (String_map_id_on replaceSpecial isIdChar path isIdChar_kept H).
Qed.

Lemma replaceSpecial_replaceSeparator c :
  replaceSpecial (replaceSeparator c) = if isIdChar c then c else ch 95.
Proof.
  destruct (isIdChar c) eqn:Hc.
  - rewrite (isIdChar_not_separator c Hc). now apply isIdChar_kept.
  - unfold replaceSeparator.
    destruct ((charCode c =? 47)%N || (charCode c =? 92)%N)%bool; [reflexivity|].
    unfold replaceSpecial. now rewrite Hc.
Qed.

Lemma String_map_map f g s :
  String_map f (String_map g s) = String_map (fun c => f (g c)) s.
Proof. induction s as [|c r IH]; simpl; [reflexivity | now rewrite IH]. Qed.

Lemma String_map_ext f g s :
  (forall c, f c = g c) -> String_map f s = String_map g s.
Proof.
  intros H. induction s as [|c r IH]; simpl; [reflexivity | now rewrite H, IH].
Qed.

Lemma String_get_map f s i :
  String.get i (String_map f s) = f <$> String.get i s.
Proof.
  revert i. induction s as [|c r IH]; intros [|i]; simpl; try reflexivity.
  apply IH.
Qed.

(** Two strings are mapped to the same string exactly when they have the
    same length and their characters are mapped alike, place by place. *)
Lemma String_map_eq f s1 s2 :
  String_map f s1 = String_map f s2 <->
  String.length s1 = String.length s2 /\
  (forall i c1 c2, String.get i s1 = Some c1 -> String.get i s2 = Some c2 ->
                   f c1 = f c2).
Proof.
  revert s2. induction s1 as [|c r IH]; intros [|c' r']; simpl.
  - split; [|reflexivity]. intros _. split; [reflexivity|]. intros [|i]; discriminate.
  - split; [discriminate|]. intros [H _]. discriminate.
  - split; [discriminate|]. intros [H _]. discriminate.
  - split.
    + intros H. injection H as Hc Hr. apply IH in Hr as [Hlen Hr].
      split; [now rewrite Hlen|].
      intros [|i] c1 c2; simpl.
      * intros [= <-] [= <-]. exact Hc.
      * apply Hr.
    + intros [Hlen H]. f_equal.
      * apply (H 0%nat); reflexivity.
      * apply IH. split; [congruence|]. intros i. apply (H (S i)).
Qed.

Lemma writtenAsUnderscore_spec c1 c2 :
  (if isIdChar c1 then c1 else ch 95) = (if isIdChar c2 then c2 else ch 95) <->
  c1 = c2 \/ (writtenAsUnderscore c1 = true /\ writtenAsUnderscore c2 = true).
Proof.
  unfold writtenAsUnderscore.
  destruct (isIdChar c1) eqn:H1, (isIdChar c2) eqn:H2; cbn [negb orb].
  - split; [now left|]. intros [H|[Ha Hb]]; [exact H|].
    apply Ascii.eqb_eq in Ha, Hb. congruence.
  - split.
    + intros ->. right. split; [apply Ascii.eqb_refl | reflexivity].
    + intros [->|[Ha _]]; [congruence|]. now apply Ascii.eqb_eq in Ha.
  - split.
    + intros <-. right. split; [reflexivity | apply Ascii.eqb_refl].
    + intros [->|[_ Hb]]; [congruence|]. apply Ascii.eqb_eq in Hb. now rewrite Hb.
  - split; [|reflexivity]. intros _. now right.
Qed.

Lemma getDocumentId_characters path :
  getDocumentId path
  = String_map (fun c => if isIdChar c then c else ch 95) path.
Proof.
  unfold getDocumentId. rewrite String_map_map.
  apply String_map_ext, replaceSpecial_replaceSeparator.
Qed.

(** ** Document ids (src/delta.ts, getDocumentId) *)

(** C1, as stated, fails: a path separator and an underscore are sent to the
    same character, so two distinct vault paths share one document id. *)
Lemma getDocumentId_collision :
  "notes/a.md"%string <> "notes_a.md"%string /\
  getDocumentId "notes/a.md" = getDocumentId "notes_a.md".
Proof. split; [discriminate | reflexivity]. Qed.

(** C1, amended: the id is a function of the path alone and has the length
    of the path.  Place by place, a character of [a-zA-Z0-9_.-] is kept
    and every other character is replaced by an underscore.  So on paths
    written only with the characters [a-zA-Z0-9_.-] the id is the path
    itself and distinct such paths get distinct ids, while in general two
    paths share an id exactly when they have the same length and, at each
    place, either the same character or two characters that are both
    written as an underscore. *)
Theorem getDocumentId_stable_and_injective_on_identifiers (p1 p2 : string) :
  (p1 = p2 -> getDocumentId p1 = getDocumentId p2) /\
  String.length (getDocumentId p1) = String.length p1 /\
  (String_forallb isIdChar p1 = true ->
   String_forallb isIdChar p2 = true ->
   getDocumentId p1 = getDocumentId p2 -> p1 = p2) /\
  (forall i c,
     String.get i p1 = Some c ->
     String.get i (getDocumentId p1)
     = Some (if isIdChar c then c else ch 95)) /\
  (getDocumentId p1 = getDocumentId p2 <->
   String.length p1 = String.length p2 /\
   forall i c1 c2,
     String.get i p1 = Some c1 -> String.get i p2 = Some c2 ->
     c1 = c2 \/ (writtenAsUnderscore c1 = true /\ writtenAsUnderscore c2 = true)).
Proof.
  split; [intros ->; reflexivity|]. split; [|split; [|split]].
  - unfold getDocumentId. now rewrite !String_map_length.
  - intros H1 H2. rewrite (getDocumentId_identifier p1 H1).
    now rewrite (getDocumentId_identifier p2 H2).
  - intros i c H. now rewrite getDocumentId_characters, String_get_map, H.
  - rewrite !getDocumentId_characters, String_map_eq.
    split; intros [Hlen H]; (split; [exact Hlen|]); intros i c1 c2 H1 H2;
      apply writtenAsUnderscore_spec; now apply (H i).
Qed.

(** ** Retry bookkeeping (src/delta.ts, markFilesFailed / markFilesSucceeded) *)

Lemma or_zero_Some n : or_zero (Some n) = n.
Proof. simpl. destruct (Z.eqb_spec n 0); congruence. Qed.

Lemma Set_spread_from_elem seen xs x :
  x ∈ Set_spread_from seen xs <-> x ∈ xs /\ x ∉ seen.
Proof.
  revert seen. induction xs as [|y r IH]; intros seen; simpl.
  - set_solver.
  - case_bool_decide as Hy.
    + rewrite IH. set_solver.
    + rewrite elem_of_cons, IH. destruct (decide (x = y)); set_solver.
Qed.

Lemma Set_spread_from_NoDup seen xs : NoDup (Set_spread_from seen xs).
Proof.
  revert seen. induction xs as [|y r IH]; intros seen; simpl.
  - constructor.
  - case_bool_decide; [apply IH|].
    constructor; [|apply IH].
    rewrite Set_spread_from_elem. set_solver.
Qed.

Lemma Set_spread_elem xs x : x ∈ Set_spread xs <-> x ∈ xs.
Proof. unfold Set_spread. rewrite Set_spread_from_elem. set_solver. Qed.

(** The increment loop of [markFilesFailed], one path at a time. *)
Lemma retry_loop_lookup (paths : list string) (m : gmap string Z) (p : string) :
  foldl (fun (m : gmap string Z) file => <[file := or_zero (m !! file) + 1]> m)
        m paths !! p
  = if bool_decide (p ∈ paths)
    then Some (or_zero (m !! p) + occurrences p paths)
    else m !! p.
Proof.
  unfold occurrences.
  revert m. induction paths as [|x r IH]; intros m; cbn [foldl count_occ].
  - rewrite bool_decide_eq_false_2 by set_solver. reflexivity.
  - rewrite IH. destruct (string_dec x p) as [->|Hne].
    + rewrite (bool_decide_eq_true_2 (p ∈ p :: r)) by set_solver.
      rewrite lookup_insert_eq, or_zero_Some.
      case_bool_decide as Hin.
      * f_equal. lia.
      * assert (count_occ string_dec r p = 0%nat) as ->.
        { apply count_occ_not_In. now rewrite <- list_elem_of_In. }
        f_equal.
    + rewrite lookup_insert_ne by done.
      case_bool_decide as Hin.
      * rewrite bool_decide_eq_true_2 by set_solver. reflexivity.
      * rewrite bool_decide_eq_false_2 by set_solver. reflexivity.
Qed.

(** The deletion loop of [markFilesSucceeded]. *)
Lemma delete_loop_lookup (paths : list string) (m : gmap string Z) (p : string) :
  foldl (fun (m : gmap string Z) file => delete file m) m paths !! p
  = if bool_decide (p ∈ paths) then None else m !! p.
Proof.
  revert m. induction paths as [|x r IH]; intros m; cbn [foldl].
  - rewrite bool_decide_eq_false_2 by set_solver. reflexivity.
  - rewrite IH. destruct (decide (x = p)) as [->|Hne].
    + rewrite lookup_delete_eq.
      rewrite (bool_decide_eq_true_2 (p ∈ p :: r)) by set_solver.
      now case_bool_decide.
    + rewrite lookup_delete_ne by done.
      case_bool_decide as Hin.
      * rewrite bool_decide_eq_true_2 by set_solver. reflexivity.
      * rewrite bool_decide_eq_false_2 by set_solver. reflexivity.
Qed.

Lemma filter_not_included_elem (succeeded l : list string) (p : string) :
  p ∈ List.filter (fun file => negb (Array_includes succeeded file)) l
  <-> p ∈ l /\ p ∉ succeeded.
Proof.
  rewrite !list_elem_of_In, filter_In. unfold Array_includes.
  rewrite negb_true_iff, bool_decide_eq_false, list_elem_of_In. reflexivity.
Qed.

(** C2, as stated, fails: a path named twice in one call has its retry
    count raised by two in that call. *)
Lemma markFilesFailed_repeated_path :
  exists ps,
    partialSync (markFilesFailed 1000 emptyState ["a.md"; "a.md"]%string) = Some ps /\
    priorRetries emptyState "a.md" = 0 /\
    retryCount ps !! "a.md"%string = Some 2.
Proof. eexists. split; [reflexivity|]. split; reflexivity. Qed.

(** C2, amended: [markFilesFailed] unions the paths into [failedFiles]
    without duplicates, raises the retry count of each named path by the
    number of times the call names it (by exactly 1 when it is named once),
    provided the path is no key of [Object.prototype] and the count stays
    within the exactly representable integers, leaves the counts of the
    paths it does not name alone and stamps [lastFailure];
    [markFilesSucceeded] removes the named paths from [failedFiles] and
    from [retryCount], and leaves no [PartialSync] record at all once
    [failedFiles] is empty. *)
Theorem markFiles_bookkeeping (now : Z) (state : FileState) (paths : list string) :
  (exists ps',
     partialSync (markFilesFailed now state paths) = Some ps' /\
     NoDup (failedFiles ps') /\
     (forall p, p ∈ failedFiles ps' <-> p ∈ priorFailed state \/ p ∈ paths) /\
     (forall p, p ∈ paths -> countable state paths p ->
        retryCount ps' !! p = Some (priorRetries state p + occurrences p paths)) /\
     (forall p, p ∈ paths -> occurrences p paths = 1 ->
        countable state paths p ->
        retryCount ps' !! p = Some (priorRetries state p + 1)) /\
     (forall p, p ∉ paths ->
        retryCount ps' !! p = (partialSync state ≫= fun ps => retryCount ps !! p)) /\
     lastFailure ps' = now) /\
  match partialSync state, partialSync (markFilesSucceeded state paths) with
  | None, after => after = None
  | Some ps, None => forall p, p ∈ failedFiles ps -> p ∈ paths
  | Some ps, Some ps' =>
      failedFiles ps' <> [] /\
      (forall p, p ∈ failedFiles ps' <-> p ∈ failedFiles ps /\ p ∉ paths) /\
      (forall p, p ∈ paths -> retryCount ps' !! p = None) /\
      (forall p, p ∉ paths -> retryCount ps' !! p = retryCount ps !! p) /\
      lastFailure ps' = lastFailure ps
  end.
Proof.
  split.
  - eexists. split; [reflexivity|]. cbn [failedFiles retryCount lastFailure].
    assert (Hcount : forall p, p ∈ paths ->
      foldl (fun (m : gmap string Z) file => <[file := or_zero (m !! file) + 1]> m)
        (retryCount match partialSync state with
                    | Some ps => ps
                    | None => {| failedFiles := []; retryCount := ∅;
                                 lastFailure := now |}
                    end) paths !! p
      = Some (priorRetries state p + occurrences p paths)).
    { intros p Hp. rewrite retry_loop_lookup, bool_decide_eq_true_2 by done.
      unfold priorRetries. destruct (partialSync state); reflexivity. }
    split_and!.
    + apply Set_spread_from_NoDup.
    + intros p. rewrite Set_spread_elem, elem_of_app. unfold priorFailed.
      destruct (partialSync state); simpl; set_solver.
    + intros p Hp _. exact (Hcount p Hp).
    + intros p Hp Hone _. rewrite (Hcount p Hp), Hone. reflexivity.
    + intros p Hp. rewrite retry_loop_lookup, bool_decide_eq_false_2 by done.
      destruct (partialSync state); reflexivity.
    + reflexivity.
  - unfold markFilesSucceeded.
    destruct (partialSync state) as [ps|] eqn:Hps; [|now rewrite Hps].
    cbn [partialSync with_partialSync].
    destruct (List.filter _ (failedFiles ps)) as [|f rest] eqn:Hrem; simpl.
    + intros p Hp. destruct (decide (p ∈ paths)) as [|Hn]; [done|].
      assert (p ∈ @nil string) as Hnil; [|set_solver].
      rewrite <- Hrem. apply filter_not_included_elem. done.
    + split_and!.
      * discriminate.
      * intros p. rewrite <- Hrem. apply filter_not_included_elem.
      * intros p Hp.
        rewrite delete_loop_lookup, bool_decide_eq_true_2 by done. reflexivity.
      * intros p Hp.
        rewrite delete_loop_lookup, bool_decide_eq_false_2 by done. reflexivity.
      * reflexivity.
Qed.

(** The repository's test of repeated failures: two successive calls
    naming the same path take its count from 1 to 2. *)
Lemma markFilesFailed_twice :
  let once := markFilesFailed 1000 emptyState ["file1.md"] in
  let twice := markFilesFailed 2000 once ["file1.md"] in
  priorRetries once "file1.md" = 1 /\
  priorRetries twice "file1.md" = 2 /\
  priorFailed twice = ["file1.md"] /\
  partialSync (markFilesSucceeded twice ["file1.md"]) = None.
Proof. repeat split. Qed.

(** ** Verification freshness (src/delta.ts, needsVerification) *)

(** C7, as stated, fails: a verification that is exactly 24 hours old does
    not exceed the threshold, yet it is reported as needing verification. *)
Lemma needsVerification_at_exactly_24h :
  chromaState (verifiedAt 5000) <> None /\
  (5000 + msPerDay) - 5000 <= msPerDay /\
  needsVerification (5000 + msPerDay) (verifiedAt 5000) = true.
Proof. split; [discriminate|]. split; [reflexivity|]. reflexivity. Qed.

(** The repository's tests: verified 25 hours ago, and 1 hour ago. *)
Lemma needsVerification_tests :
  needsVerification (25 * 60 * 60 * 1000) (verifiedAt 0) = true /\
  needsVerification (1 * 60 * 60 * 1000) (verifiedAt 0) = false /\
  needsVerification 0 emptyState = true.
Proof. repeat split. Qed.

(** C7, amended: verification is needed exactly when there is no
    verification record or at least 24 hours have passed since
    [lastVerification]. *)
Theorem needsVerification_iff (now : Z) (state : FileState) :
  needsVerification now state = true <->
  match chromaState state with
  | None => True
  | Some cs => msPerDay <= now - lastVerification cs
  end.
Proof.
  unfold needsVerification, msPerDay, asQ.
  destruct (chromaState state) as [cs|]; [|tauto].
  rewrite Qle_bool_iff.
  set (d := now - lastVerification cs).
  change 24%Q with (inject_Z 24).
  split.
  - intros H.
    apply (Qmult_le_compat_r _ _ (inject_Z (1000 * 60 * 60))) in H; [|discriminate].
    rewrite Qmult_comm in H. unfold Qdiv in H.
    rewrite <- Qmult_assoc, (Qmult_comm (/ _)), Qmult_inv_r, Qmult_1_r in H
      by discriminate.
    rewrite <- inject_Z_mult, <- Zle_Qle in H. lia.
  - intros H. apply Qle_shift_div_l; [reflexivity|].
    rewrite <- inject_Z_mult, <- Zle_Qle. lia.
Qed.

(** ** Strings, continued *)

Lemma String_append_cons (x : ascii) (a b : string) :
  (String x a ++ b)%string = String x (a ++ b)%string.
Proof. reflexivity. Qed.

Lemma String_append_assoc (a b c : string) :
  ((a ++ b) ++ c = a ++ (b ++ c))%string.
Proof.
  induction a as [|x a IH]; [reflexivity|].
  now rewrite !String_append_cons, IH.
Qed.

Lemma String_prefix_append (a b : string) : String.prefix a (a ++ b) = true.
Proof.
  induction a as [|x a IH]; [now destruct b|].
  rewrite String_append_cons. simpl.
  destruct (ascii_dec x x); [exact IH | congruence].
Qed.

Lemma String_drop_length n s :
  String.length (String_drop n s) = (String.length s - n)%nat.
Proof.
  revert s. induction n as [|n IH]; intros s; simpl; [lia|].
  destruct s; simpl; [reflexivity | apply IH].
Qed.

Lemma String_take_drop n s : (String_take n s ++ String_drop n s)%string = s.
Proof.
  revert s. induction n as [|n IH]; intros s; [reflexivity|].
  destruct s; [reflexivity|].
  cbn [String_take String_drop]. now rewrite String_append_cons, IH.
Qed.

Lemma strlen_nonneg s : 0 <= strlen s.
Proof. unfold strlen. lia. Qed.

Lemma nonEmpty_strlen s : nonEmpty s = true <-> 0 < strlen s.
Proof. destruct s; unfold strlen; simpl; split; (discriminate || lia || auto). Qed.

(** [s.slice(-k)] for [0 < k <= s.length]: the last [k] characters. *)
Lemma String_slice_last k s :
  0 < k -> k <= strlen s ->
  strlen (String_slice (- k) s) = k /\
  exists front, s = (front ++ String_slice (- k) s)%string.
Proof.
  intros Hk Hle. unfold String_slice.
  destruct (Z.ltb_spec (- k) 0) as [_|]; [|lia].
  rewrite Z.max_l by lia. split.
  - unfold strlen in *. rewrite String_drop_length. lia.
  - eexists. symmetry. apply String_take_drop.
Qed.

(** ** Tokenizing (src/document-chunker.ts, tokenizeMarkdown) *)

Lemma skipn_taken_length (first line : string) (rest following : list string) :
  (List.length (skipn (List.length (first :: rest)) (line :: following))
   <= List.length following)%nat.
Proof. cbn [List.length skipn]. rewrite length_skipn. lia. Qed.

(** The loop of [tokenizeMarkdown] never runs out of fuel: any amount that
    covers the lines gives the same tokens. *)
Lemma tokenizeLines_fuel (fuel1 : nat) :
  forall fuel2 lines currentPos,
    (List.length lines <= fuel1)%nat ->
    (List.length lines <= fuel2)%nat ->
    tokenizeLines fuel1 lines currentPos = tokenizeLines fuel2 lines currentPos.
Proof.
  induction fuel1 as [|fuel1 IH]; intros fuel2 lines currentPos H1 H2.
  - destruct lines; [|cbn in H1; lia]. now destruct fuel2.
  - destruct lines as [|line following]; [now destruct fuel2|].
    destruct fuel2 as [|fuel2]; [cbn in H2; lia|].
    cbn [List.length] in H1, H2.
    cbn [tokenizeLines]. cbv zeta.
    pose proof (skipn_taken_length line line (codeBlockTail following) following).
    pose proof (skipn_taken_length line line (listItemTail following) following).
    pose proof (skipn_taken_length line line (paragraphTail following) following).
    unfold extractCodeBlock, extractListItem, extractParagraph.
    destruct (isFenceLine line); [f_equal; apply IH; lia|].
    destruct (isHeadingLine line); [f_equal; apply IH; lia|].
    destruct (isListLine line); [f_equal; apply IH; lia|].
    destruct (nonEmpty (trim line)); f_equal; apply IH; lia.
Qed.

Lemma tokenizeMarkdown_fuel (content : string) (fuel : nat) :
  (List.length (String_split LF content) <= fuel)%nat ->
  tokenizeMarkdown content = tokenizeLines fuel (String_split LF content) 0.
Proof. intros H. unfold tokenizeMarkdown. apply tokenizeLines_fuel; lia. Qed.

(** ** Chunk assembly (src/document-chunker.ts, processTokens) *)

Lemma finalizeChunk_Some doc buffer start pending :
  buffer <> [] -> exists c, finalizeChunk doc buffer start pending = Some c.
Proof. destruct buffer; [congruence|]. intros _. eexists. reflexivity. Qed.

Lemma finalizeChunk_fields doc buffer start pending c :
  finalizeChunk doc buffer start pending = Some c ->
  chunk_content c =
    ((if nonEmpty pending then pending ++ newline else "")
     ++ tokenContents buffer)%string /\
  chunk_id c
    = (doc_id doc ++ ":" ++ String_slice0 12 (hashContent (chunk_content c)))%string /\
  chunk_hash c = hashContent (chunk_content c) /\
  parentId c = doc_id doc /\
  overlapWithPrev (meta c) = (0 <? strlen pending) /\
  overlapWithNext (meta c) = true.
Proof.
  destruct buffer; [discriminate|]. intros [= <-]. cbn.
  repeat split; reflexivity.
Qed.

Lemma yield_finalizeChunk doc buffer start pending :
  buffer <> [] ->
  exists c, yield (finalizeChunk doc buffer start pending) = [c] /\
            finalizeChunk doc buffer start pending = Some c.
Proof.
  intros H. destruct (finalizeChunk_Some doc buffer start pending H) as [c Hc].
  exists c. now rewrite Hc.
Qed.

Lemma length_positive {A} (l : list A) :
  (0 <? Z.of_nat (List.length l)) = true <-> l <> [].
Proof. destruct l; simpl; split; (congruence || lia || auto). Qed.

Lemma snoc_nonempty {A} (l : list A) (x : A) : l ++ [x] <> [].
Proof. destruct l; discriminate. Qed.

(** Every run of the assembly loop yields a chain of flushes. *)
Lemma processLoop_chained options doc tokens :
  forall buffer bufferLen pending chunkStart,
    chained options doc pending
      (processLoop options doc tokens buffer bufferLen pending chunkStart).
Proof.
  induction tokens as [|token rest IH]; intros buffer bufferLen pending chunkStart.
  - cbn [processLoop].
    destruct (0 <? Z.of_nat (List.length buffer)) eqn:Hlen; [|constructor].
    apply length_positive in Hlen.
    destruct (yield_finalizeChunk doc buffer chunkStart pending Hlen)
      as (c & -> & Hc).
    econstructor; [exact Hlen | exact Hc | constructor].
  - cbn [processLoop].
    destruct ((maxLen options <? bufferLen + strlen (tok_content token))
              && (0 <? Z.of_nat (List.length buffer))) eqn:Hfull.
    + apply andb_prop in Hfull as [_ Hlen]. apply length_positive in Hlen.
      destruct (yield_finalizeChunk doc buffer chunkStart pending Hlen)
        as (c & -> & Hc).
      destruct (targetLen options <=? _); cbn [app];
        (econstructor; [exact Hlen | exact Hc |]).
      * destruct (yield_finalizeChunk doc
                    (nextBuffer (prepareOverlap options buffer) ++ [token])
                    (nextStart (prepareOverlap options buffer))
                    (overlapContent (prepareOverlap options buffer))
                    (snoc_nonempty _ _)) as (c2 & -> & Hc2).
        cbn [app]. econstructor; [apply snoc_nonempty | exact Hc2 | apply IH].
      * apply IH.
    + destruct (targetLen options <=? _); cbn [app].
      * destruct (yield_finalizeChunk doc (buffer ++ [token])
                    chunkStart pending (snoc_nonempty _ _)) as (c2 & -> & Hc2).
        cbn [app]. econstructor; [apply snoc_nonempty | exact Hc2 | apply IH].
      * apply IH.
Qed.

(** The first chunk is the flush of the tokens read so far. *)
Lemma processLoop_head options doc tokens :
  forall buffer bufferLen pending chunkStart c rest,
    processLoop options doc tokens buffer bufferLen pending chunkStart = c :: rest ->
    exists n,
      buffer ++ firstn n tokens <> [] /\
      finalizeChunk doc (buffer ++ firstn n tokens) chunkStart pending = Some c /\
      chained options doc
        (overlapContent (prepareOverlap options (buffer ++ firstn n tokens))) rest.
Proof.
  induction tokens as [|token more IH];
    intros buffer bufferLen pending chunkStart c rest.
  - cbn [processLoop].
    destruct (0 <? Z.of_nat (List.length buffer)) eqn:Hlen; [|discriminate].
    apply length_positive in Hlen.
    destruct (yield_finalizeChunk doc buffer chunkStart pending Hlen)
      as (c1 & -> & Hc). intros [= <- <-].
    exists 0%nat. cbn [firstn]. rewrite app_nil_r.
    split; [exact Hlen|]. split; [exact Hc | constructor].
  - cbn [processLoop].
    destruct ((maxLen options <? bufferLen + strlen (tok_content token))
              && (0 <? Z.of_nat (List.length buffer))) eqn:Hfull.
    + apply andb_prop in Hfull as [_ Hlen]. apply length_positive in Hlen.
      destruct (yield_finalizeChunk doc buffer chunkStart pending Hlen)
        as (c1 & -> & Hc).
      destruct (targetLen options <=? _); cbn [app]; intros [= <- <-];
        exists 0%nat; cbn [firstn]; rewrite app_nil_r;
        (split; [exact Hlen|]); (split; [exact Hc|]).
      * destruct (yield_finalizeChunk doc
                    (nextBuffer (prepareOverlap options buffer) ++ [token])
                    (nextStart (prepareOverlap options buffer))
                    (overlapContent (prepareOverlap options buffer))
                    (snoc_nonempty _ _)) as (c2 & -> & Hc2).
        cbn [app]. econstructor;
          [apply snoc_nonempty | exact Hc2 | apply processLoop_chained].
      * apply processLoop_chained.
    + destruct (targetLen options <=? _); cbn [app].
      * destruct (yield_finalizeChunk doc (buffer ++ [token])
                    chunkStart pending (snoc_nonempty _ _)) as (c2 & -> & Hc2).
        cbn [app]. intros [= <- <-].
        exists 1%nat. cbn [firstn].
        split; [apply snoc_nonempty|]. split; [exact Hc2|].
        apply processLoop_chained.
      * intros Hrun. destruct (IH _ _ _ _ _ _ Hrun) as (n & Hne & Hc & Hchain).
        exists (S n). cbn [firstn].
        replace (buffer ++ token :: firstn n more)
          with ((buffer ++ [token]) ++ firstn n more)
          by (now rewrite <- app_assoc).
        auto.
Qed.

Lemma chained_flushes options doc pending chunks :
  chained options doc pending chunks ->
  Forall (fun c => exists buffer start before,
            finalizeChunk doc buffer start before = Some c) chunks.
Proof.
  induction 1 as [|pending buffer start c rest Hne Hc _ IH]; constructor; eauto.
Qed.

Lemma assignOrder_inv index chunks c :
  c ∈ assignOrder index chunks ->
  exists c' i, c' ∈ chunks /\ c = with_order c' i.
Proof.
  revert index. induction chunks as [|x r IH]; intros index; cbn [assignOrder].
  - intros H. inversion H.
  - rewrite elem_of_cons. intros [->|H].
    + exists x, index. split; [left | reflexivity].
    + destruct (IH _ H) as (c' & i & Hin & ->).
      exists c', i. split; [now right | reflexivity].
Qed.

Lemma assignOrder_contents index chunks :
  List.map chunk_content (assignOrder index chunks)
  = List.map chunk_content chunks.
Proof.
  revert index. induction chunks as [|x r IH]; intros index; cbn; [reflexivity|].
  now rewrite IH.
Qed.

Lemma assignOrder_ids index chunks :
  List.map chunk_id (assignOrder index chunks) = List.map chunk_id chunks.
Proof.
  revert index. induction chunks as [|x r IH]; intros index; cbn; [reflexivity|].
  now rewrite IH.
Qed.

(** Every chunk of a document is either the single chunk of a short document
    or a flush of the assembly loop. *)
Lemma chunkDocument_flushes options doc c :
  maxLen options < strlen (doc_content doc) ->
  c ∈ chunkDocument options doc ->
  exists c' i buffer start before,
    c = with_order c' i /\
    finalizeChunk doc buffer start before = Some c'.
Proof.
  intros Hlong. unfold chunkDocument.
  destruct (Z.leb_spec (strlen (doc_content doc)) (maxLen options)); [lia|].
  intros (c' & i & Hin & ->)%assignOrder_inv.
  pose proof (chained_flushes _ _ _ _
    (processLoop_chained options doc (tokenizeDocument doc) [] 0 "" 0)) as Hall.
  rewrite Forall_forall in Hall.
  destruct (Hall c' Hin) as (buffer & start & before & Hc).
  eauto 10.
Qed.

(** ** C10: the terminal chunk keeps [overlapWithNext] *)

(** C10: every chunk of a document longer than [maxLen], the last one
    included, carries [overlapWithNext = true]. *)
Theorem chunkDocument_overlapWithNext (options : ChunkerOptions)
    (doc : SourceDocument) :
  maxLen options < strlen (doc_content doc) ->
  Forall (fun c => overlapWithNext (meta c) = true) (chunkDocument options doc).
Proof.
  intros Hlong. apply Forall_forall. intros c Hin.
  destruct (chunkDocument_flushes options doc c Hlong Hin)
    as (c' & i & buffer & start & before & -> & Hc).
  apply finalizeChunk_fields in Hc. cbn. tauto.
Qed.

Lemma chunkDocument_overlapWithNext_witness :
  maxLen testOptions < strlen longContent /\
  List.length (chunkDocument testOptions (document markdown longContent)) = 5%nat /\
  Forall (fun c => overlapWithNext (meta c) = true)
         (chunkDocument testOptions (document markdown longContent)).
Proof.
  split; [vm_compute; reflexivity|]. split; [vm_compute; reflexivity|].
  apply (chunkDocument_overlapWithNext testOptions (document markdown longContent)).
  vm_compute. reflexivity.
Defined.

(** ** C4: chunk ids *)

Lemma finalizeChunk_id_of_parent d1 d2 buffer start before :
  doc_id d1 = doc_id d2 ->
  List.map chunk_id (yield (finalizeChunk d1 buffer start before))
  = List.map chunk_id (yield (finalizeChunk d2 buffer start before)).
Proof. intros Hid. destruct buffer; cbn; [reflexivity | now rewrite Hid]. Qed.

(** The ids the loop produces depend on the document through its id only. *)
Lemma processLoop_ids options d1 d2 tokens :
  doc_id d1 = doc_id d2 ->
  forall buffer bufferLen pending chunkStart,
    List.map chunk_id
      (processLoop options d1 tokens buffer bufferLen pending chunkStart)
    = List.map chunk_id
        (processLoop options d2 tokens buffer bufferLen pending chunkStart).
Proof.
  intros Hid.
  induction tokens as [|token rest IH]; intros buffer bufferLen pending chunkStart;
    cbn [processLoop].
  - destruct (0 <? Z.of_nat (List.length buffer)); [|reflexivity].
    now apply finalizeChunk_id_of_parent.
  - destruct ((maxLen options <? bufferLen + strlen (tok_content token))
              && (0 <? Z.of_nat (List.length buffer)));
      destruct (targetLen options <=? _);
      rewrite ?map_app, ?IH, ?(finalizeChunk_id_of_parent d1 d2) by exact Hid;
      reflexivity.
Qed.

Lemma chunkDocument_id_formula options doc c :
  c ∈ chunkDocument options doc ->
  chunk_id c
  = (doc_id doc ++ ":" ++ String_slice0 12 (hashContent (chunk_content c)))%string.
Proof.
  destruct (Z.leb_spec (strlen (doc_content doc)) (maxLen options)) as [Hs|Hl].
  - unfold chunkDocument.
    destruct (Z.leb_spec (strlen (doc_content doc)) (maxLen options)); [|lia].
    intros ->%list_elem_of_singleton. reflexivity.
  - intros Hin.
    destruct (chunkDocument_flushes options doc c Hl Hin)
      as (c' & i & buffer & start & before & -> & Hc).
    apply finalizeChunk_fields in Hc. cbn. tauto.
Qed.

(** C4, as stated, fails: the ids also depend on the document's mime class,
    which selects the tokenizer.  The same parent id, content and
    configuration give different id sequences as markdown and as text. *)
Lemma chunkDocument_ids_depend_on_mime :
  doc_id (document markdown longContent) = doc_id (document text longContent) /\
  doc_content (document markdown longContent)
    = doc_content (document text longContent) /\
  List.map chunk_id (chunkDocument testOptions (document markdown longContent))
  <> List.map chunk_id (chunkDocument testOptions (document text longContent)).
Proof.
  split; [reflexivity|]. split; [reflexivity|].
  intros H. vm_compute in H. discriminate H.
Qed.

(** C4, amended: for a fixed configuration the sequence of chunk ids is
    determined by the parent id, the mime class and the content (the time
    stamp plays no part, and a second run gives the same ids in the same
    order); each id is the parent id followed by the first 12 hex digits of
    the SHA-1 of the chunk's content, so two chunks of one parent have
    different ids exactly when those 12 digits differ. *)
Theorem chunk_ids_determined_by_input (options : ChunkerOptions)
    (d1 d2 : SourceDocument) :
  doc_id d1 = doc_id d2 ->
  (doc_mime d1 = doc_mime d2 -> doc_content d1 = doc_content d2 ->
   List.map chunk_id (chunkDocument options d1)
   = List.map chunk_id (chunkDocument options d2)) /\
  (forall c1 c2,
     c1 ∈ chunkDocument options d1 -> c2 ∈ chunkDocument options d2 ->
     (chunk_id c1 = chunk_id c2 <->
      String_slice0 12 (hashContent (chunk_content c1))
      = String_slice0 12 (hashContent (chunk_content c2)))).
Proof.
  intros Hid. split.
  - intros Hmime Hcontent. unfold chunkDocument, processTokens, tokenizeDocument.
    rewrite Hmime, Hcontent.
    destruct (strlen (doc_content d2) <=? maxLen options).
    + cbn. now rewrite Hid, Hcontent.
    + rewrite !assignOrder_ids. now apply processLoop_ids.
  - intros c1 c2 H1 H2.
    rewrite (chunkDocument_id_formula options d1 c1 H1).
    rewrite (chunkDocument_id_formula options d2 c2 H2).
    rewrite Hid. split.
    + intros H. apply String.app_inj in H. now apply String.app_inj in H.
    + now intros ->.
Qed.

(** The two documents of the repository's id test: same parent, different
    content, different ids. *)
Lemma chunk_ids_determined_by_input_witness :
  (List.map chunk_id (chunkDocument testOptions (document markdown "Original content"))
   = ["test-doc:b9d5922c9591"]) /\
  (List.map chunk_id (chunkDocument testOptions (document markdown "Modified content"))
   = ["test-doc:0011aa2486f6"]) /\
  (forall c1 c2,
     c1 ∈ chunkDocument testOptions (document markdown "Original content") ->
     c2 ∈ chunkDocument testOptions (document markdown "Modified content") ->
     (chunk_id c1 = chunk_id c2 <->
      String_slice0 12 (hashContent (chunk_content c1))
      = String_slice0 12 (hashContent (chunk_content c2)))).
Proof.
  split; [vm_compute; reflexivity|]. split; [vm_compute; reflexivity|].
  exact (proj2 (chunk_ids_determined_by_input testOptions
                  (document markdown "Original content")
                  (document markdown "Modified content") eq_refl)).
Defined.

(** ** C8: overlap construction (prepareOverlap, findSentenceBoundary) *)

Lemma String_span_length p s :
  (fst (String_span p s) <= String.length s)%nat.
Proof.
  induction s as [|c r IH]; cbn; [lia|].
  destruct (p c); cbn; [|lia].
  destruct (String_span p r); cbn in *. lia.
Qed.

Lemma matchSentenceEnd_length s n :
  matchSentenceEnd s = Some n -> (n <= String.length s)%nat.
Proof.
  destruct s as [|c r]; cbn; [discriminate|].
  destruct (isSentenceTerminator c); [|discriminate].
  pose proof (String_span_length isWhiteSpace r) as Hspan.
  destruct (fst (String_span isWhiteSpace r)); [discriminate|].
  intros [= <-]. lia.
Qed.

Lemma matchSentenceEnd_boundary c r :
  (isSentenceTerminator c && beginsWithSpace r) = false ->
  matchSentenceEnd (String c r) = None.
Proof.
  cbn. destruct (isSentenceTerminator c); [|reflexivity]. cbn.
  destruct r as [|d r']; cbn; [reflexivity|].
  now intros ->.
Qed.

Lemma lastSentenceEnd_bound s :
  forall index skip lastMatch,
    (lastSentenceEnd s index skip lastMatch
     <= Nat.max lastMatch (index + String.length s))%nat.
Proof.
  induction s as [|c r IH]; intros index skip lastMatch; cbn [lastSentenceEnd].
  - lia.
  - destruct skip as [|k].
    + destruct (matchSentenceEnd (String c r)) as [n|] eqn:Hm.
      * apply matchSentenceEnd_length in Hm. cbn in Hm.
        etransitivity; [apply IH|]. cbn. lia.
      * etransitivity; [apply IH|]. cbn. lia.
    + etransitivity; [apply IH|]. cbn. lia.
Qed.

Lemma lastSentenceEnd_no_boundary s :
  hasSentenceBoundary s = false ->
  forall index lastMatch, lastSentenceEnd s index 0 lastMatch = lastMatch.
Proof.
  induction s as [|c r IH]; intros Hnone index lastMatch; [reflexivity|].
  cbn [hasSentenceBoundary] in Hnone. apply orb_false_elim in Hnone as [Hc Hr].
  cbn [lastSentenceEnd]. rewrite (matchSentenceEnd_boundary c r Hc).
  now apply IH.
Qed.

Lemma findSentenceBoundary_range content :
  0 < strlen content ->
  0 < findSentenceBoundary content <= strlen content.
Proof.
  intros Hpos. unfold findSentenceBoundary.
  pose proof (lastSentenceEnd_bound content 0 0 0) as Hb.
  destruct (Z.eqb_spec (Z.of_nat (lastSentenceEnd content 0 0 0)) 0); [lia|].
  unfold strlen in *. lia.
Qed.

Lemma findSentenceBoundary_no_boundary content :
  hasSentenceBoundary content = false ->
  findSentenceBoundary content = strlen content.
Proof.
  intros Hnone. unfold findSentenceBoundary.
  now rewrite (lastSentenceEnd_no_boundary content Hnone).
Qed.

Lemma totalLength_nonneg buffer : 0 <= totalLength buffer.
Proof.
  unfold totalLength. induction buffer as [|t r IH]; cbn [foldr]; [lia|].
  pose proof (strlen_nonneg (tok_content t)). lia.
Qed.

Lemma totalLength_snoc buffer t :
  totalLength (buffer ++ [t]) = totalLength buffer + strlen (tok_content t).
Proof.
  unfold totalLength.
  induction buffer as [|x r IH]; cbn [foldr app]; [lia | rewrite IH; lia].
Qed.

(** Tokens at the end of the buffer that fit the budget are taken whole. *)
Lemma overlapTokens_whole back :
  forall remaining earlier,
    totalLength back < remaining ->
    overlapTokens (List.rev back ++ earlier) remaining
    = overlapTokens earlier (remaining - totalLength back) ++ back.
Proof.
  induction back as [|t back IH] using rev_ind; intros remaining earlier Hfit.
  - change (totalLength []) with 0. rewrite Z.sub_0_r, app_nil_r. reflexivity.
  - rewrite totalLength_snoc in Hfit |- *.
    pose proof (totalLength_nonneg back).
    pose proof (strlen_nonneg (tok_content t)).
    rewrite rev_unit. cbn [app overlapTokens].
    destruct (Z.ltb_spec 0 remaining); [|lia].
    destruct (Z.leb_spec (strlen (tok_content t)) remaining); [|lia].
    rewrite IH by lia. rewrite <- app_assoc. do 2 f_equal. lia.
Qed.

(** C8, as stated, fails: the last 20 characters of the test paragraph hold
    no sentence boundary, yet they are carried into the overlap. *)
Lemma prepareOverlap_carries_suffix_without_boundary :
  overlap testOptions < strlen testParagraph /\
  hasSentenceBoundary (String_slice (- overlap testOptions) testParagraph) = false /\
  overlapContent (prepareOverlap testOptions [paragraphToken testParagraph])
  = "the second sentence.".
Proof. split; [reflexivity|]. split; reflexivity. Qed.

(** C8, amended: when a token that is neither a heading nor a code fence
    is longer than what is left of the overlap budget, a suffix of it is
    carried: not empty and no longer than the remaining budget; when the
    last budget-many characters of the token hold no sentence boundary, the
    carried text is exactly those characters. *)
Theorem prepareOverlap_partial_token (options : ChunkerOptions)
    (front back : list TokenChunk) (token : TokenChunk) :
  isAtomic (tok_type token) = false ->
  0 < overlap options - totalLength back ->
  overlap options - totalLength back < strlen (tok_content token) ->
  exists carried,
    nextBuffer (prepareOverlap options (front ++ token :: back))
    = with_content token carried :: back /\
    0 < strlen carried <= overlap options - totalLength back /\
    (exists dropped, tok_content token = (dropped ++ carried)%string) /\
    (hasSentenceBoundary
       (String_slice (- (overlap options - totalLength back)) (tok_content token))
     = false ->
     carried
     = String_slice (- (overlap options - totalLength back)) (tok_content token)).
Proof.
  intros Hatomic Hbudget Hlong.
  set (budget := overlap options - totalLength back) in *.
  set (partialContent := String_slice (- budget) (tok_content token)).
  destruct (String_slice_last budget (tok_content token)) as [Hplen _]; [lia..|].
  fold partialContent in Hplen.
  pose proof (findSentenceBoundary_range partialContent) as Hrange.
  exists (String_slice (- findSentenceBoundary partialContent) (tok_content token)).
  destruct (String_slice_last (findSentenceBoundary partialContent)
              (tok_content token)) as [Hclen Hsuffix]; [lia..|].
  split_and!.
  - unfold prepareOverlap.
    destruct (front ++ token :: back) eqn:Hbuf; [now destruct front|].
    rewrite <- Hbuf. cbn [nextBuffer].
    rewrite rev_app_distr. cbn [List.rev]. rewrite <- app_assoc. cbn [app].
    rewrite overlapTokens_whole by (pose proof (totalLength_nonneg back); lia).
    fold budget. cbn [overlapTokens].
    destruct (Z.ltb_spec 0 budget); [|lia].
    destruct (Z.leb_spec (strlen (tok_content token)) budget); [lia|].
    rewrite Hatomic. fold partialContent.
    destruct (Z.ltb_spec 0 (findSentenceBoundary partialContent)); [|lia].
    reflexivity.
  - lia.
  - lia.
  - exact Hsuffix.
  - intros Hnone. rewrite (findSentenceBoundary_no_boundary _ Hnone), Hplen.
    reflexivity.
Qed.

Lemma prepareOverlap_partial_token_witness :
  exists carried,
    nextBuffer (prepareOverlap testOptions [paragraphToken testParagraph])
    = [with_content (paragraphToken testParagraph) carried] /\
    0 < strlen carried <= 20 /\
    (exists dropped, testParagraph = (dropped ++ carried)%string) /\
    (hasSentenceBoundary (String_slice (- 20) testParagraph) = false ->
     carried = String_slice (- 20) testParagraph).
Proof.
  exact (prepareOverlap_partial_token testOptions [] []
           (paragraphToken testParagraph) eq_refl eq_refl eq_refl).
Defined.

(** ** At least two chunks *)

Lemma overlapTokens_nonempty reversed remaining :
  0 < remaining -> reversed <> [] -> overlapTokens reversed remaining <> [].
Proof.
  intros Hrem. destruct reversed as [|token earlier]; [congruence|]. intros _.
  cbn [overlapTokens].
  destruct (Z.ltb_spec 0 remaining); [|lia].
  destruct (Z.leb_spec (strlen (tok_content token)) remaining);
    [apply snoc_nonempty|].
  destruct (isAtomic (tok_type token)); [discriminate|].
  destruct (String_slice_last remaining (tok_content token)) as [Hlen _];
    [lia..|].
  pose proof (findSentenceBoundary_range
                (String_slice (- remaining) (tok_content token))) as Hrange.
  destruct (Z.ltb_spec 0 (findSentenceBoundary
                            (String_slice (- remaining) (tok_content token))));
    [discriminate | lia].
Qed.

Lemma prepareOverlap_nextBuffer_nonempty options buffer :
  0 < overlap options -> buffer <> [] ->
  nextBuffer (prepareOverlap options buffer) <> [].
Proof.
  intros Hov Hne. unfold prepareOverlap.
  destruct buffer as [|t r] eqn:Hb; [congruence|]. rewrite <- Hb.
  cbn [nextBuffer]. apply overlapTokens_nonempty; [exact Hov|].
  rewrite Hb. intros Hrev. apply (f_equal (@List.length _)) in Hrev.
  rewrite length_rev in Hrev. discriminate.
Qed.

(** A loop entered with tokens in its buffer yields a chunk. *)
Lemma processLoop_yields options doc tokens :
  forall buffer bufferLen pending chunkStart,
    buffer <> [] ->
    (1 <= List.length
            (processLoop options doc tokens buffer bufferLen pending chunkStart))%nat.
Proof.
  induction tokens as [|token rest IH];
    intros buffer bufferLen pending chunkStart Hne; cbn [processLoop].
  - rewrite (proj2 (length_positive buffer) Hne).
    destruct (yield_finalizeChunk doc buffer chunkStart pending Hne)
      as (c & -> & _). cbn. lia.
  - rewrite (proj2 (length_positive buffer) Hne), andb_true_r.
    destruct (maxLen options <? bufferLen + strlen (tok_content token)).
    + destruct (yield_finalizeChunk doc buffer chunkStart pending Hne)
        as (c & -> & _).
      destruct (targetLen options <=? _); cbn [app List.length]; lia.
    + destruct (targetLen options <=? _); cbn [app].
      * destruct (yield_finalizeChunk doc (buffer ++ [token]) chunkStart pending
                    (snoc_nonempty _ _)) as (c & -> & _).
        cbn [app List.length]. lia.
      * apply IH, snoc_nonempty.
Qed.

(** Once the text of the tokens reaches [targetLen], a flush happens inside
    the loop, and the overlap it leaves in the buffer is flushed later. *)
Lemma processLoop_two_chunks options doc tokens :
  0 < overlap options ->
  forall buffer bufferLen pending chunkStart,
    tokens <> [] ->
    targetLen options <= bufferLen + totalLength tokens ->
    (2 <= List.length
            (processLoop options doc tokens buffer bufferLen pending chunkStart))%nat.
Proof.
  intros Hov.
  induction tokens as [|token rest IH];
    intros buffer bufferLen pending chunkStart Hne Hsum; [congruence|].
  cbn [processLoop].
  change (totalLength (token :: rest))
    with (strlen (tok_content token) + totalLength rest) in Hsum.
  destruct ((maxLen options <? bufferLen + strlen (tok_content token))
            && (0 <? Z.of_nat (List.length buffer))) eqn:Hfull.
  - apply andb_prop in Hfull as [_ Hlen]. apply length_positive in Hlen.
    destruct (yield_finalizeChunk doc buffer chunkStart pending Hlen)
      as (c & -> & _).
    destruct (targetLen options <=? _); cbn [app List.length].
    + destruct (yield_finalizeChunk doc
                  (nextBuffer (prepareOverlap options buffer) ++ [token])
                  (nextStart (prepareOverlap options buffer))
                  (overlapContent (prepareOverlap options buffer))
                  (snoc_nonempty _ _)) as (c2 & -> & _).
      cbn [app List.length]. lia.
    + pose proof (processLoop_yields options doc rest
                    (nextBuffer (prepareOverlap options buffer) ++ [token])
                    (nextBufferLen (prepareOverlap options buffer)
                     + strlen (tok_content token))
                    (overlapContent (prepareOverlap options buffer))
                    (nextStart (prepareOverlap options buffer))
                    (snoc_nonempty _ _)).
      lia.
  - destruct (Z.leb_spec (targetLen options)
                (bufferLen + strlen (tok_content token))) as [Hreach|Hshort];
      cbn [app].
    + destruct (yield_finalizeChunk doc (buffer ++ [token]) chunkStart pending
                  (snoc_nonempty _ _)) as (c & -> & _).
      cbn [app List.length].
      pose proof (processLoop_yields options doc rest
                    (nextBuffer (prepareOverlap options (buffer ++ [token])))
                    (nextBufferLen (prepareOverlap options (buffer ++ [token])))
                    (overlapContent (prepareOverlap options (buffer ++ [token])))
                    (nextStart (prepareOverlap options (buffer ++ [token])))
                    (prepareOverlap_nextBuffer_nonempty options _ Hov
                       (snoc_nonempty _ _))).
      lia.
    + apply IH.
      * intros ->. change (totalLength []) with 0 in Hsum. lia.
      * lia.
Qed.

Lemma assignOrder_length index chunks :
  List.length (assignOrder index chunks) = List.length chunks.
Proof.
  revert index. induction chunks as [|c r IH]; intros index; cbn; [reflexivity|].
  now rewrite IH.
Qed.

(** ** C3: short documents, and documents just over the ceiling *)

(** C3, as stated, fails: this markdown document is one character over
    [maxLen], yet its tokens never add up to [targetLen] and it comes back
    as a single chunk. *)
Lemma chunkDocument_one_over_maxLen_single_chunk :
  strlen shortLines = maxLen DEFAULT_OPTIONS + 1 /\
  List.length (chunkDocument DEFAULT_OPTIONS (document markdown shortLines)) = 1%nat.
Proof. split; vm_compute; reflexivity. Qed.

(** C3, amended: a document of at most [maxLen] characters yields exactly
    one chunk, spanning the whole document, with both overlap flags false;
    a longer document yields the flushes of its token buffer: at least two
    when the overlap length is positive and the text of its tokens reaches
    a positive [targetLen], possibly a single one otherwise; and whenever
    it yields a second chunk, that chunk's content begins with the overlap
    text prepared from the tokens of the first. *)
Theorem chunkDocument_single_or_overlapping (options : ChunkerOptions)
    (doc : SourceDocument) :
  (strlen (doc_content doc) <= maxLen options ->
   exists c,
     chunkDocument options doc = [c] /\
     chunk_content c = doc_content doc /\
     chunk_start c = 0 /\
     chunk_end c = strlen (doc_content doc) /\
     overlapWithPrev (meta c) = false /\
     overlapWithNext (meta c) = false) /\
  (maxLen options < strlen (doc_content doc) ->
   forall c1 c2 rest,
     chunkDocument options doc = c1 :: c2 :: rest ->
     exists n,
       let buffer := firstn n (tokenizeDocument doc) in
       buffer <> [] /\
       chunk_content c1 = tokenContents buffer /\
       String.prefix (overlapContent (prepareOverlap options buffer))
                     (chunk_content c2) = true) /\
  (maxLen options < strlen (doc_content doc) ->
   0 < overlap options ->
   0 < targetLen options <= totalLength (tokenizeDocument doc) ->
   (2 <= List.length (chunkDocument options doc))%nat).
Proof.
  split; [|split].
  - intros Hshort. exists (createSingleChunk doc). unfold chunkDocument.
    destruct (Z.leb_spec (strlen (doc_content doc)) (maxLen options)); [|lia].
    repeat split; reflexivity.
  - intros Hlong c1 c2 rest. unfold chunkDocument, processTokens.
    destruct (Z.leb_spec (strlen (doc_content doc)) (maxLen options)); [lia|].
    destruct (processLoop options doc (tokenizeDocument doc) [] 0 "" 0)
      as [|d1 [|d2 more]] eqn:Hrun; cbn [assignOrder]; try discriminate.
    intros [= <- <- _].
    destruct (processLoop_head _ _ _ _ _ _ _ _ _ Hrun) as (n & Hne & Hc1 & Hchain).
    cbn [app] in Hne, Hc1, Hchain.
    exists n. cbn zeta. split; [exact Hne|].
    apply finalizeChunk_fields in Hc1 as (Hcontent & _).
    inversion Hchain as [|? buffer2 start2 ? ? Hne2 Hc2 _]; subst.
    apply finalizeChunk_fields in Hc2 as (Hcontent2 & _).
    cbn [with_order chunk_content]. split; [exact Hcontent|].
    rewrite Hcontent2.
    destruct (nonEmpty (overlapContent _)) eqn:Hov.
    + rewrite String_append_assoc. apply String_prefix_append.
    + destruct (overlapContent _); [|discriminate].
      now destruct (("" ++ tokenContents buffer2)%string).
  - intros Hlong Hov [Htarget Hsum]. unfold chunkDocument, processTokens.
    destruct (Z.leb_spec (strlen (doc_content doc)) (maxLen options)); [lia|].
    rewrite assignOrder_length. apply processLoop_two_chunks; [exact Hov| |lia].
    intros Hnone. rewrite Hnone in Hsum. change (totalLength []) with 0 in Hsum.
    lia.
Qed.

(** The theorem at work on the long document of the repository's tests. *)
Lemma chunkDocument_single_or_overlapping_witness :
  (2 <= List.length (chunkDocument testOptions (document markdown longContent)))%nat /\
  exists c1 c2 rest,
    chunkDocument testOptions (document markdown longContent) = c1 :: c2 :: rest /\
    exists n,
      let buffer := firstn n (tokenizeDocument (document markdown longContent)) in
      buffer <> [] /\
      chunk_content c1 = tokenContents buffer /\
      String.prefix (overlapContent (prepareOverlap testOptions buffer))
                    (chunk_content c2) = true.
Proof.
  destruct (chunkDocument_single_or_overlapping testOptions
              (document markdown longContent)) as (_ & Hsecond & Htwo).
  split.
  - apply Htwo; [vm_compute; reflexivity | reflexivity |].
    split; [reflexivity | vm_compute; discriminate].
  - destruct (chunkDocument testOptions (document markdown longContent))
      as [|c1 [|c2 rest]] eqn:Hrun; [vm_compute in Hrun; discriminate ..|].
    exists c1, c2, rest. split; [reflexivity|].
    apply (Hsecond ltac:(vm_compute; reflexivity) c1 c2 rest eq_refl).
Defined.

(** ** Binary64 rounding

    What the progress report needs of binary64 arithmetic: rounding is
    monotone, keeps the integers up to [2^53], and errs by at most one part
    in [2^53] on a normal number. *)

(** On the samples, dividing and multiplying as [Binary64] does gives the
    numbers that the Standard Library's specification of IEEE 754 gives. *)
Lemma round_agrees_with_SpecFloat :
  forallb (fun '(a, b, c) =>
             Qeq_bool (Binary64.times (Binary64.divide (asQ a) (asQ b)) (asQ c))
                      (referenceScaled a b c))
          binary64Samples = true.
Proof. vm_compute. reflexivity. Qed.

Section Binary64Facts.
Import Binary64.

Lemma pow2_pos e : (0 < pow2 e)%Q.
Proof.
  unfold pow2. destruct (0 <=? e) eqn:He.
  - apply Z.leb_le in He. change 0%Q with (inject_Z 0). rewrite <- Zlt_Qlt.
    now apply Z.pow_pos_nonneg.
  - reflexivity.
Qed.

Lemma pow2_shift e k : 0 <= k -> (pow2 (e + k) == pow2 e * inject_Z (2 ^ k))%Q.
Proof.
  intros Hk. unfold pow2.
  assert (0 < 2 ^ k) as Hpk by now apply Z.pow_pos_nonneg.
  destruct (0 <=? e) eqn:He; destruct (0 <=? e + k) eqn:Hek;
    try apply Z.leb_le in He; try apply Z.leb_le in Hek;
    try apply Z.leb_gt in He; try apply Z.leb_gt in Hek; try lia.
  - rewrite Z.pow_add_r by lia. rewrite inject_Z_mult. reflexivity.
  - assert (0 < 2 ^ (- e)) by (apply Z.pow_pos_nonneg; lia).
    unfold Qeq, Qmult, inject_Z. cbn [Qnum Qden].
    rewrite Pos.mul_1_r, Z2Pos.id by lia.
    replace (2 ^ k) with (2 ^ (e + k) * 2 ^ (- e)); [lia|].
    rewrite <- Z.pow_add_r by lia. f_equal. lia.
  - assert (0 < 2 ^ (- e)) by (apply Z.pow_pos_nonneg; lia).
    assert (0 < 2 ^ (- (e + k))) by (apply Z.pow_pos_nonneg; lia).
    unfold Qeq, Qmult, inject_Z. cbn [Qnum Qden].
    rewrite Pos.mul_1_r, !Z2Pos.id by lia.
    replace (2 ^ (- e)) with (2 ^ k * 2 ^ (- (e + k))); [lia|].
    rewrite <- Z.pow_add_r by lia. f_equal. lia.
Qed.

Lemma pow2_le e1 e2 : e1 <= e2 -> (pow2 e1 <= pow2 e2)%Q.
Proof.
  intros H. replace e2 with (e1 + (e2 - e1)) by lia.
  rewrite pow2_shift by lia.
  assert (1 <= inject_Z (2 ^ (e2 - e1)))%Q.
  { change 1%Q with (inject_Z 1). rewrite <- Zle_Qle.
    assert (0 < 2 ^ (e2 - e1)) by (apply Z.pow_pos_nonneg; lia). lia. }
  pose proof (pow2_pos e1). nra.
Qed.

Lemma pow2_nonneg e : 0 <= e -> pow2 e = inject_Z (2 ^ e).
Proof. intros H. unfold pow2. apply Z.leb_le in H. now rewrite H. Qed.

Lemma nearestEven_close q :
  (inject_Z (nearestEven q) - q <= 1 # 2)%Q /\ (q - inject_Z (nearestEven q) <= 1 # 2)%Q.
Proof.
  unfold nearestEven. pose proof (Qfloor_le q) as Hlo. pose proof (Qlt_floor q) as Hhi.
  rewrite inject_Z_plus in Hhi. change (inject_Z 1) with 1%Q in Hhi.
  destruct (Qcompare_spec (q - inject_Z (Qfloor q)) (1 # 2)) as [H|H|H];
    [destruct (Z.even (Qfloor q))|..];
    rewrite ?inject_Z_plus; change (inject_Z 1) with 1%Q; split; lra.
Qed.

Lemma nearestEven_Z n : nearestEven (inject_Z n) = n.
Proof.
  unfold nearestEven. rewrite Qfloor_Z.
  destruct (Qcompare_spec (inject_Z n - inject_Z n) (1 # 2)) as [H|H|H];
    try reflexivity; exfalso; lra.
Qed.

Lemma nearestEven_mono q1 q2 : (q1 <= q2)%Q -> nearestEven q1 <= nearestEven q2.
Proof.
  intros Hle. pose proof (Qfloor_resp_le _ _ Hle) as Hf.
  unfold nearestEven.
  pose proof (Qfloor_le q1) as Hlo1. pose proof (Qlt_floor q1) as Hhi1.
  pose proof (Qfloor_le q2) as Hlo2. pose proof (Qlt_floor q2) as Hhi2.
  destruct (Z.eq_dec (Qfloor q1) (Qfloor q2)) as [Heq|Hne].
  - rewrite <- Heq in *.
    destruct (Qcompare_spec (q1 - inject_Z (Qfloor q1)) (1 # 2)) as [H1|H1|H1];
      destruct (Qcompare_spec (q2 - inject_Z (Qfloor q1)) (1 # 2)) as [H2|H2|H2];
      try destruct (Z.even (Qfloor q1)); try lia; exfalso; lra.
  - assert (Qfloor q1 + 1 <= Qfloor q2) by lia.
    destruct (Qcompare_spec (q1 - inject_Z (Qfloor q1)) (1 # 2)) as [H1|H1|H1];
      destruct (Qcompare_spec (q2 - inject_Z (Qfloor q2)) (1 # 2)) as [H2|H2|H2];
      try destruct (Z.even (Qfloor q1)); try destruct (Z.even (Qfloor q2)); lia.
Qed.

Lemma nearestEven_comp q1 q2 : (q1 == q2)%Q -> nearestEven q1 = nearestEven q2.
Proof.
  intros H. apply Z.le_antisymm; apply nearestEven_mono; rewrite H; apply Qle_refl.
Qed.

Lemma ilog2_upper x : (0 <= x)%Q -> (x < pow2 (ilog2 x + 1))%Q.
Proof.
  intros Hx. unfold ilog2.
  set (n := Qfloor (x * pow2 1100)).
  assert (0 <= n) as Hn.
  { unfold n. rewrite <- (Qfloor_Z 0). apply Qfloor_resp_le.
    pose proof (pow2_pos 1100). change (inject_Z 0) with 0%Q. nra. }
  assert (n + 1 <= 2 ^ (Z.log2 n + 1)) as Hlog.
  { destruct (Z.eq_dec n 0) as [->|Hne]; [vm_compute; discriminate|].
    pose proof (Z.log2_spec n). unfold Z.succ in *. lia. }
  pose proof (Qlt_floor (x * pow2 1100)) as Hhi. fold n in Hhi.
  pose proof (Z.log2_nonneg n) as HL.
  assert (pow2 (Z.log2 n - 1100 + 1 + 1100) == pow2 (Z.log2 n - 1100 + 1) * pow2 1100)%Q as Hs.
  { rewrite (pow2_nonneg 1100) by lia. apply pow2_shift. lia. }
  replace (Z.log2 n - 1100 + 1 + 1100) with (Z.log2 n + 1) in Hs by lia.
  rewrite pow2_nonneg in Hs by lia.
  rewrite Zle_Qle in Hlog.
  pose proof (pow2_pos 1100) as HS.
  set (scale := pow2 1100) in *. set (P := pow2 (Z.log2 n - 1100 + 1)) in *.
  set (I := inject_Z (2 ^ (Z.log2 n + 1))) in *.
  set (J := inject_Z (n + 1)) in *.
  nra.
Qed.

Lemma ilog2_lower x : - 1100 < ilog2 x -> (pow2 (ilog2 x) <= x)%Q.
Proof.
  unfold ilog2. set (n := Qfloor (x * pow2 1100)). intros Hx.
  assert (0 < n) as Hn.
  { destruct (Z.log2_null n) as [_ Hnull]. pose proof (Z.log2_nonneg n).
    destruct (Z_lt_le_dec 1 n); [lia|]. specialize (Hnull ltac:(lia)). lia. }
  pose proof (Z.log2_spec n Hn) as [Hlog _].
  pose proof (Qfloor_le (x * pow2 1100)) as Hlo. fold n in Hlo.
  pose proof (Z.log2_nonneg n) as HL.
  assert (pow2 (Z.log2 n - 1100 + 1100) == pow2 (Z.log2 n - 1100) * pow2 1100)%Q as Hs.
  { rewrite (pow2_nonneg 1100) by lia. apply pow2_shift. lia. }
  replace (Z.log2 n - 1100 + 1100) with (Z.log2 n) in Hs by lia.
  rewrite pow2_nonneg in Hs by lia.
  rewrite Zle_Qle in Hlog.
  pose proof (pow2_pos 1100) as HS.
  set (scale := pow2 1100) in *. set (P := pow2 (Z.log2 n - 1100)) in *.
  set (I := inject_Z (2 ^ (Z.log2 n))) in *.
  set (J := inject_Z n) in *.
  nra.
Qed.

Lemma ilog2_mono x y : (0 <= x)%Q -> (x <= y)%Q -> ilog2 x <= ilog2 y.
Proof.
  intros Hx Hle. unfold ilog2.
  assert (Qfloor (x * pow2 1100) <= Qfloor (y * pow2 1100)) as Hf.
  { apply Qfloor_resp_le. pose proof (pow2_pos 1100).
    set (scale := pow2 1100) in *. nra. }
  pose proof (Z.log2_le_mono _ _ Hf). lia.
Qed.

Lemma exponent_mono x y : (0 <= x)%Q -> (x <= y)%Q -> exponent x <= exponent y.
Proof. intros Hx Hle. unfold exponent. pose proof (ilog2_mono x y Hx Hle). lia. Qed.

Lemma ilog2_normal x : (pow2 (- 1022) <= x)%Q -> - 1022 <= ilog2 x.
Proof.
  intros Hx. destruct (Z_lt_le_dec (ilog2 x) (- 1022)) as [Hlt|]; [|assumption].
  pose proof (pow2_pos (- 1022)).
  pose proof (ilog2_upper x ltac:(lra)) as Hup.
  pose proof (pow2_le (ilog2 x + 1) (- 1022) ltac:(lia)). lra.
Qed.

(** The scaled significand [x / 2^e]: below [2^53], and at least [2^52] for
    a normal number. *)
Lemma significand_scaled x : (x / pow2 (exponent x) * pow2 (exponent x) == x)%Q.
Proof. pose proof (pow2_pos (exponent x)). field. lra. Qed.

Lemma significand_upper x :
  (0 <= x)%Q -> (x / pow2 (exponent x) <= inject_Z (2 ^ 53))%Q.
Proof.
  intros Hx. pose proof (significand_scaled x) as Hq.
  pose proof (ilog2_upper x Hx) as Hup.
  pose proof (pow2_le (ilog2 x + 1) (exponent x + 53) ltac:(unfold exponent; lia)) as Hle.
  rewrite (pow2_shift (exponent x) 53) in Hle by lia.
  pose proof (pow2_pos (exponent x)) as HP.
  set (q := (x / pow2 (exponent x))%Q) in *. set (P := pow2 (exponent x)) in *.
  set (I := inject_Z (2 ^ 53)) in *. set (U := pow2 (ilog2 x + 1)) in *.
  nra.
Qed.

Lemma significand_lower x :
  - 1022 <= ilog2 x -> (inject_Z (2 ^ 52) <= x / pow2 (exponent x))%Q.
Proof.
  intros He. pose proof (significand_scaled x) as Hq.
  assert (exponent x = ilog2 x - 52) as Hex by (unfold exponent in *; lia).
  pose proof (ilog2_lower x ltac:(lia)) as Hlo.
  replace (ilog2 x) with (exponent x + 52) in Hlo by lia.
  rewrite pow2_shift in Hlo by lia.
  pose proof (pow2_pos (exponent x)) as HP.
  set (q := (x / pow2 (exponent x))%Q) in *. set (P := pow2 (exponent x)) in *.
  set (I := inject_Z (2 ^ 52)) in *.
  nra.
Qed.

Lemma roundPositive_nonneg x : (0 <= x)%Q -> (0 <= roundPositive x)%Q.
Proof.
  intros Hx. unfold roundPositive.
  pose proof (pow2_pos (exponent x)) as HP.
  assert (0 <= nearestEven (x / pow2 (exponent x))) as Hn.
  { rewrite <- (nearestEven_Z 0). apply nearestEven_mono.
    pose proof (significand_scaled x) as Hq.
    change (inject_Z 0) with 0%Q.
    set (q := (x / pow2 (exponent x))%Q) in *. set (P := pow2 (exponent x)) in *.
    nra. }
  rewrite Zle_Qle in Hn. change (inject_Z 0) with 0%Q in Hn.
  set (P := pow2 (exponent x)) in *. nra.
Qed.

Lemma roundPositive_mono x y :
  (0 <= x)%Q -> (x <= y)%Q -> (roundPositive x <= roundPositive y)%Q.
Proof.
  intros Hx Hle. pose proof (exponent_mono x y Hx Hle) as He.
  unfold roundPositive.
  destruct (Z.eq_dec (exponent x) (exponent y)) as [Heq|Hne].
  - rewrite Heq.
    assert (nearestEven (x / pow2 (exponent y)) <= nearestEven (y / pow2 (exponent y))) as Hn.
    { apply nearestEven_mono. pose proof (pow2_pos (exponent y)) as HP.
      apply Qmult_le_compat_r; [assumption|].
      apply Qlt_le_weak, Qinv_lt_0_compat, HP. }
    rewrite Zle_Qle in Hn. pose proof (pow2_pos (exponent y)) as HP.
    set (P := pow2 (exponent y)) in *. nra.
  - assert (nearestEven (x / pow2 (exponent x)) <= 2 ^ 53) as Hn1.
    { rewrite <- (nearestEven_Z (2 ^ 53)). apply nearestEven_mono.
      now apply significand_upper. }
    assert (2 ^ 52 <= nearestEven (y / pow2 (exponent y))) as Hn2.
    { rewrite <- (nearestEven_Z (2 ^ 52)). apply nearestEven_mono.
      apply significand_lower. unfold exponent in *. lia. }
    rewrite Zle_Qle in Hn1, Hn2.
    pose proof (pow2_le (exponent x + 1) (exponent y) ltac:(lia)) as Hp.
    rewrite pow2_shift in Hp by lia. change (inject_Z (2 ^ 1)) with 2%Q in Hp.
    pose proof (pow2_pos (exponent x)) as HPx. pose proof (pow2_pos (exponent y)) as HPy.
    change (inject_Z (2 ^ 53)) with (2 * inject_Z (2 ^ 52))%Q in Hn1.
    assert (0 < inject_Z (2 ^ 52))%Q as HI by reflexivity.
    set (Px := pow2 (exponent x)) in *. set (Py := pow2 (exponent y)) in *.
    set (I := inject_Z (2 ^ 52)) in *.
    set (nx := inject_Z (nearestEven (x / Px))) in *.
    set (ny := inject_Z (nearestEven (y / Py))) in *.
    apply Qle_trans with (2 * I * Px)%Q; [nra|].
    apply Qle_trans with (I * Py)%Q; nra.
Qed.

Lemma round_zero x : (x == 0)%Q -> round x = 0%Q.
Proof. intros H. unfold round. apply Qeq_alt in H. now rewrite H. Qed.

Lemma round_positive x : (0 < x)%Q -> round x = roundPositive x.
Proof. intros H. unfold round. apply Qgt_alt in H. now rewrite H. Qed.

Lemma round_nonneg x : (0 <= x)%Q -> (0 <= round x)%Q.
Proof.
  intros Hx. destruct (Qlt_le_dec 0 x) as [Hpos|Hz].
  - rewrite round_positive by assumption. now apply roundPositive_nonneg.
  - rewrite round_zero by lra. apply Qle_refl.
Qed.

(** Rounding is monotone (on the non-negative numbers, all that the progress
    needs). *)
Lemma round_mono x y : (0 <= x)%Q -> (x <= y)%Q -> (round x <= round y)%Q.
Proof.
  intros Hx Hle. destruct (Qlt_le_dec 0 x) as [Hpos|Hz].
  - rewrite !round_positive by lra. now apply roundPositive_mono.
  - rewrite (round_zero x) by lra. apply round_nonneg. lra.
Qed.

(** Integers up to [2^53] are binary64 numbers. *)
Lemma round_Z n : 0 <= n <= 2 ^ 53 -> (round (inject_Z n) == inject_Z n)%Q.
Proof.
  intros [Hlo Hhi]. destruct (Z.eq_dec n 0) as [->|Hne].
  { now rewrite round_zero. }
  assert (0 < inject_Z n)%Q as Hpos.
  { change 0%Q with (inject_Z 0). rewrite <- Zlt_Qlt. lia. }
  rewrite round_positive by assumption. unfold roundPositive.
  set (x := inject_Z n) in *. set (e := exponent x).
  pose proof (pow2_pos e) as HP.
  assert (ilog2 x <= 53) as Hlog.
  { destruct (Z_lt_le_dec 53 (ilog2 x)) as [Hbig|]; [|assumption].
    pose proof (ilog2_lower x ltac:(lia)) as Hl.
    pose proof (pow2_le 54 (ilog2 x) ltac:(lia)) as Hp.
    assert (x <= inject_Z (2 ^ 53))%Q by (unfold x; rewrite <- Zle_Qle; lia).
    exfalso. change (pow2 54) with (2 * inject_Z (2 ^ 53))%Q in Hp.
    assert (0 < inject_Z (2 ^ 53))%Q by reflexivity. lra. }
  assert (exists k, x / pow2 e == inject_Z k)%Q as [k Hk].
  { destruct (Z_le_gt_dec e 0) as [He|He].
    - exists (n * 2 ^ (- e)).
      pose proof (pow2_shift e (- e) ltac:(lia)) as Hs.
      replace (e + - e) with 0 in Hs by lia. change (pow2 0) with 1%Q in Hs.
      rewrite inject_Z_mult. fold x.
      set (P := pow2 e) in *. set (I := inject_Z (2 ^ (- e))) in *.
      assert (/ P == I)%Q as Hinv.
      { apply (Qmult_inj_l _ _ P); [lra|]. rewrite Qmult_inv_r by lra. lra. }
      unfold Qdiv. now rewrite Hinv.
    - assert (e = 1) as He1 by (unfold e, exponent in *; lia).
      assert (ilog2 x = 53) as Hl53 by (unfold e, exponent in *; lia).
      pose proof (ilog2_lower x ltac:(lia)) as Hl. rewrite Hl53 in Hl.
      change (pow2 53) with (inject_Z (2 ^ 53)) in Hl.
      unfold x in Hl. rewrite <- Zle_Qle in Hl.
      assert (n = 2 ^ 53) as Hn by lia.
      exists (2 ^ 52). rewrite He1. unfold x. rewrite Hn. reflexivity. }
  rewrite (nearestEven_comp _ _ Hk), nearestEven_Z, <- Hk.
  unfold e. apply significand_scaled.
Qed.

(** The relative error of rounding a normal number is at most [2^-53]. *)
Lemma round_error x :
  (pow2 (- 1022) <= x)%Q ->
  (x * (1 - unitRoundoff) <= round x)%Q /\ (round x <= x * (1 + unitRoundoff))%Q.
Proof.
  intros Hx. pose proof (pow2_pos (- 1022)) as H0.
  rewrite round_positive by lra. unfold roundPositive.
  pose proof (significand_lower x (ilog2_normal x Hx)) as Hlo.
  pose proof (significand_scaled x) as Hq.
  pose proof (pow2_pos (exponent x)) as HP.
  destruct (nearestEven_close (x / pow2 (exponent x))) as [Hc1 Hc2].
  unfold unitRoundoff.
  change (inject_Z (2 ^ 52)) with (4503599627370496 # 1)%Q in Hlo.
  set (q := (x / pow2 (exponent x))%Q) in *. set (P := pow2 (exponent x)) in *.
  set (N := inject_Z (nearestEven q)) in *.
  assert (q * (1 - (1 # 9007199254740992)) <= N)%Q as H1 by lra.
  assert (N <= q * (1 + (1 # 9007199254740992)))%Q as H2 by lra.
  split.
  - apply Qle_trans with (q * (1 - (1 # 9007199254740992)) * P)%Q; [|nra].
    rewrite <- Hq. apply Qle_lteq. right. ring.
  - apply Qle_trans with (q * (1 + (1 # 9007199254740992)) * P)%Q; [nra|].
    rewrite <- Hq. apply Qle_lteq. right. ring.
Qed.

Lemma inject_Z_minus a b : (inject_Z (a - b) == inject_Z a - inject_Z b)%Q.
Proof. unfold Z.sub, Qminus. now rewrite inject_Z_plus, inject_Z_opp. Qed.

Lemma Qfloor_unique q k :
  (inject_Z k <= q)%Q -> (q < inject_Z (k + 1))%Q -> Qfloor q = k.
Proof.
  intros Hlo Hhi. pose proof (Qfloor_le q) as H1. pose proof (Qlt_floor q) as H2.
  assert (Qfloor q < k + 1) by (rewrite Zlt_Qlt; lra).
  assert (k < Qfloor q + 1) by (rewrite Zlt_Qlt; lra).
  lia.
Qed.

Lemma Qceiling_unique q k :
  (inject_Z (k - 1) < q)%Q -> (q <= inject_Z k)%Q -> Qceiling q = k.
Proof.
  intros Hlo Hhi. pose proof (Qle_ceiling q) as H1. pose proof (Qceiling_lt q) as H2.
  assert (Qceiling q - 1 < k) by (rewrite Zlt_Qlt; lra).
  assert (k - 1 < Qceiling q) by (rewrite Zlt_Qlt; lra).
  lia.
Qed.

Lemma quotient_scaled a b : 0 < b -> (asQ a / asQ b * asQ b == asQ a)%Q.
Proof.
  intros Hb. unfold asQ. field.
  assert (0 < inject_Z b)%Q by (change 0%Q with (inject_Z 0); rewrite <- Zlt_Qlt; lia).
  lra.
Qed.

Lemma quotient_normal a b :
  0 < a -> 0 < b <= 2 ^ 53 -> (pow2 (- 1022) <= asQ a / asQ b)%Q.
Proof.
  intros Ha [Hb Hb53]. pose proof (quotient_scaled a b Hb) as Hq.
  assert (1 <= asQ a)%Q by (change 1%Q with (inject_Z 1); unfold asQ; rewrite <- Zle_Qle; lia).
  assert (0 < asQ b)%Q by (change 0%Q with (inject_Z 0); unfold asQ; rewrite <- Zlt_Qlt; lia).
  assert (asQ b <= inject_Z (2 ^ 53))%Q by (unfold asQ; rewrite <- Zle_Qle; lia).
  change (inject_Z (2 ^ 53)) with (9007199254740992 # 1)%Q in *.
  assert (pow2 (- 1022) <= 1 # 9007199254740992)%Q as Hsmall by (vm_compute; discriminate).
  set (q := (asQ a / asQ b)%Q) in *. set (B := asQ b) in *. set (A := asQ a) in *.
  assert (0 <= q)%Q.
  { unfold q. apply Qle_shift_div_l; lra. }
  apply Qle_trans with (1 # 9007199254740992)%Q; [assumption|].
  nra.
Qed.

(** [Math.ceil(a / b)] in binary64 is the exact ceiling of the quotient, for
    safe integers. *)
Lemma Math_ceil_divide a b :
  0 <= a < 2 ^ 53 -> 0 < b <= 2 ^ 53 ->
  Math_ceil (divide (asQ a) (asQ b)) = ceilDiv a b.
Proof.
  intros [Ha Ha53] [Hb Hb53]. unfold Math_ceil, divide.
  destruct (Z.eq_dec a 0) as [->|Hne].
  { rewrite round_zero by (unfold asQ, Qdiv; apply Qmult_0_l).
    unfold ceilDiv. rewrite Z.div_small by lia. reflexivity. }
  set (c := ceilDiv a b).
  assert (b * (c - 1) < a <= b * c) as [Hc1 Hc2].
  { unfold c, ceilDiv. pose proof (Z.div_mod (a + b - 1) b ltac:(lia)).
    pose proof (Z.mod_pos_bound (a + b - 1) b Hb). lia. }
  assert (1 <= c <= a) as [Hc3 Hc4] by nia.
  pose proof (quotient_scaled a b Hb) as Hq.
  pose proof (quotient_normal a b ltac:(lia) ltac:(lia)) as Hnormal.
  pose proof (round_error _ Hnormal) as [Herr _].
  assert (0 < asQ b)%Q as HB by (change 0%Q with (inject_Z 0); unfold asQ; rewrite <- Zlt_Qlt; lia).
  assert (asQ b * (asQ c - 1) + 1 <= asQ a)%Q as HQ1.
  { unfold asQ. change 1%Q with (inject_Z 1).
    rewrite <- inject_Z_minus, <- inject_Z_mult, <- inject_Z_plus, <- Zle_Qle. lia. }
  assert (asQ a <= asQ b * asQ c)%Q as HQ2.
  { unfold asQ. rewrite <- inject_Z_mult, <- Zle_Qle. lia. }
  assert (asQ a + 1 <= 9007199254740992 # 1)%Q as HQ3.
  { change (9007199254740992 # 1)%Q with (inject_Z (2 ^ 53)). change 1%Q with (inject_Z 1).
    unfold asQ. rewrite <- inject_Z_plus, <- Zle_Qle. lia. }
  apply Qceiling_unique.
  - rewrite inject_Z_minus. change (inject_Z 1) with 1%Q. fold (asQ c).
    unfold unitRoundoff in Herr.
    set (q := (asQ a / asQ b)%Q) in *. set (B := asQ b) in *. set (A := asQ a) in *.
    set (C := asQ c) in *. set (r := round q) in *.
    apply Qlt_le_trans with (q * (1 - (1 # 9007199254740992)))%Q; [|assumption].
    assert (B * (q * (1 - (1 # 9007199254740992)) - (C - 1)) > 0)%Q; [|nra].
    assert (B * q == A)%Q as HBq by (rewrite <- Hq; ring).
    assert (B * (q * (1 - (1 # 9007199254740992)) - (C - 1)) ==
            A * (1 - (1 # 9007199254740992)) - B * (C - 1))%Q as -> by (rewrite <- HBq; ring).
    lra.
  - rewrite <- (round_Z c) by lia.
    apply round_mono.
    + apply Qle_shift_div_l; [assumption|]. unfold asQ.
      rewrite Qmult_0_l. change 0%Q with (inject_Z 0). rewrite <- Zle_Qle. lia.
    + apply Qle_shift_div_r; [assumption|]. fold (asQ c). lra.
Qed.

Lemma asQ_pos a : 0 < a -> (1 <= asQ a)%Q.
Proof.
  intros H. change 1%Q with (inject_Z 1). unfold asQ. rewrite <- Zle_Qle. lia.
Qed.

(** Dividing and then multiplying in binary64 stays within half a unit of
    the exact product, once it is scaled by twice the divisor. *)
Lemma scaled_error a b c :
  0 < a -> 0 < b <= 2 ^ 53 -> 0 < c -> a * c <= 2 ^ 50 ->
  let x := times (divide (asQ a) (asQ b)) (asQ c) in
  (2 * asQ (a * c) - 1 < 2 * asQ b * x)%Q /\ (2 * asQ b * x < 2 * asQ (a * c) + 1)%Q.
Proof.
  intros Ha [Hb Hb53] Hc Hac. cbv zeta. unfold times, divide.
  pose proof (quotient_scaled a b Hb) as Hq.
  pose proof (quotient_normal a b Ha (conj Hb Hb53)) as Hnormal.
  pose proof (round_error _ Hnormal) as [Hlo1 Hhi1].
  pose proof (asQ_pos a Ha) as HA. pose proof (asQ_pos b Hb) as HB.
  pose proof (asQ_pos c Hc) as HC.
  assert (asQ b <= 9007199254740992 # 1)%Q as HB53.
  { change (9007199254740992 # 1)%Q with (inject_Z (2 ^ 53)). unfold asQ.
    rewrite <- Zle_Qle. lia. }
  assert (asQ (a * c) <= 1125899906842624 # 1)%Q as HT.
  { change (1125899906842624 # 1)%Q with (inject_Z (2 ^ 50)). unfold asQ.
    rewrite <- Zle_Qle. lia. }
  assert (asQ (a * c) == asQ a * asQ c)%Q as HTeq by (unfold asQ; rewrite inject_Z_mult; reflexivity).
  unfold unitRoundoff in *.
  set (q := (asQ a / asQ b)%Q) in *. set (x1 := round q) in *.
  set (A := asQ a) in *. set (B := asQ b) in *. set (C := asQ c) in *.
  set (T := asQ (a * c)) in *.
  assert (B * q == A)%Q as HBq by (rewrite <- Hq; ring).
  assert ((1 # 9007199254740992) <= q)%Q as Hqlo by nra.
  assert (pow2 (- 1022) <= x1 * C)%Q as Hnormal2.
  { assert (pow2 (- 1022) <= (1 # 9007199254740992) * (1 - (1 # 9007199254740992)))%Q
      as Hsmall by (vm_compute; discriminate).
    apply Qle_trans with ((1 # 9007199254740992) * (1 - (1 # 9007199254740992)))%Q;
      [assumption|].
    apply Qle_trans with (q * (1 - (1 # 9007199254740992)))%Q; [lra|].
    apply Qle_trans with x1; [assumption|]. nra. }
  pose proof (round_error _ Hnormal2) as [Hlo2 Hhi2].
  set (x2 := round (x1 * C)) in *.
  assert (0 <= q)%Q as Hq0 by lra.
  assert (0 <= x1)%Q as Hx10 by lra.
  assert (B * x1 <= A * (1 + (1 # 9007199254740992)))%Q as H1.
  { rewrite <- HBq. nra. }
  assert (A * (1 - (1 # 9007199254740992)) <= B * x1)%Q as H2.
  { rewrite <- HBq. nra. }
  assert (B * (x1 * C) <= T * (1 + (1 # 9007199254740992)))%Q as H3.
  { rewrite HTeq. nra. }
  assert (T * (1 - (1 # 9007199254740992)) <= B * (x1 * C))%Q as H4.
  { rewrite HTeq. nra. }
  set (y1 := (x1 * C)%Q) in *.
  assert (0 <= y1)%Q as Hy0 by (unfold y1; nra).
  assert (B * x2 <= T * (1 + (1 # 9007199254740992)) * (1 + (1 # 9007199254740992)))%Q as H5.
  { apply Qle_trans with (B * (y1 * (1 + (1 # 9007199254740992))))%Q.
    - apply Qmult_le_l; [lra|exact Hhi2].
    - setoid_replace (B * (y1 * (1 + (1 # 9007199254740992))))%Q
        with ((B * y1) * (1 + (1 # 9007199254740992)))%Q using relation Qeq by ring.
      set (W := (B * y1)%Q) in *. lra. }
  assert (T * (1 - (1 # 9007199254740992)) * (1 - (1 # 9007199254740992)) <= B * x2)%Q as H6.
  { apply Qle_trans with (B * (y1 * (1 - (1 # 9007199254740992))))%Q.
    - setoid_replace (B * (y1 * (1 - (1 # 9007199254740992))))%Q
        with ((B * y1) * (1 - (1 # 9007199254740992)))%Q using relation Qeq by ring.
      set (W := (B * y1)%Q) in *. lra.
    - apply Qmult_le_l; [lra|exact Hlo2]. }
  assert (0 <= T)%Q as HT0 by (rewrite HTeq; nra).
  split; lra.
Qed.

(** [Math.round((a / b) * c)] in binary64: the integer nearest to the exact
    value [a * c / b], except that at an exact half (where [2 * a * c + b]
    is a multiple of [2 * b]) the rounding errors may tip the result to the
    integer below. *)
Lemma Math_round_times_divide a b c :
  0 <= a -> 0 < b <= 2 ^ 53 -> 0 <= c -> a * c <= 2 ^ 50 ->
  let r := Math_round (times (divide (asQ a) (asQ b)) (asQ c)) in
  r = nearest (a * c) b \/
  ((2 * (a * c) + b) mod (2 * b) = 0 /\ r = nearest (a * c) b - 1).
Proof.
  intros Ha [Hb Hb53] Hc Hac. cbv zeta.
  destruct (Z.eq_dec (a * c) 0) as [Hz|Hnz].
  { left. rewrite Hz. unfold nearest. rewrite Z.div_small by lia.
    assert (times (divide (asQ a) (asQ b)) (asQ c) = 0%Q) as ->; [|reflexivity].
    unfold times. apply round_zero.
    destruct (Z.eq_dec a 0) as [->|Hane].
    - unfold divide. rewrite (round_zero (asQ 0 / asQ b)) by (unfold asQ, Qdiv; apply Qmult_0_l).
      apply Qmult_0_l.
    - assert (c = 0) as -> by nia. apply Qmult_0_r. }
  assert (0 < a) as Ha' by nia. assert (0 < c) as Hc' by nia.
  destruct (scaled_error a b c Ha' (conj Hb Hb53) Hc' Hac) as [Hlo Hhi].
  set (x := times (divide (asQ a) (asQ b)) (asQ c)) in *.
  set (k := nearest (a * c) b).
  pose proof (Z.div_mod (2 * (a * c) + b) (2 * b) ltac:(lia)) as Hdm.
  pose proof (Z.mod_pos_bound (2 * (a * c) + b) (2 * b) ltac:(lia)) as Hm.
  fold (nearest (a * c) b) in Hdm. fold k in Hdm.
  set (m := (2 * (a * c) + b) mod (2 * b)) in *.
  pose proof (asQ_pos b Hb) as HB.
  assert (2 * asQ (a * c) + asQ b == 2 * asQ b * asQ k + asQ m)%Q as HN.
  { unfold asQ. change 2%Q with (inject_Z 2).
    rewrite <- !inject_Z_mult, <- !inject_Z_plus. rewrite Hdm at 1.
    reflexivity. }
  assert (0 <= asQ m)%Q as Hm0.
  { change 0%Q with (inject_Z 0). unfold asQ. rewrite <- Zle_Qle. lia. }
  assert (asQ m + 1 <= 2 * asQ b)%Q as Hm1.
  { unfold asQ. change 2%Q with (inject_Z 2). change 1%Q with (inject_Z 1).
    rewrite <- inject_Z_mult, <- inject_Z_plus, <- Zle_Qle. lia. }
  unfold Math_round.
  set (T := asQ (a * c)) in *. set (B := asQ b) in *. set (K := asQ k) in *.
  set (M := asQ m) in *.
  assert (x + (1 # 2) < inject_Z (k + 1))%Q as Hupper.
  { rewrite inject_Z_plus. change (inject_Z 1) with 1%Q. fold (asQ k). fold K.
    apply (Qmult_lt_l _ _ (2 * B)); [lra|]. 
    setoid_replace (2 * B * (x + (1 # 2)))%Q with (2 * B * x + B)%Q using relation Qeq by ring.
    setoid_replace (2 * B * (K + 1))%Q with (2 * B * K + 2 * B)%Q using relation Qeq by ring.
    set (W := (2 * B * x)%Q) in *. set (V := (2 * B * K)%Q) in *. lra. }
  destruct (Z.eq_dec m 0) as [Htie|Hnot].
  - destruct (Qlt_le_dec (x + (1 # 2)) (inject_Z k)) as [Hbelow|Habove].
    + right. split; [assumption|]. apply Qfloor_unique.
      * rewrite inject_Z_minus. change (inject_Z 1) with 1%Q. fold (asQ k). fold K.
        apply (Qmult_le_l _ _ (2 * B)); [lra|].
        setoid_replace (2 * B * (x + (1 # 2)))%Q with (2 * B * x + B)%Q using relation Qeq by ring.
        setoid_replace (2 * B * (K - 1))%Q with (2 * B * K - 2 * B)%Q using relation Qeq by ring.
        set (W := (2 * B * x)%Q) in *. set (V := (2 * B * K)%Q) in *. lra.
      * replace (k - 1 + 1) with k by lia. assumption.
    + left. now apply Qfloor_unique.
  - left. apply Qfloor_unique; [|assumption].
    assert (1 <= M)%Q as HM1.
    { change 1%Q with (inject_Z 1). unfold M, asQ. rewrite <- Zle_Qle. lia. }
    fold (asQ k). fold K.
    apply (Qmult_le_l _ _ (2 * B)); [lra|].
    setoid_replace (2 * B * (x + (1 # 2)))%Q with (2 * B * x + B)%Q using relation Qeq by ring.
    set (W := (2 * B * x)%Q) in *. set (V := (2 * B * K)%Q) in *. lra.
Qed.

(** Rounding depends on the value of a rational only, not on the fraction
    that denotes it. *)
Lemma round_comp x y : (x == y)%Q -> round x = round y.
Proof.
  assert (forall u v, (u == v)%Q -> roundPositive u = roundPositive v) as Hpos.
  { intros u v H. unfold roundPositive.
    assert (exponent u = exponent v) as ->.
    { unfold exponent, ilog2.
      rewrite (Qfloor_comp (u * pow2 1100) (v * pow2 1100)); [reflexivity|].
      now rewrite H. }
    f_equal. f_equal. apply nearestEven_comp. now rewrite H. }
  intros H. unfold round. rewrite (Qcompare_comp x y H 0%Q 0%Q (Qeq_refl 0)).
  destruct (y ?= 0)%Q; [reflexivity|..].
  - f_equal. apply Hpos. now rewrite H.
  - now apply Hpos.
Qed.

Lemma quotient_nonneg a b : 0 <= a -> 0 < b -> (0 <= asQ a / asQ b)%Q.
Proof.
  intros Ha Hb. apply Qle_shift_div_l.
  - change 0%Q with (inject_Z 0). unfold asQ. rewrite <- Zlt_Qlt. lia.
  - rewrite Qmult_0_l. change 0%Q with (inject_Z 0). unfold asQ.
    rewrite <- Zle_Qle. lia.
Qed.

Lemma quotient_mono a b c : a <= b -> 0 < c -> (asQ a / asQ c <= asQ b / asQ c)%Q.
Proof.
  intros Hab Hc. apply Qmult_le_compat_r.
  - unfold asQ. rewrite <- Zle_Qle. lia.
  - apply Qlt_le_weak, Qinv_lt_0_compat.
    change 0%Q with (inject_Z 0). unfold asQ. rewrite <- Zlt_Qlt. lia.
Qed.

(** A binary64 quotient of counts grows with the dividend. *)
Lemma Math_ceil_divide_mono a b c :
  0 <= a <= b -> 0 < c ->
  0 <= Math_ceil (divide (asQ a) (asQ c)) <= Math_ceil (divide (asQ b) (asQ c)).
Proof.
  intros [Ha Hab] Hc. unfold Math_ceil, divide. split.
  - rewrite <- (Qceiling_Z 0). apply Qceiling_resp_le.
    apply round_nonneg, quotient_nonneg; lia.
  - apply Qceiling_resp_le, round_mono.
    + apply quotient_nonneg; lia.
    + now apply quotient_mono.
Qed.

(** A binary64 percentage of a part of the whole lies between 0 and 100. *)
Lemma percentage_range a b :
  0 <= a <= b -> 0 < b ->
  0 <= Math_round (times (divide (asQ a) (asQ b)) 100%Q) <= 100.
Proof.
  intros [Ha Hab] Hb. unfold Math_round, times, divide.
  pose proof (quotient_nonneg a b Ha Hb) as Hq0.
  assert (asQ a / asQ b <= 1)%Q as Hq1.
  { apply Qle_shift_div_r.
    - change 0%Q with (inject_Z 0). unfold asQ. rewrite <- Zlt_Qlt. lia.
    - rewrite Qmult_1_l. unfold asQ. rewrite <- Zle_Qle. lia. }
  pose proof (round_nonneg _ Hq0) as Hr0.
  pose proof (round_mono _ _ Hq0 Hq1) as Hr1.
  rewrite (round_Z 1) in Hr1 by lia. change (inject_Z 1) with 1%Q in Hr1.
  set (x := round (asQ a / asQ b)) in *. clearbody x. clear Hq0 Hq1.
  assert (0 <= x * 100)%Q as Hy0 by lra.
  pose proof (round_nonneg _ Hy0) as Hs0.
  assert (x * 100 <= 100)%Q as Hy1 by lra.
  pose proof (round_mono (x * 100) 100 Hy0 Hy1) as Hs1.
  change 100%Q with (inject_Z 100) in Hs1 at 2.
  rewrite (round_Z 100) in Hs1 by lia. change (inject_Z 100) with 100%Q in Hs1.
  set (y := round (x * 100)) in *.
  split.
  - rewrite <- (Qfloor_Z 0). apply Qfloor_resp_le.
    change (inject_Z 0) with 0%Q. lra.
  - pose proof (Qfloor_le (y + (1 # 2))) as Hf.
    assert (Qfloor (y + (1 # 2)) < 101); [|lia].
    rewrite Zlt_Qlt. change (inject_Z 101) with 101%Q. lra.
Qed.

(** At 99.5 percent the binary64 computation gives 100. *)
Lemma percentage_at_half a b :
  0 < b -> 199 * b = 200 * a ->
  Math_round (times (divide (asQ a) (asQ b)) 100%Q) = 100.
Proof.
  intros Hb Heq. unfold times, divide.
  assert (asQ a / asQ b == 199 # 200)%Q as Hq.
  { assert (0 < asQ b)%Q as HB
      by (change 0%Q with (inject_Z 0); unfold asQ; rewrite <- Zlt_Qlt; lia).
    assert (200 * asQ a == 199 * asQ b)%Q as HQ.
    { unfold asQ. change 200%Q with (inject_Z 200). change 199%Q with (inject_Z 199).
      rewrite <- !inject_Z_mult, Heq. reflexivity. }
    apply (Qmult_inj_r _ _ (asQ b)); [lra|].
    rewrite quotient_scaled by lia. lra. }
  rewrite (round_comp _ _ Hq). vm_compute. reflexivity.
Qed.

End Binary64Facts.

(** [ceilDiv] is the ceiling of the quotient. *)
Lemma ceilDiv_spec a b :
  0 < b -> a <= ceilDiv a b * b < a + b.
Proof.
  intros Hb. unfold ceilDiv.
  pose proof (Z.mod_pos_bound (a + b - 1) b Hb).
  pose proof (Z.div_mod (a + b - 1) b). lia.
Qed.

(** [nearest] is the quotient rounded to the nearest integer, halves up. *)
Lemma nearest_spec a b :
  0 < b -> 2 * a - b < 2 * b * nearest a b <= 2 * a + b.
Proof.
  intros Hb. unfold nearest.
  pose proof (Z.mod_pos_bound (2 * a + b) (2 * b)).
  pose proof (Z.div_mod (2 * a + b) (2 * b)). lia.
Qed.

(** ** C5: progress (src/sync-state.ts, getProgress) *)

(** C5, as stated, fails: before the first batch completes,
    [ceil(processed / batchSize)] is 0 but the reported batch is 1. *)
Lemma getProgress_before_first_batch :
  exists p,
    getProgress 2000 (startedManager 20 5) = Some p /\
    processed p = 0 /\
    Math_ceil (asQ (processed p) / asQ 5)%Q = 0 /\
    currentBatch p = 1.
Proof. eexists. split; [vm_compute; reflexivity|]. repeat split. Qed.

(** C5, amended: for a live session whose batch size is positive and whose
    counts are safe integers,
    [remaining = total - processed];
    [elapsedTime] runs from [startTime] to the pause stamp when one is set
    (and non-zero), to [now] otherwise;
    [currentBatch] and [totalBatches] are the ceilings of
    [processed / batchSize] and [total / batchSize], but never below 1;
    [percentage] is 0 when [total] is 0 and otherwise [Math.round] of the
    binary64 value of [processed / total * 100]: for [processed * 100] up
    to [2^50] this is the integer nearest to the exact value, except that
    at an exact half the rounding errors may give the integer below;
    [estimatedTimeRemaining] is defined exactly when [processed > 0] and
    the session is running, and is then [Math.round] of the binary64 value
    of [elapsedTime / processed * remaining], characterised in the same
    way for a product [elapsedTime * remaining] up to [2^50]. *)
Theorem getProgress_derivation (now : Z) (m : Manager) (s : SyncSession) :
  currentSession m = Some s ->
  0 < batchSize s <= 2 ^ 53 ->
  0 <= processedActions s < 2 ^ 53 ->
  0 <= totalActions s < 2 ^ 53 ->
  exists p,
    getProgress now m = Some p /\
    processed p = processedActions s /\
    total p = totalActions s /\
    progressState p = sess_state s /\
    remaining p = totalActions s - processedActions s /\
    elapsedTime p = progressClock now s - startTime s /\
    currentBatch p = Z.max 1 (ceilDiv (processedActions s) (batchSize s)) /\
    totalBatches p = Z.max 1 (ceilDiv (totalActions s) (batchSize s)) /\
    (totalActions s = 0 -> percentage p = 0) /\
    (0 < totalActions s -> processedActions s * 100 <= 2 ^ 50 ->
     roundedQuotient (processedActions s * 100) (totalActions s)
       (percentage p)) /\
    (estimatedTimeRemaining p = None <->
     ~ (0 < processedActions s /\ sess_state s = running)) /\
    (0 < processedActions s -> sess_state s = running ->
     0 <= elapsedTime p -> 0 <= remaining p ->
     elapsedTime p * remaining p <= 2 ^ 50 ->
     exists estimate,
       estimatedTimeRemaining p = Some estimate /\
       roundedQuotient (elapsedTime p * remaining p) (processedActions s)
         estimate).
Proof.
  intros Hs Hsize Hdone Hall. unfold getProgress. rewrite Hs.
  eexists. split; [reflexivity|].
  cbn [processed total progressState remaining percentage currentBatch
       totalBatches elapsedTime estimatedTimeRemaining].
  fold (progressClock now s).
  rewrite !Math_ceil_divide by lia.
  split_and!; try reflexivity.
  - intros ->. reflexivity.
  - intros Hpos Hbound.
    destruct (Z.ltb_spec 0 (totalActions s)) as [_|]; [|lia].
    change 100%Q with (asQ 100).
    apply (Math_round_times_divide (processedActions s) (totalActions s) 100);
      lia.
  - destruct (Z.ltb_spec 0 (processedActions s)) as [Hpos|Hzero]; cbn [andb].
    + destruct (String.eqb_spec (sess_state s) running) as [Hrun|Hrun].
      * split; [discriminate|]. intros H. exfalso. apply H. now split.
      * split; [|reflexivity]. intros _ [_ H]. contradiction.
    + split; [|reflexivity]. intros _ [H _]. lia.
  - intros Hpos Hrun Helapsed Hleft Hbound.
    destruct (Z.ltb_spec 0 (processedActions s)) as [_|]; [|lia].
    rewrite Hrun, String.eqb_refl. cbn [andb].
    eexists. split; [reflexivity|].
    apply (Math_round_times_divide (progressClock now s - startTime s)
             (processedActions s) (totalActions s - processedActions s)); lia.
Qed.

(** The progress report rounds as binary64 arithmetic does: 23 of 40 is
    reported as 57 percent, [23 / 40 * 100] being just below 57.5 in
    binary64, and 49 ms for 6 actions with 15 to go as 122 ms; the nearest
    integers of the exact values are 58 and 123. *)
Lemma getProgress_rounds_as_binary64 :
  (percentage <$>
     getProgress 2000 (with_session (newManager None) (Some (sessionAt 23 40))))
  = Some 57 /\
  nearest (23 * 100) 40 = 58 /\
  (estimatedTimeRemaining <$>
     getProgress 1049 (with_session (newManager None) (Some (sessionAt 6 21))))
  = Some (Some 122) /\
  nearest (49 * 15) 6 = 123 /\
  (percentage <$>
     getProgress 2000 (with_session (newManager None) (Some (sessionAt 1 8))))
  = Some 13.
Proof. vm_compute. repeat split. Qed.

(** The session of the repository's progress test: 20 actions in batches of
    5, two batches done. *)
Lemma getProgress_derivation_witness :
  exists s p,
    currentSession (processBatch 1200 (processBatch 1100 (startedManager 20 5)))
    = Some s /\
    getProgress 2000 (processBatch 1200 (processBatch 1100 (startedManager 20 5)))
    = Some p /\
    processed p = 10 /\ percentage p = 50 /\ remaining p = 10 /\
    currentBatch p = 2 /\ totalBatches p = 4 /\
    elapsedTime p = 1000 /\ estimatedTimeRemaining p = Some 1000.
Proof.
  destruct (currentSession
              (processBatch 1200 (processBatch 1100 (startedManager 20 5))))
    as [s|] eqn:Hs; [|vm_compute in Hs; discriminate].
  assert (batchSize s = 5 /\ processedActions s = 10 /\ totalActions s = 20 /\
          sess_state s = running /\ progressClock 2000 s - startTime s = 1000)
    as (Hsize & Hdone & Hall & Hrun & Hclock).
  { vm_compute in Hs. injection Hs as <-. repeat split. }
  destruct (getProgress_derivation 2000 _ s Hs)
    as (p & Hp & H1 & H2 & H3 & H4 & H5 & H6 & H7 & _ & H8 & _ & H9);
    [rewrite ?Hsize, ?Hdone, ?Hall; lia ..|].
  rewrite H5, H4 in H9. rewrite Hdone, Hall, ?Hsize, ?Hclock in *.
  specialize (H8 ltac:(lia) ltac:(lia)).
  specialize (H9 ltac:(lia) Hrun ltac:(lia) ltac:(lia) ltac:(lia)).
  destruct H8 as [H8|[H8 _]]; [|vm_compute in H8; discriminate].
  destruct H9 as (estimate & He & [H9|[H9 _]]);
    [|vm_compute in H9; discriminate].
  exists s, p. split; [reflexivity|]. split; [exact Hp|].
  rewrite H1, H4, H5, H6, H7, H8, He, H9.
  repeat split; vm_compute; reflexivity.
Defined.

(** ** C9: loading a stored session (loadSession, initializeSession) *)

(** [isValidSession] rejects a document exactly when one of the fields it
    checks is missing or of the wrong type. *)
Lemma isValidSession_false data :
  isValidSession data = false <-> failsValidation data.
Proof.
  unfold isValidSession, failsValidation.
  rewrite !andb_false_iff. tauto.
Qed.

Lemma loadSession_unusable m file :
  sessionFile m = Some file ->
  unusable file ->
  loadSession m = (None, clearSessionFile m).
Proof.
  intros Hfile Hbad. unfold loadSession. rewrite Hfile.
  destruct file as [raw|data]; [reflexivity|].
  destruct Hbad as [Hinvalid|Hset].
  - apply isValidSession_false in Hinvalid. now rewrite Hinvalid.
  - destruct (isValidSession data); [|reflexivity]. cbn [negb].
    now rewrite Hset.
Qed.

(** C9, as stated, fails: a stored record that lacks the required field
    [processedIds] passes validation; being paused with work left, it is
    resumed, with its own progress and queue, not discarded. *)
Lemma initializeSession_resumes_record_without_processedIds :
  member "processedIds" recordWithoutProcessedIds = None /\
  exists s m,
    initializeSession 2000 "zz" (createTestActions 3) 2
      (newManager (Some (Document recordWithoutProcessedIds)))
    = Some (s, m) /\
    sess_id s = "sync_1000_k3j2" /\
    processedActions s = 2 /\
    remainingActions s = [testAction 2] /\
    remainingActions s <> createTestActions 3.
Proof.
  split; [reflexivity|]. eexists _, _. split; [vm_compute; reflexivity|].
  repeat split. discriminate.
Qed.

(** C9, amended: when the stored record is unparseable, or fails the
    validation of [id], [state], [startTime], [totalActions],
    [processedActions], [remainingActions], [errors], [lastCheckpointTime]
    or [batchSize], or holds a [processedIds] that cannot be iterated,
    [initializeSession] raises nothing, drops the record and returns a
    fresh running session with [processedActions = 0] and
    [remainingActions] equal to the given actions, which it persists. *)
Theorem initializeSession_discards_unusable_record (now : Z) (random : string)
    (actions : list DeltaAction) (size : Z) (m : Manager) (file : FileContent) :
  sessionFile m = Some file ->
  unusable file ->
  exists s m',
    initializeSession now random actions size m = Some (s, m') /\
    s = freshSession now random actions size /\
    sess_state s = running /\
    processedActions s = 0 /\
    remainingActions s = actions /\
    totalActions s = len actions /\
    currentSession m' = Some s /\
    sessionFile m' = Some (Document (encodeSession s)).
Proof.
  intros Hfile Hbad. unfold initializeSession.
  rewrite (loadSession_unusable m file Hfile Hbad). cbn [mbind option_bind].
  eexists _, _. split; [reflexivity|]. repeat split.
Qed.

(** The corrupted file of the repository's test. *)
Lemma initializeSession_discards_unusable_record_witness :
  exists s m',
    initializeSession 2000 "zz" (createTestActions 3) 2
      (newManager (Some (Unparseable "invalid json"))) = Some (s, m') /\
    s = freshSession 2000 "zz" (createTestActions 3) 2 /\
    sess_state s = running /\
    processedActions s = 0 /\
    remainingActions s = createTestActions 3 /\
    totalActions s = len (createTestActions 3) /\
    currentSession m' = Some s /\
    sessionFile m' = Some (Document (encodeSession s)).
Proof.
  exact (initializeSession_discards_unusable_record 2000 "zz"
           (createTestActions 3) 2
           (newManager (Some (Unparseable "invalid json")))
           (Unparseable "invalid json") eq_refl I).
Defined.

(** ** C6: the verdict of a batched run (executeSyncBatches) *)

Lemma successRate_at_least_80_percent p t :
  0 < t -> Qle_bool (8 # 10) (asQ p / asQ t)%Q = true <-> 4 * t <= 5 * p.
Proof.
  intros Ht. rewrite Qle_bool_iff. destruct t as [|q|q]; try lia.
  unfold Qle, asQ, Qdiv, Qmult, Qinv, inject_Z. cbn [Qnum Qden].
  lia.
Qed.

Lemma successRate_positive p t :
  0 < t -> negb (Qle_bool (asQ p / asQ t)%Q 0) = true <-> 0 < p.
Proof.
  intros Ht. rewrite negb_true_iff, <- not_true_iff_false, Qle_bool_iff.
  destruct t as [|q|q]; try lia.
  unfold Qle, asQ, Qdiv, Qmult, Qinv, inject_Z. cbn [Qnum Qden].
  lia.
Qed.

Lemma declareSuccess_iff totalProcessed s allErrors :
  0 < totalActions s ->
  declareSuccess totalProcessed (Some s) allErrors = true <->
  4 * totalActions s <= 5 * totalProcessed \/
  (Forall (fun e => isQuotaError e = true) allErrors /\ 0 < totalProcessed).
Proof.
  intros Ht. unfold declareSuccess.
  destruct (Z.eqb_spec (totalActions s) 0); [lia|].
  rewrite orb_true_iff, andb_true_iff.
  rewrite (successRate_at_least_80_percent _ _ Ht).
  rewrite (successRate_positive _ _ Ht).
  rewrite forallb_forall, Forall_forall.
  setoid_rewrite <- list_elem_of_In. reflexivity.
Qed.



Lemma currentSession_saveSession m :
  currentSession (saveSession m) = currentSession m.
Proof.
  unfold saveSession. destruct (currentSession m) eqn:H; [exact H | exact H].
Qed.

Lemma currentSession_abort (m : Manager) :
  currentSession (abort m) = currentSession m.
Proof. unfold abort. now destruct (abortController m). Qed.








(** The success rate is compared in exact arithmetic.  For a count of up
    to [2^53] processed actions and a total of up to [2^50] this is the
    verdict of the comparisons of binary64 numbers that the code makes:
    the quotient rounded against the binary64 number nearest to [0.8],
    and against [0]. *)
Lemma successRate_binary64 p t :
  0 <= p <= 2 ^ 53 -> 0 < t <= 2 ^ 50 ->
  Qle_bool (Binary64.round (8 # 10)) (Binary64.divide (asQ p) (asQ t))
  = Qle_bool (8 # 10) (asQ p / asQ t)%Q /\
  Qle_bool (Binary64.divide (asQ p) (asQ t)) 0 = Qle_bool (asQ p / asQ t)%Q 0.
Proof.
  intros [Hp Hp53] [Ht Ht50].
  assert (0 < asQ t)%Q as HT
    by (change 0%Q with (inject_Z 0); unfold asQ; rewrite <- Zlt_Qlt; lia).
  pose proof (quotient_nonneg p t Hp Ht) as Hq0.
  pose proof (quotient_scaled p t Ht) as Hq.
  unfold Binary64.divide.
  destruct (Z.eq_dec p 0) as [->|Hne].
  { rewrite (round_zero (asQ 0 / asQ t))
      by (unfold asQ, Qdiv; apply Qmult_0_l).
    assert (asQ 0 / asQ t == 0)%Q as Hz by (unfold asQ, Qdiv; apply Qmult_0_l).
    split.
    - rewrite Hz. reflexivity.
    - rewrite Hz. reflexivity. }
  pose proof (quotient_normal p t ltac:(lia) ltac:(lia)) as Hnormal.
  pose proof (round_error _ Hnormal) as [Hlo Hhi].
  assert (1 <= asQ p)%Q as HP by (apply asQ_pos; lia).
  assert (asQ t <= 1125899906842624 # 1)%Q as HT50.
  { change (1125899906842624 # 1)%Q with (inject_Z (2 ^ 50)). unfold asQ.
    rewrite <- Zle_Qle. lia. }
  unfold Binary64.unitRoundoff in *.
  assert (Binary64.round (8 # 10) == 3602879701896397 # 4503599627370496)%Q as Hc
    by (vm_compute; reflexivity).
  set (q := (asQ p / asQ t)%Q) in *. set (r := Binary64.round q) in *.
  set (P := asQ p) in *. set (T := asQ t) in *.
  split.
  - destruct (Qlt_le_dec q (8 # 10)) as [Hless|Hmore].
    + assert (Qle_bool (8 # 10) q = false) as ->.
      { apply not_true_iff_false. rewrite Qle_bool_iff. lra. }
      apply not_true_iff_false. rewrite Qle_bool_iff, Hc.
      assert (5 * P + 1 <= 4 * T)%Q as Hint.
      { unfold P, T, asQ. change 5%Q with (inject_Z 5).
        change 4%Q with (inject_Z 4). change 1%Q with (inject_Z 1).
        rewrite <- !inject_Z_mult, <- inject_Z_plus, <- Zle_Qle.
        assert (5 * P < 4 * T)%Q as Hlt by nra.
        unfold P, T, asQ in Hlt. change 5%Q with (inject_Z 5) in Hlt.
        change 4%Q with (inject_Z 4) in Hlt.
        rewrite <- !inject_Z_mult, <- Zlt_Qlt in Hlt. lia. }
      assert (5 * T * q + 1 <= 4 * T)%Q as Hq5.
      { setoid_replace (5 * T * q)%Q with (5 * (q * T))%Q using relation Qeq by ring.
        rewrite Hq. exact Hint. }
      assert (5 * T * r <= 5 * T * (q * (1 + (1 # 9007199254740992))))%Q as Hr.
      { apply Qmult_le_l; [lra | exact Hhi]. }
      assert (5 * T * r < 4 * T)%Q as Hfinal.
      { setoid_replace (5 * T * (q * (1 + (1 # 9007199254740992))))%Q
          with ((5 * T * q) * (1 + (1 # 9007199254740992)))%Q
          using relation Qeq in Hr by ring.
        set (W := (5 * T * q)%Q) in *. lra. }
      intros Hge.
      assert (5 * T * (3602879701896397 # 4503599627370496) <= 5 * T * r)%Q as Hge'
        by (apply Qmult_le_l; [lra | exact Hge]).
      setoid_replace (5 * T * (3602879701896397 # 4503599627370496))%Q
        with (T * (5 * (3602879701896397 # 4503599627370496)))%Q
        using relation Qeq in Hge' by ring.
      set (V := (5 * T * r)%Q) in *. lra.
    + assert (Qle_bool (8 # 10) q = true) as -> by (apply Qle_bool_iff; lra).
      apply Qle_bool_iff. apply round_mono; [discriminate | exact Hmore].
  - assert (0 < q)%Q as Hqpos by nra.
    assert (Qle_bool q 0 = false) as ->.
    { apply not_true_iff_false. rewrite Qle_bool_iff. lra. }
    apply not_true_iff_false. rewrite Qle_bool_iff.
    assert (0 < q * (1 - (1 # 9007199254740992)))%Q by nra. lra.
Qed.





(** ** Sessions written by [saveSession] are read back as they were *)

Lemma decodeAction_encodeAction (a : DeltaAction) :
  decodeAction (encodeAction a) = Some a.
Proof.
  destruct a as [kind ident path body metadata].
  destruct kind, path, body, metadata; reflexivity.
Qed.

Lemma mapM_decodeAction (actions : list DeltaAction) :
  mapM decodeAction (encodeAction <$> actions) = Some actions.
Proof.
  induction actions as [|a r IH]; [reflexivity|].
  rewrite fmap_cons. cbn [mapM]. rewrite decodeAction_encodeAction.
  cbn [mbind option_bind]. rewrite IH. reflexivity.
Qed.

Lemma mapM_stringOf (ids : list string) :
  mapM stringOf (JStr <$> ids) = Some ids.
Proof.
  induction ids as [|x r IH]; [reflexivity|].
  rewrite fmap_cons. cbn [mapM stringOf mbind option_bind].
  rewrite IH. reflexivity.
Qed.

Lemma Set_spread_from_NoDup_id (seen xs : list string) :
  NoDup xs -> (forall x, x ∈ xs -> x ∉ seen) -> Set_spread_from seen xs = xs.
Proof.
  revert seen. induction xs as [|x r IH]; intros seen Hnd Hfresh; [reflexivity|].
  apply NoDup_cons in Hnd as [Hx Hr]. cbn [Set_spread_from].
  rewrite bool_decide_eq_false_2 by (apply Hfresh; left).
  f_equal. apply IH; [exact Hr|].
  intros y Hy. rewrite not_elem_of_cons. split.
  - intros ->. contradiction.
  - apply Hfresh. now right.
Qed.

Lemma isValidSession_encodeSession (s : SyncSession) :
  isValidSession (encodeSession s) = true.
Proof. destruct s as [? ? ? [?|] [?|] ? ? ? ? ? ? ?]; reflexivity. Qed.

(** What [saveSession] wrote is loaded back as the same session. *)
Lemma loadSession_saved (m : Manager) (s : SyncSession) :
  sessionFile m = Some (Document (encodeSession s)) ->
  NoDup (processedIds s) ->
  exists l,
    loadSession m = (Some l, m) /\
    loadedState l = sess_state s /\
    List.length (loadedRemaining l) = List.length (remainingActions s) /\
    asSyncSession l = Some s.
Proof.
  intros Hfile Hnd. unfold loadSession.
  rewrite Hfile, isValidSession_encodeSession. cbn [negb].
  assert (Hids : member "processedIds" (encodeSession s)
                 = Some (JArr (JStr <$> processedIds s))).
  { destruct s as [? ? ? [?|] [?|] ? ? ? ? ? ? ?]; reflexivity. }
  rewrite Hids. cbn [setElements truthy].
  eexists. split; [reflexivity|].
  pose proof (Set_spread_from_NoDup_id [] (processedIds s) Hnd
                ltac:(intros; apply not_elem_of_nil)) as Hspread.
  clear Hfile Hids Hnd.
  destruct s as [ident st start [pausedAt|] [resumedAt|] tot proc acts ids errs chk size];
    cbn [processedIds] in Hspread;
    unfold loadedState, loadedRemaining, asSyncSession;
    cbn -[mapM Set_spread decodeAction stringOf];
    rewrite length_fmap, mapM_decodeAction, !mapM_stringOf;
    (split; [reflexivity|]); (split; [reflexivity|]);
    cbn [mbind option_bind]; unfold Set_spread; rewrite Hspread; reflexivity.
Qed.

(** A paused session with work left is resumed by the next
    [initializeSession]: same id and progress, running again, with the new
    batch size. *)
Lemma initializeSession_resumes_paused (now : Z) (random : string)
    (actions : list DeltaAction) (size : Z) (m : Manager) (s : SyncSession) :
  sessionFile m = Some (Document (encodeSession s)) ->
  NoDup (processedIds s) ->
  sess_state s = paused ->
  remainingActions s <> [] ->
  exists s' m',
    initializeSession now random actions size m = Some (s', m') /\
    sess_id s' = sess_id s /\
    sess_state s' = running /\
    resumeTime s' = Some now /\
    batchSize s' = size /\
    processedActions s' = processedActions s /\
    remainingActions s' = remainingActions s /\
    processedIds s' = processedIds s.
Proof.
  intros Hfile Hnd Hpaused Hwork. unfold initializeSession.
  destruct (loadSession_saved m s Hfile Hnd) as (l & -> & Hstate & Hlen & Hs).
  rewrite Hstate, Hpaused. cbn [String.eqb andb].
  change (String.eqb paused paused) with true. cbn [andb].
  assert (Hpos : (0 <? len (loadedRemaining l)) = true).
  { unfold len. rewrite Hlen. apply Z.ltb_lt.
    destruct (remainingActions s); [congruence | cbn; lia]. }
  rewrite Hpos, Hs. cbn [mbind option_bind].
  eexists _, _. split; [reflexivity|]. repeat split.
Qed.

(* ------------------------------------------------------------------ *)
(** ** The retry record as a whole (src/delta.ts) *)

Lemma Set_spread_from_seen (seen1 seen2 xs : list string) :
  (forall x, x ∈ seen1 <-> x ∈ seen2) ->
  Set_spread_from seen1 xs = Set_spread_from seen2 xs.
Proof.
  revert seen1 seen2. induction xs as [|y r IH]; intros seen1 seen2 H; simpl.
  - reflexivity.
  - rewrite (bool_decide_ext (y ∈ seen1) (y ∈ seen2)) by apply H.
    case_bool_decide; [now apply IH|].
    f_equal. apply IH. intros x. rewrite !elem_of_cons, H. reflexivity.
Qed.

Lemma Set_spread_from_app (seen xs ys : list string) :
  Set_spread_from seen (xs ++ ys)
  = Set_spread_from seen xs ++ Set_spread_from (xs ++ seen) ys.
Proof.
  revert seen. induction xs as [|y r IH]; intros seen; simpl.
  - reflexivity.
  - case_bool_decide as Hy.
    + rewrite IH. f_equal. apply Set_spread_from_seen. set_solver.
    + rewrite IH. cbn [app]. f_equal. f_equal.
      apply Set_spread_from_seen. set_solver.
Qed.

Lemma filter_not_included_all (succeeded l : list string) :
  (forall p, p ∈ l -> p ∈ succeeded) ->
  List.filter (fun file => negb (Array_includes succeeded file)) l = [].
Proof.
  induction l as [|x r IH]; intros H; simpl; [reflexivity|].
  unfold Array_includes at 1.
  rewrite bool_decide_eq_true_2 by (apply H; set_solver).
  apply IH. intros p Hp. apply H. set_solver.
Qed.

Lemma filter_not_included_none (succeeded l : list string) :
  (forall p, p ∈ l -> p ∉ succeeded) ->
  List.filter (fun file => negb (Array_includes succeeded file)) l = l.
Proof.
  induction l as [|x r IH]; intros H; simpl; [reflexivity|].
  unfold Array_includes at 1.
  rewrite bool_decide_eq_false_2 by (apply H; set_solver).
  simpl. f_equal. apply IH. intros p Hp. apply H. set_solver.
Qed.

Lemma occurrences_positive (p : string) (paths : list string) :
  p ∈ paths -> 1 <= occurrences p paths.
Proof.
  intros H. unfold occurrences.
  apply list_elem_of_In, (count_occ_In string_dec) in H. lia.
Qed.

Lemma NoDup_filter_keeps {A} (f : A -> bool) (l : list A) :
  NoDup l -> NoDup (List.filter f l).
Proof.
  induction 1 as [|x l Hx Hl IH]; simpl; [constructor|].
  destruct (f x); [|exact IH].
  constructor; [|exact IH].
  rewrite list_elem_of_In, filter_In, <- list_elem_of_In. tauto.
Qed.

(** X1.  The retry record stays consistent: from a state whose record (if
    any) lists no path twice, gives a retry count to exactly the failed
    paths and has every count at least 1, [markFilesFailed] of paths that
    are no keys of [Object.prototype] and [markFilesSucceeded] of any
    paths both lead to such a state again; and a record left by
    [markFilesSucceeded] always lists at least one failed path. *)
Theorem partialSync_stays_consistent
    (now : Z) (state : FileState) (paths : list string)
    (Hstate : forall ps, partialSync state = Some ps -> consistent ps) :
  (Forall (fun path => inherited path = false) paths ->
   forall ps, partialSync (markFilesFailed now state paths) = Some ps ->
     consistent ps) /\
  (forall ps, partialSync (markFilesSucceeded state paths) = Some ps ->
     consistent ps /\ failedFiles ps <> []).
Proof.
  split.
  - intros _ ps' Hps'. unfold markFilesFailed in Hps'. cbn in Hps'.
    injection Hps' as <-.
    set (cur := match partialSync state with
                | Some ps => ps
                | None => {| failedFiles := []; retryCount := ∅; lastFailure := now |}
                end).
    assert (consistent cur) as (Hnd & Hdom & Hpos).
    { subst cur. destruct (partialSync state) as [ps|]; [now apply Hstate|].
      split; [constructor|]. split.
      - intros p. cbn. rewrite lookup_empty, elem_of_nil.
        split; [tauto | intros [? ?]; discriminate].
      - intros p n. cbn. rewrite lookup_empty. discriminate. }
    split; [apply Set_spread_from_NoDup|]. cbn. split.
    + intros p. rewrite Set_spread_elem, elem_of_app, retry_loop_lookup.
      case_bool_decide as Hin.
      * split; [eauto | tauto].
      * rewrite Hdom. tauto.
    + intros p n. rewrite retry_loop_lookup.
      case_bool_decide as Hin; [|apply Hpos].
      intros [= <-]. pose proof (occurrences_positive _ _ Hin).
      destruct (retryCount cur !! p) as [k|] eqn:Hk.
      * rewrite or_zero_Some. specialize (Hpos _ _ Hk). lia.
      * cbn. lia.
  - intros ps' Hps'. unfold markFilesSucceeded in Hps'.
    destruct (partialSync state) as [ps|] eqn:Hps; [|congruence].
    destruct (Hstate ps eq_refl) as (Hnd & Hdom & Hpos).
    cbn [partialSync with_partialSync] in Hps'.
    destruct (0 <? _) eqn:Hlen in Hps'; [|discriminate].
    injection Hps' as <-. unfold consistent. cbn [failedFiles retryCount]. split; [split; [|split]|].
    + now apply NoDup_filter_keeps.
    + intros p. rewrite filter_not_included_elem, delete_loop_lookup.
      case_bool_decide as Hin.
      * split; [tauto | intros [? ?]; discriminate].
      * rewrite Hdom. tauto.
    + intros p n. rewrite delete_loop_lookup.
      case_bool_decide; [discriminate | apply Hpos].
    + intros Hnil. rewrite Hnil in Hlen. discriminate.
Qed.

Lemma partialSync_stays_consistent_witness :
  (forall ps, partialSync (markFilesFailed 1 emptyState ["a.md"; "b.md"]%string)
              = Some ps -> consistent ps) /\
  (forall ps,
     partialSync (markFilesSucceeded
                    (markFilesFailed 1 emptyState ["a.md"; "b.md"]%string)
                    ["a.md"]%string) = Some ps ->
     consistent ps /\ failedFiles ps <> []).
Proof.
  assert (forall ps, partialSync emptyState = Some ps -> consistent ps) as H0
    by (intros ps; discriminate).
  pose proof (proj1 (partialSync_stays_consistent 1 emptyState
                       ["a.md"; "b.md"]%string H0)
                ltac:(repeat constructor)) as H1.
  split; [exact H1|].
  exact (proj2 (partialSync_stays_consistent 2 _ ["a.md"]%string H1)).
Defined.

Lemma failTimes_record (n : nat) (now : Z) (state : FileState) (path : string) :
  partialSync state = None ->
  failTimes (S n) now state path
  = with_partialSync state
      (Some {| failedFiles := [path];
               retryCount := {[ path := Z.of_nat (S n) ]};
               lastFailure := now |}).
Proof.
  intros Hnone. unfold failTimes.
  induction n as [|n IH].
  - unfold Nat.iter. cbn [nat_rect]. unfold markFilesFailed. rewrite Hnone.
    cbn [failedFiles retryCount app foldl]. unfold Set_spread.
    cbn [Set_spread_from].
    rewrite bool_decide_eq_false_2 by apply not_elem_of_nil.
    rewrite lookup_empty, insert_empty. reflexivity.
  - rewrite Nat.iter_succ, IH. unfold markFilesFailed.
    cbn [partialSync with_partialSync failedFiles retryCount app foldl].
    unfold Set_spread. cbn [Set_spread_from].
    rewrite bool_decide_eq_false_2 by apply not_elem_of_nil.
    rewrite bool_decide_eq_true_2 by set_solver.
    rewrite lookup_singleton_eq, insert_singleton_eq, or_zero_Some.
    unfold with_partialSync. cbn. do 4 f_equal. lia.
Qed.

Lemma consistent_single (path : string) (n : Z) (now : Z) :
  1 <= n ->
  consistent {| failedFiles := [path]; retryCount := {[ path := n ]};
                lastFailure := now |}.
Proof.
  intros Hn. split; [|split]; cbn.
  - apply NoDup_singleton.
  - intros p. rewrite list_elem_of_singleton. split.
    + intros ->. rewrite lookup_singleton_eq. eauto.
    + intros [k Hk]. apply lookup_singleton_Some in Hk. symmetry. tauto.
  - intros p k Hk. apply lookup_singleton_Some in Hk as [_ <-]. exact Hn.
Qed.

(** X2.  Marking paths as failed and then the same paths as succeeded
    undoes the bookkeeping: a state without a retry record is returned
    unchanged, and a consistent record that names none of the paths gets
    back its failed files and retry counts, only its [lastFailure] moved
    to the time of the failure. *)
Theorem markFilesSucceeded_undoes_markFilesFailed
    (now : Z) (state : FileState) (paths : list string)
    (Hstate : forall ps, partialSync state = Some ps ->
        consistent ps /\ failedFiles ps <> [] /\
        (forall p, p ∈ paths -> p ∉ failedFiles ps)) :
  markFilesSucceeded (markFilesFailed now state paths) paths
  = match partialSync state with
    | None => state
    | Some ps =>
        with_partialSync state
          (Some {| failedFiles := failedFiles ps;
                   retryCount := retryCount ps;
                   lastFailure := now |})
    end.
Proof.
  unfold markFilesSucceeded, markFilesFailed. cbn.
  destruct (partialSync state) as [ps|] eqn:Hps.
  - destruct (Hstate ps eq_refl) as ((Hnd & Hdom & Hpos) & Hne & Hdisj).
    unfold Set_spread. rewrite Set_spread_from_app.
    rewrite (Set_spread_from_NoDup_id [] (failedFiles ps))
      by (try exact Hnd; intros; apply not_elem_of_nil).
    rewrite List.filter_app.
    rewrite filter_not_included_none
      by (intros p Hp Hp'; exact (Hdisj p Hp' Hp)).
    rewrite filter_not_included_all
      by (intros p Hp; apply Set_spread_from_elem in Hp; tauto).
    rewrite app_nil_r.
    destruct (failedFiles ps) as [|f r] eqn:Hf; [congruence|].
    cbn [length Z.ltb Z.of_nat Z.compare]. unfold with_partialSync. cbn.
    f_equal. f_equal. f_equal.
    apply map_eq. intros p. rewrite delete_loop_lookup, retry_loop_lookup.
    case_bool_decide as Hin; [|reflexivity].
    symmetry. apply eq_None_not_Some. rewrite <- Hdom.
    apply Hdisj. exact Hin.
  - unfold Set_spread. cbn [app].
    rewrite filter_not_included_all
      by (intros p Hp; apply Set_spread_from_elem in Hp; tauto).
    cbn. unfold with_partialSync. cbn.
    destruct state; cbn in Hps |- *. now rewrite Hps.
Qed.

Lemma markFilesSucceeded_undoes_markFilesFailed_witness :
  markFilesSucceeded
    (markFilesFailed 5 (failTimes 1 2 emptyState "c.md") ["a.md"; "b.md"; "a.md"]%string)
    ["a.md"; "b.md"; "a.md"]%string
  = with_partialSync emptyState
      (Some {| failedFiles := ["c.md"%string];
               retryCount := {[ "c.md"%string := 1 ]};
               lastFailure := 5 |}).
Proof.
  apply (markFilesSucceeded_undoes_markFilesFailed 5
           (failTimes 1 2 emptyState "c.md")).
  intros ps. rewrite failTimes_record by reflexivity.
  cbn [partialSync with_partialSync]. intros [= <-].
  split; [apply consistent_single; lia|].
  cbn [failedFiles]. split; [discriminate|].
  intros p Hp Hc. apply list_elem_of_singleton in Hc. subst p.
  revert Hp. rewrite !elem_of_cons, elem_of_nil.
  intros [H|[H|[H|[]]]]; discriminate H.
Defined.

(** X3.  The retry budget: on a state without a retry record, after [n]
    sync failures of one file (each call naming it once) the file is
    offered for retry exactly while [1 <= n < maxRetries], and then it is
    the only file offered; with no failure, or once the count has reached
    [maxRetries], nothing is offered.  This is for a path that is no key
    of [Object.prototype] and for a budget up to [2^53]. *)
Theorem getRetryableFiles_after_failures
    (n : nat) (now : Z) (state : FileState) (path : string) (maxRetries : Z)
    (Hnone : partialSync state = None)
    (Hkey : inherited path = false)
    (Hmax : maxRetries <= 2 ^ 53) :
  getRetryableFiles (failTimes n now state path) maxRetries
  = if (0 <? Z.of_nat n) && (Z.of_nat n <? maxRetries) then [path] else [].
Proof.
  destruct n as [|n].
  - unfold failTimes, getRetryableFiles, Nat.iter. cbn [nat_rect]. now rewrite Hnone.
  - rewrite failTimes_record by exact Hnone.
    unfold getRetryableFiles.
    cbn [partialSync with_partialSync failedFiles retryCount List.filter].
    rewrite lookup_singleton_eq, or_zero_Some.
    replace (0 <? Z.of_nat (S n)) with true by (symmetry; apply Z.ltb_lt; lia).
    reflexivity.
Qed.

Lemma getRetryableFiles_after_failures_witness :
  getRetryableFiles (failTimes 2 7 emptyState "a.md") 3 = ["a.md"%string] /\
  getRetryableFiles (failTimes 3 7 emptyState "a.md") 3 = [].
Proof.
  split.
  - exact (getRetryableFiles_after_failures 2 7 emptyState "a.md" 3 eq_refl
             eq_refl ltac:(lia)).
  - exact (getRetryableFiles_after_failures 3 7 emptyState "a.md" 3 eq_refl
             eq_refl ltac:(lia)).
Defined.

(* ------------------------------------------------------------------ *)
(** ** Verification clock (src/delta.ts) *)

Lemma hours_at_least_24 (d : Z) :
  Qle_bool 24 (asQ d / asQ (1000 * 60 * 60))%Q = true <-> msPerDay <= d.
Proof.
  unfold msPerDay, asQ. rewrite Qle_bool_iff.
  change 24%Q with (inject_Z 24).
  split.
  - intros H.
    apply (Qmult_le_compat_r _ _ (inject_Z (1000 * 60 * 60))) in H; [|discriminate].
    rewrite Qmult_comm in H. unfold Qdiv in H.
    rewrite <- Qmult_assoc, (Qmult_comm (/ _)), Qmult_inv_r, Qmult_1_r in H
      by discriminate.
    rewrite <- inject_Z_mult, <- Zle_Qle in H. lia.
  - intros H. apply Qle_shift_div_l; [reflexivity|].
    rewrite <- inject_Z_mult, <- Zle_Qle. lia.
Qed.

(** X4.  Recording a verification at time [now] resets the daily clock
    whatever the reported status and findings: afterwards
    [needsVerification] answers true exactly from 24 hours after [now]
    on (so not at [now] itself), and the files, the last sync time, the
    version and the retry record are untouched. *)
Theorem updateVerificationState_resets_clock
    (now later : Z) (state : FileState) (status : VerificationStatus)
    (found : option (list string * list string)) :
  let state' := updateVerificationState now state status found in
  (needsVerification later state' = true <-> msPerDay <= later - now) /\
  needsVerification now state' = false /\
  files state' = files state /\
  lastSync state' = lastSync state /\
  version state' = version state /\
  partialSync state' = partialSync state.
Proof.
  cbn zeta. split; [|split; [|repeat split]].
  - unfold needsVerification, updateVerificationState.
    cbn [chromaState with_chromaState lastVerification].
    apply hours_at_least_24.
  - unfold needsVerification, updateVerificationState.
    cbn [chromaState with_chromaState lastVerification].
    apply not_true_is_false. rewrite hours_at_least_24.
    unfold msPerDay. lia.
Qed.

(* ------------------------------------------------------------------ *)
(** ** Comparing two states (src/delta.ts, areStatesEqual) *)

Lemma sortedKeys_elem (m : gmap string FileMetadata) (p : string) :
  p ∈ sortedKeys m <-> is_Some (m !! p).
Proof.
  unfold sortedKeys. rewrite merge_sort_Permutation, list_elem_of_fmap.
  split.
  - intros [[k v] [-> H]]. apply elem_of_map_to_list in H. cbn. eauto.
  - intros [v H]. exists (p, v). split; [reflexivity|].
    now apply elem_of_map_to_list.
Qed.

Lemma sortedKeys_same_domain (m1 m2 : gmap string FileMetadata) :
  (forall p, is_Some (m1 !! p) <-> is_Some (m2 !! p)) ->
  sortedKeys m1 = sortedKeys m2.
Proof.
  intros H. unfold sortedKeys.
  apply (Sorted_unique String.le); try apply Sorted_merge_sort; try apply _.
  rewrite !merge_sort_Permutation.
  apply NoDup_Permutation; try apply NoDup_fst_map_to_list.
  intros p. pose proof (sortedKeys_elem m1 p) as H1.
  pose proof (sortedKeys_elem m2 p) as H2.
  unfold sortedKeys in H1, H2. rewrite merge_sort_Permutation in H1, H2.
  rewrite H1, H2. apply H.
Qed.

Lemma comparePaths_true (files1 files2 : gmap string FileMetadata)
    (paths1 paths2 : list string) :
  length paths1 = length paths2 ->
  comparePaths files1 files2 paths1 paths2 = true ->
  paths1 = paths2 /\
  forall p, p ∈ paths1 ->
    exists file1 file2,
      files1 !! p = Some file1 /\ files2 !! p = Some file2 /\
      fm_hash file1 = fm_hash file2 /\ fm_mtime file1 = fm_mtime file2.
Proof.
  revert paths2. induction paths1 as [|p1 r1 IH]; intros [|p2 r2] Hlen H;
    try discriminate.
  - split; [reflexivity|]. intros p Hp. now apply elem_of_nil in Hp.
  - cbn [comparePaths] in H.
    destruct (String.eqb_spec p1 p2) as [<-|]; [|discriminate].
    cbn [negb] in H.
    destruct (files1 !! p1) as [file1|] eqn:H1; [|discriminate].
    destruct (files2 !! p1) as [file2|] eqn:H2; [|discriminate].
    destruct (String.eqb_spec (fm_hash file1) (fm_hash file2)) as [Hh|];
      [|discriminate].
    destruct (Z.eqb_spec (fm_mtime file1) (fm_mtime file2)) as [Hm|];
      [|discriminate].
    cbn [negb orb] in H.
    destruct (IH r2) as [-> Hrest]; [now injection Hlen | exact H |].
    split; [reflexivity|].
    intros p Hp. apply elem_of_cons in Hp as [->|Hp]; [|now apply Hrest].
    exists file1, file2. tauto.
Qed.

Lemma comparePaths_same (state1 state2 : FileState) (paths : list string) :
  (forall p, p ∈ paths -> is_Some (files state1 !! p)) ->
  (forall p, sameFingerprint state1 state2 p) ->
  comparePaths (files state1) (files state2) paths paths = true.
Proof.
  intros Hin Hsame. induction paths as [|p r IH]; [reflexivity|].
  cbn [comparePaths]. rewrite String.eqb_refl. cbn [negb].
  specialize (Hsame p) as Hp. unfold sameFingerprint in Hp.
  destruct (Hin p) as [file1 H1]; [left|]. rewrite H1 in Hp |- *.
  destruct (files state2 !! p) as [file2|]; [|contradiction].
  destruct Hp as [-> ->]. rewrite String.eqb_refl, Z.eqb_refl. cbn [negb orb].
  apply IH. intros q Hq. apply Hin. now right.
Qed.

(** X5.  [areStatesEqual] answers true exactly when the two states
    track the same paths and agree, path by path, on hash and
    modification time; file sizes, the last sync time, the version and
    the retry and verification records play no part. *)
Theorem areStatesEqual_iff (state1 state2 : FileState) :
  areStatesEqual state1 state2 = true <->
  forall path, sameFingerprint state1 state2 path.
Proof.
  unfold areStatesEqual. split.
  - destruct (len _ =? len _) eqn:Hlen; [|discriminate]. cbn [negb].
    intros H. apply comparePaths_true in H as [Hkeys Hall].
    2:{ apply Z.eqb_eq in Hlen. unfold len in Hlen. lia. }
    intros path. unfold sameFingerprint.
    destruct (decide (path ∈ sortedKeys (files state1))) as [Hin|Hout].
    + destruct (Hall path Hin) as (file1 & file2 & -> & -> & H). exact H.
    + assert (files state1 !! path = None) as ->.
      { apply eq_None_not_Some. now rewrite <- sortedKeys_elem. }
      assert (files state2 !! path = None) as ->.
      { apply eq_None_not_Some. now rewrite <- sortedKeys_elem, <- Hkeys. }
      exact I.
  - intros Hsame.
    assert (sortedKeys (files state1) = sortedKeys (files state2)) as Hkeys.
    { apply sortedKeys_same_domain. intros p.
      specialize (Hsame p). unfold sameFingerprint in Hsame.
      destruct (files state1 !! p), (files state2 !! p);
        try contradiction; split; eauto. }
    rewrite <- Hkeys, Z.eqb_refl. cbn [negb].
    apply comparePaths_same; [|exact Hsame].
    intros p. apply sortedKeys_elem.
Qed.

(* ------------------------------------------------------------------ *)
(** ** Sessions across a restart (src/sync-state.ts) *)

Lemma sessionFile_abort (m : Manager) : sessionFile (abort m) = sessionFile m.
Proof. unfold abort. now destruct (abortController m). Qed.

Lemma initializeSession_resumes_stored (now : Z) (random : string)
    (actions : list DeltaAction) (size : Z) (m : Manager) (s : SyncSession) :
  sessionFile m = Some (Document (encodeSession s)) ->
  NoDup (processedIds s) ->
  sess_state s = paused ->
  remainingActions s <> [] ->
  initializeSession now random actions size m
  = Some (resumedSession s now size,
          saveSession (with_controller
            (with_session m (Some (resumedSession s now size))) (Some false))).
Proof.
  intros Hfile Hnd Hpaused Hwork. unfold initializeSession.
  destruct (loadSession_saved m s Hfile Hnd) as (l & -> & Hstate & Hlen & Hs).
  rewrite Hstate, Hpaused.
  change (String.eqb paused paused) with true. cbn [andb].
  assert (Hpos : (0 <? len (loadedRemaining l)) = true).
  { unfold len. rewrite Hlen. apply Z.ltb_lt.
    destruct (remainingActions s); [congruence | cbn; lia]. }
  rewrite Hpos, Hs. reflexivity.
Qed.

(** X6.  A paused sync survives a restart.  When a running session with
    work left is paused and a new manager is created over the session
    file, [initializeSession] ignores the actions it is given and resumes
    the stored session: same id, start time, counters, queue, processed
    ids and errors, the pause stamp kept, running again with the resume
    time and the batch size of the new call; the next batch is cut from
    the stored queue. *)
Theorem paused_session_survives_restart
    (pausedAt now : Z) (random : string) (actions : list DeltaAction)
    (size : Z) (m : Manager) (s : SyncSession)
    (Hs : currentSession m = Some s)
    (Hrunning : sess_state s = running)
    (Hids : NoDup (processedIds s))
    (Hwork : remainingActions s <> []) :
  exists m1 m2,
    pauseSession pausedAt m = (true, m1) /\
    initializeSession now random actions size (newManager (sessionFile m1))
    = Some (resumedSession (set_state s paused (Some pausedAt) (resumeTime s))
              now size, m2) /\
    currentSession m2
    = Some (resumedSession (set_state s paused (Some pausedAt) (resumeTime s))
              now size) /\
    getNextBatch m2
    = (Array_slice0 size (remainingActions s), size <? len (remainingActions s)).
Proof.
  unfold pauseSession. rewrite Hs, Hrunning.
  change (String.eqb running running) with true. cbn iota.
  eexists _, _. split; [reflexivity|].
  rewrite sessionFile_abort.
  set (sp := set_state s paused (Some pausedAt) (resumeTime s)).
  rewrite (initializeSession_resumes_stored now random actions size _ sp);
    [| reflexivity | exact Hids | reflexivity | exact Hwork].
  split; [reflexivity|]. split; reflexivity.
Qed.

Lemma paused_session_survives_restart_witness :
  exists m1 m2 s',
    pauseSession 1500 (processBatch 1100 (startedManager 5 2)) = (true, m1) /\
    initializeSession 9000 "zz" [] 3 (newManager (sessionFile m1)) = Some (s', m2) /\
    processedActions s' = 2 /\
    fst (getNextBatch m2) = [testAction 2; testAction 3; testAction 4].
Proof.
  destruct (currentSession (processBatch 1100 (startedManager 5 2)))
    as [s|] eqn:Hs; [|vm_compute in Hs; discriminate].
  assert (sess_state s = running) as Hrun
    by (vm_compute in Hs; injection Hs as <-; reflexivity).
  assert (NoDup (processedIds s)) as Hids.
  { vm_compute in Hs; injection Hs as <-. cbn [processedIds].
    apply (bool_decide_unpack (NoDup _)). vm_compute. exact I. }
  assert (remainingActions s <> []) as Hwork
    by (vm_compute in Hs; injection Hs as <-; discriminate).
  destruct (paused_session_survives_restart 1500 9000 "zz" [] 3 _ s
              Hs Hrun Hids Hwork) as (m1 & m2 & H1 & H2 & H3 & H4).
  exists m1, m2. eexists. split; [exact H1|]. split; [exact H2|].
  rewrite H4. vm_compute in Hs; injection Hs as <-. split; reflexivity.
Defined.

Lemma loadSession_saved_state (m : Manager) (s : SyncSession) :
  sessionFile m = Some (Document (encodeSession s)) ->
  exists l,
    loadSession m = (Some l, m) /\
    loadedState l = sess_state s /\
    List.length (loadedRemaining l) = List.length (remainingActions s).
Proof.
  intros Hfile. unfold loadSession.
  rewrite Hfile, isValidSession_encodeSession. cbn [negb].
  assert (Hids : member "processedIds" (encodeSession s)
                 = Some (JArr (JStr <$> processedIds s))).
  { destruct s as [? ? ? [?|] [?|] ? ? ? ? ? ? ?]; reflexivity. }
  rewrite Hids. cbn [setElements truthy].
  eexists. split; [reflexivity|].
  destruct s as [? ? ? [?|] [?|] ? ? ? ? ? ? ?];
    unfold loadedState, loadedRemaining; cbn; now rewrite length_fmap.
Qed.

(** X7.  Only a paused session with work left is resumed.  When the file
    holds a session written by [saveSession] that is not paused (for
    instance one that was running when the application quit), or whose
    queue is empty, [initializeSession] starts a fresh session over the
    given actions with nothing processed, and overwrites the file with
    it. *)
Theorem initializeSession_replaces_stale_session
    (now : Z) (random : string) (actions : list DeltaAction) (size : Z)
    (m : Manager) (s : SyncSession)
    (Hfile : sessionFile m = Some (Document (encodeSession s)))
    (Hstale : sess_state s <> paused \/ remainingActions s = []) :
  exists m',
    initializeSession now random actions size m
    = Some (freshSession now random actions size, m') /\
    currentSession m' = Some (freshSession now random actions size) /\
    sessionFile m'
    = Some (Document (encodeSession (freshSession now random actions size))) /\
    abortController m' = Some false.
Proof.
  unfold initializeSession.
  destruct (loadSession_saved_state m s Hfile) as (l & -> & Hstate & Hlen).
  assert (String.eqb (loadedState l) paused && (0 <? len (loadedRemaining l))
          = false) as ->.
  { apply andb_false_iff. destruct Hstale as [Hst|Hnil].
    - left. apply String.eqb_neq. now rewrite Hstate.
    - right. unfold len. rewrite Hlen, Hnil. reflexivity. }
  eexists. split; [reflexivity|]. repeat split.
Qed.

Lemma initializeSession_replaces_stale_session_witness :
  exists m',
    initializeSession 9000 "zz" (createTestActions 3) 2
      (newManager (sessionFile (processBatch 1100 (startedManager 5 2))))
    = Some (freshSession 9000 "zz" (createTestActions 3) 2, m').
Proof.
  destruct (currentSession (processBatch 1100 (startedManager 5 2)))
    as [s|] eqn:Hs; [|vm_compute in Hs; discriminate].
  destruct (initializeSession_replaces_stale_session 9000 "zz"
              (createTestActions 3) 2
              (newManager (sessionFile (processBatch 1100 (startedManager 5 2)))) s)
    as (m' & H & _).
  - vm_compute in Hs. injection Hs as <-. reflexivity.
  - left. vm_compute in Hs. injection Hs as <-. discriminate.
  - exists m'. exact H.
Defined.

(* ------------------------------------------------------------------ *)
(** ** Batches (src/sync-state.ts, getNextBatch / completeBatch) *)

Lemma Array_slice0_firstn {A} (n : Z) (xs : list A) :
  0 <= n -> Array_slice0 n xs = firstn (Z.to_nat n) xs.
Proof.
  intros Hn. unfold Array_slice0, len.
  destruct (Z.ltb_spec n 0); [lia|].
  destruct (Z.min_spec n (Z.of_nat (length xs))) as [[_ ->]|[Hle ->]];
    [reflexivity|].
  rewrite Nat2Z.id, firstn_all. symmetry. apply firstn_all2. lia.
Qed.

Lemma Array_slice_skipn {A} (n : Z) (xs : list A) :
  0 <= n -> Array_slice n xs = skipn (Z.to_nat n) xs.
Proof.
  intros Hn. unfold Array_slice, len.
  destruct (Z.ltb_spec n 0); [lia|].
  destruct (Z.min_spec n (Z.of_nat (length xs))) as [[_ ->]|[Hle ->]];
    [reflexivity|].
  rewrite Nat2Z.id, skipn_all. symmetry. apply skipn_all2. lia.
Qed.

Lemma len_nonneg {A} (l : list A) : 0 <= len l.
Proof. unfold len. lia. Qed.

Lemma len_firstn {A} (n : nat) (l : list A) :
  len (firstn n l) = Z.min (Z.of_nat n) (len l).
Proof. unfold len. rewrite length_firstn. lia. Qed.

Lemma len_skipn {A} (n : nat) (l : list A) :
  len (skipn n l) = Z.max 0 (len l - Z.of_nat n).
Proof. unfold len. rewrite length_skipn. lia. Qed.

(** X8.  Batches partition the queue.  In a running session with a
    positive batch size, after [k] rounds of taking the next batch and
    completing it, the queue is the original one without its first
    [k * batchSize] actions, the processed count has grown by the number
    of actions taken (all of them once the queue is exhausted), and the
    next batch is the following [batchSize] actions, with [hasMore] set
    exactly while more than one batch remains. *)
Theorem batches_partition_the_queue
    (k : nat) (now : Z) (m : Manager) (s : SyncSession)
    (Hs : currentSession m = Some s)
    (Hrunning : sess_state s = running)
    (Hsize : 0 < batchSize s) :
  let b := Z.to_nat (batchSize s) in
  let mk := Nat.iter k (processBatch now) m in
  exists sk,
    currentSession mk = Some sk /\
    remainingActions sk = skipn (k * b) (remainingActions s) /\
    processedActions sk
    = processedActions s
      + Z.min (Z.of_nat k * batchSize s) (len (remainingActions s)) /\
    getNextBatch mk
    = (firstn b (skipn (k * b) (remainingActions s)),
       (Z.of_nat k + 1) * batchSize s <? len (remainingActions s)).
Proof.
  cbn zeta.
  assert (exists sk,
    currentSession (Nat.iter k (processBatch now) m) = Some sk /\
    sess_state sk = running /\ batchSize sk = batchSize s /\
    remainingActions sk
    = skipn (k * Z.to_nat (batchSize s)) (remainingActions s) /\
    processedActions sk
    = processedActions s
      + Z.min (Z.of_nat k * batchSize s) (len (remainingActions s)))
    as (sk & Hk & Hst & Hb & Hrem & Hproc).
  { induction k as [|k IH].
    - exists s. unfold Nat.iter. cbn [nat_rect].
      split; [exact Hs|]. split; [exact Hrunning|]. split; [reflexivity|].
      split; [reflexivity|]. pose proof (len_nonneg (remainingActions s)). lia.
    - destruct IH as (sk & Hk & Hst & Hb & Hrem & Hproc).
      rewrite Nat.iter_succ.
      set (mk := Nat.iter k (processBatch now) m) in *.
      unfold processBatch, getNextBatch, completeBatch. rewrite Hk, Hst.
      change (String.eqb running running) with true. cbn [fst].
      eexists. split; [reflexivity|].
      cbn [sess_state batchSize remainingActions processedActions].
      split; [reflexivity|]. split; [exact Hb|].
      rewrite Hb, Array_slice0_firstn by lia.
      rewrite Array_slice_skipn by apply len_nonneg.
      rewrite len_firstn, Z2Nat.id by lia.
      rewrite Hrem, Hproc, len_skipn.
      pose proof (len_nonneg (remainingActions s)) as Hlen.
      split.
      + rewrite skipn_skipn. 
        destruct (Z.le_gt_cases (batchSize s)
                    (Z.max 0 (len (remainingActions s)
                              - Z.of_nat (k * Z.to_nat (batchSize s))))) as [Hle|Hgt].
        * rewrite Z.min_l by lia. f_equal; lia.
        * rewrite Z.min_r by lia.
          rewrite !skipn_all2; [reflexivity|..]; unfold len in *; nia.
      + nia. }
  exists sk. split; [exact Hk|]. split; [exact Hrem|]. split; [exact Hproc|].
  unfold getNextBatch. rewrite Hk, Hst.
  change (String.eqb running running) with true. cbn iota.
  rewrite Hb, Hrem, Array_slice0_firstn by lia. f_equal.
  rewrite len_skipn.
  pose proof (len_nonneg (remainingActions s)) as Hlen.
  destruct (Z.ltb_spec (batchSize s)
              (Z.max 0 (len (remainingActions s)
                        - Z.of_nat (k * Z.to_nat (batchSize s)))));
    symmetry; [apply Z.ltb_lt | apply Z.ltb_ge]; nia.
Qed.

Lemma batches_partition_the_queue_witness :
  exists s2,
    currentSession (Nat.iter 2 (processBatch 1100) (startedManager 5 2)) = Some s2 /\
    remainingActions s2 = [testAction 4] /\
    processedActions s2 = 4 /\
    getNextBatch (Nat.iter 2 (processBatch 1100) (startedManager 5 2))
    = ([testAction 4], false).
Proof.
  destruct (currentSession (startedManager 5 2)) as [s|] eqn:Hs;
    [|vm_compute in Hs; discriminate].
  assert (sess_state s = running) as Hrun
    by (vm_compute in Hs; injection Hs as <-; reflexivity).
  assert (0 < batchSize s) as Hsize
    by (vm_compute in Hs; injection Hs as <-; reflexivity).
  destruct (batches_partition_the_queue 2 1100 _ s Hs Hrun Hsize)
    as (s2 & H1 & H2 & H3 & H4).
  exists s2. split; [exact H1|].
  rewrite H2, H3, H4. vm_compute in Hs. injection Hs as <-.
  repeat split.
Defined.

Lemma Set_add_elem (ids : list string) (x y : string) :
  y ∈ Set_add ids x <-> y ∈ ids \/ y = x.
Proof.
  unfold Set_add. case_bool_decide as Hx.
  - split; [tauto | intros [H| ->]; assumption].
  - rewrite elem_of_app, list_elem_of_singleton. reflexivity.
Qed.

Lemma Set_add_NoDup (ids : list string) (x : string) :
  NoDup ids -> NoDup (Set_add ids x).
Proof.
  intros Hnd. unfold Set_add. case_bool_decide as Hx; [exact Hnd|].
  apply NoDup_app. split; [exact Hnd|]. split; [|apply NoDup_singleton].
  intros y Hy Hy'. apply list_elem_of_singleton in Hy'. now subst.
Qed.

Lemma Set_add_all (completed : list DeltaAction) (ids : list string) :
  NoDup ids ->
  NoDup (foldl (fun ids a => Set_add ids (act_id a)) ids completed) /\
  forall x,
    x ∈ foldl (fun ids a => Set_add ids (act_id a)) ids completed
    <-> x ∈ ids \/ x ∈ act_id <$> completed.
Proof.
  revert ids. induction completed as [|a r IH]; intros ids Hnd; cbn [foldl].
  - split; [exact Hnd|]. intros x. rewrite fmap_nil, elem_of_nil. tauto.
  - destruct (IH (Set_add ids (act_id a)) (Set_add_NoDup _ _ Hnd)) as [H1 H2].
    split; [exact H1|]. intros x.
    rewrite H2, Set_add_elem, fmap_cons, elem_of_cons. tauto.
Qed.

(** X9.  Completing the first [n] actions of the queue keeps the books:
    the completed actions followed by the new queue are the old queue,
    processed plus queued still add up to the total, the processed ids
    are the old ones together with the ids of the completed actions, with
    no id twice, and the state and the errors are untouched. *)
Theorem completeBatch_keeps_the_books
    (now : Z) (n : nat) (m : Manager) (s : SyncSession)
    (Hs : currentSession m = Some s)
    (Hids : NoDup (processedIds s))
    (Hsum : conserved s) :
  let completed := firstn n (remainingActions s) in
  exists s',
    currentSession (completeBatch now completed m) = Some s' /\
    completed ++ remainingActions s' = remainingActions s /\
    conserved s' /\
    NoDup (processedIds s') /\
    (forall x, x ∈ processedIds s' <->
               x ∈ processedIds s \/ x ∈ act_id <$> completed) /\
    sess_state s' = sess_state s /\
    sess_errors s' = sess_errors s /\
    lastCheckpointTime s' = now.
Proof.
  cbn zeta. unfold completeBatch. rewrite Hs.
  eexists. split; [reflexivity|].
  cbn [remainingActions processedIds sess_state sess_errors lastCheckpointTime].
  destruct (Set_add_all (firstn n (remainingActions s)) _ Hids) as [H1 H2].
  rewrite Array_slice_skipn by apply len_nonneg.
  assert (Z.to_nat (len (firstn n (remainingActions s)))
          = length (firstn n (remainingActions s))) as ->
    by (unfold len; apply Nat2Z.id).
  assert (skipn (length (firstn n (remainingActions s))) (remainingActions s)
          = skipn n (remainingActions s)) as Hskip.
  { rewrite length_firstn.
    destruct (Nat.le_gt_cases n (length (remainingActions s))).
    - now rewrite Nat.min_l.
    - rewrite Nat.min_r by lia. rewrite !skipn_all2; [reflexivity|lia|lia]. }
  rewrite Hskip.
  split; [apply firstn_skipn|].
  split.
  { unfold conserved in *.
    cbn [processedActions remainingActions totalActions].
    rewrite <- Hsum. unfold len.
    pose proof (f_equal (@length _) (firstn_skipn n (remainingActions s))) as Hl.
    rewrite length_app in Hl. lia. }
  split; [exact H1|]. split; [exact H2|]. repeat split.
Qed.

Lemma completeBatch_keeps_the_books_witness :
  exists s',
    currentSession (completeBatch 1100 [testAction 0; testAction 1]
                      (startedManager 5 2)) = Some s' /\
    [testAction 0; testAction 1] ++ remainingActions s'
    = createTestActions 5 /\
    conserved s'.
Proof.
  destruct (currentSession (startedManager 5 2)) as [s|] eqn:Hs;
    [|vm_compute in Hs; discriminate].
  assert (NoDup (processedIds s)) as Hids
    by (vm_compute in Hs; injection Hs as <-; constructor).
  assert (conserved s) as Hsum
    by (vm_compute in Hs; injection Hs as <-; reflexivity).
  destruct (completeBatch_keeps_the_books 1100 2 _ s Hs Hids Hsum)
    as (s' & H1 & H2 & H3 & _).
  vm_compute in Hs. injection Hs as <-.
  exists s'. split; [exact H1|]. split; [exact H2 | exact H3].
Defined.

(* ------------------------------------------------------------------ *)
(** ** Pausing, resuming and stopping (src/sync-state.ts) *)

(** X10.  Pause and resume are inverse on the work.  Pausing a running
    session succeeds, stamps the pause time, aborts the controller in
    place and stops the supply of batches; a second pause is refused and
    changes nothing.  Resuming afterwards succeeds, installs a controller
    that is not aborted and offers the batch that was offered before the
    pause; resuming a session that is not paused is refused. *)
Theorem pause_resume_cycle
    (pausedAt resumedAt : Z) (m : Manager) (s : SyncSession)
    (Hs : currentSession m = Some s)
    (Hrunning : sess_state s = running) :
  exists m1 m2,
    pauseSession pausedAt m = (true, m1) /\
    currentSession m1 = Some (set_state s paused (Some pausedAt) (resumeTime s)) /\
    abortController m1
    = match abortController m with Some _ => Some true | None => None end /\
    getNextBatch m1 = ([], false) /\
    pauseSession resumedAt m1 = (false, m1) /\
    resumeSession resumedAt m = (false, m) /\
    resumeSession resumedAt m1 = (true, m2) /\
    currentSession m2
    = Some (set_state s running (Some pausedAt) (Some resumedAt)) /\
    abortController m2 = Some false /\
    getNextBatch m2 = getNextBatch m.
Proof.
  unfold pauseSession at 1. rewrite Hs, Hrunning.
  change (String.eqb running running) with true. cbn iota.
  eexists _, _. split; [reflexivity|].
  split; [now rewrite currentSession_abort|].
  split; [clear; destruct m as [cs f [a|]]; reflexivity|].
  split; [unfold getNextBatch; now rewrite currentSession_abort|].
  split; [unfold pauseSession; now rewrite currentSession_abort|].
  split.
  { unfold resumeSession. rewrite Hs, Hrunning. reflexivity. }
  unfold resumeSession at 1. rewrite currentSession_abort.
  cbn [saveSession with_session currentSession with_file sess_state set_state].
  change (String.eqb paused paused) with true. cbn iota.
  split; [reflexivity|]. split; [reflexivity|]. split; [reflexivity|].
  unfold getNextBatch. rewrite Hs, Hrunning. reflexivity.
Qed.

Lemma pause_resume_cycle_witness :
  exists m1 m2,
    pauseSession 1500 (startedManager 5 2) = (true, m1) /\
    getNextBatch m1 = ([], false) /\
    resumeSession 1600 m1 = (true, m2) /\
    getNextBatch m2 = ([testAction 0; testAction 1], true).
Proof.
  destruct (currentSession (startedManager 5 2)) as [s|] eqn:Hs;
    [|vm_compute in Hs; discriminate].
  assert (sess_state s = running) as Hrun
    by (vm_compute in Hs; injection Hs as <-; reflexivity).
  destruct (pause_resume_cycle 1500 1600 _ s Hs Hrun)
    as (m1 & m2 & H1 & _ & _ & H2 & _ & _ & H3 & _ & _ & H4).
  exists m1, m2. split; [exact H1|]. split; [exact H2|]. split; [exact H3|].
  rewrite H4. reflexivity.
Defined.

Lemma perform_keeps_clock (operation : Operation) (m : Manager) (s : SyncSession) :
  currentSession m = Some s ->
  exists s',
    currentSession (perform m operation) = Some s' /\
    startTime s' = startTime s /\ pauseTime s' = pauseTime s.
Proof.
  intros Hs. destruct operation as [now|now|error]; cbn [perform].
  - unfold resumeSession. rewrite Hs.
    destruct (String.eqb (sess_state s) paused); cbn [snd]; [|eauto].
    rewrite currentSession_saveSession. eexists. split; [reflexivity|].
    now split.
  - unfold processBatch, completeBatch. rewrite Hs.
    rewrite currentSession_saveSession. eexists. split; [reflexivity|].
    now split.
  - unfold addError. rewrite Hs.
    rewrite currentSession_saveSession. eexists. split; [reflexivity|].
    now split.
Qed.

Lemma performAll_keeps_clock (operations : list Operation) :
  forall (m : Manager) (s : SyncSession),
    currentSession m = Some s ->
    exists s',
      currentSession (performAll operations m) = Some s' /\
      startTime s' = startTime s /\ pauseTime s' = pauseTime s.
Proof.
  induction operations as [|operation rest IH]; intros m s Hs.
  - exists s. now split.
  - destruct (perform_keeps_clock operation m s Hs) as (s1 & H1 & Hstart & Hpause).
    destruct (IH _ s1 H1) as (s' & H' & Hstart' & Hpause').
    exists s'. split; [exact H'|]. split; congruence.
Qed.

(** X11.  The progress clock reads the latest pause.  Pausing a running
    session at a non-zero time stops the clock there, wherever an earlier
    pause had left it: from then on [getProgress] reports the time from
    the start to that pause, whatever the current time, while the session
    is paused and after it is resumed, completes batches or records
    errors, in any number and order.  Only the next pause moves the
    clock. *)
Theorem elapsedTime_frozen_after_pause
    (pausedAt : Z) (m : Manager) (s : SyncSession)
    (Hs : currentSession m = Some s)
    (Hrunning : sess_state s = running)
    (Hstamp : pausedAt <> 0) :
  exists m1,
    pauseSession pausedAt m = (true, m1) /\
    forall (operations : list Operation) (now : Z),
      elapsedTime <$> getProgress now (performAll operations m1)
      = Some (pausedAt - startTime s).
Proof.
  unfold pauseSession at 1. rewrite Hs, Hrunning.
  change (String.eqb running running) with true. cbn iota.
  eexists. split; [reflexivity|]. intros operations now.
  match goal with |- context [performAll operations ?m1] =>
    destruct (performAll_keeps_clock operations m1
                (set_state s paused (Some pausedAt) (resumeTime s)))
      as (s' & Hs' & Hstart & Hpause)
  end.
  { rewrite currentSession_abort. apply currentSession_saveSession. }
  unfold getProgress. rewrite Hs'.
  cbn [fmap option_fmap option_map elapsedTime]. rewrite Hstart, Hpause.
  cbn [pauseTime startTime set_state].
  apply Z.eqb_neq in Hstamp. now rewrite Hstamp.
Qed.

(** Two pauses of the test session: the clock reads 500 after the first,
    also once the session runs again, and 8000 after the second. *)
Lemma elapsedTime_frozen_after_pause_witness :
  exists m1 m2,
    pauseSession 1500 (startedManager 5 2) = (true, m1) /\
    elapsedTime <$> getProgress 8500
                      (performAll [Resume 7000; CompleteBatch 8000] m1)
    = Some 500 /\
    pauseSession 9000 (performAll [Resume 7000; CompleteBatch 8000] m1)
    = (true, m2) /\
    elapsedTime <$> getProgress 9500 m2 = Some 8000.
Proof.
  destruct (currentSession (startedManager 5 2)) as [s|] eqn:Hs;
    [|vm_compute in Hs; discriminate].
  assert (sess_state s = running /\ startTime s = 1000) as [Hrun Hstart]
    by (vm_compute in Hs; injection Hs as <-; split; reflexivity).
  destruct (elapsedTime_frozen_after_pause 1500 _ s Hs Hrun ltac:(discriminate))
    as (m1 & H1 & Hclock1).
  set (m' := performAll [Resume 7000; CompleteBatch 8000] m1).
  destruct (currentSession m') as [s'|] eqn:Hs';
    [|vm_compute in H1; injection H1 as <-; vm_compute in Hs'; discriminate].
  assert (sess_state s' = running /\ startTime s' = 1000) as [Hrun' Hstart'].
  { vm_compute in H1. injection H1 as <-. vm_compute in Hs'.
    injection Hs' as <-. split; reflexivity. }
  destruct (elapsedTime_frozen_after_pause 9000 _ s' Hs' Hrun' ltac:(discriminate))
    as (m2 & H2 & Hclock2).
  exists m1, m2. split; [exact H1|].
  split; [rewrite (Hclock1 _ 8500), Hstart; reflexivity|].
  split; [exact H2|].
  pose proof (Hclock2 [] 9500) as H. rewrite Hstart' in H. exact H.
Defined.

(** X12.  The queries announce what the operations will do:
    [pauseSession] succeeds exactly when [canPause] holds and
    [resumeSession] exactly when [canResume] holds; [stopSession]
    succeeds whenever [canStop] holds, and [isActive] is the same test as
    [canStop].  The converse for stopping fails: a session that is
    already stopping cannot be stopped according to [canStop], yet
    [stopSession] accepts it again. *)
Theorem queries_agree_with_operations (now : Z) (m : Manager) :
  fst (pauseSession now m) = canPause m /\
  fst (resumeSession now m) = canResume m /\
  (canStop m = true -> fst (stopSession m) = true) /\
  isActive m = canStop m /\
  (stateIs m stopping = true ->
   canStop m = false /\ fst (stopSession m) = true).
Proof.
  unfold pauseSession, resumeSession, stopSession, canPause, canResume,
    canStop, isActive, stateIs.
  destruct (currentSession m) as [s|].
  - split; [now destruct (String.eqb (sess_state s) running)|].
    split; [now destruct (String.eqb (sess_state s) paused)|].
    split.
    { intros H. destruct (String.eqb_spec (sess_state s) idle) as [Hidle|];
        [|reflexivity].
      rewrite Hidle in H. discriminate H. }
    split; [reflexivity|].
    intros H. apply String.eqb_eq in H. rewrite H. split; reflexivity.
  - repeat split; discriminate.
Qed.

(** X13.  A finished sync is never resumed.  After [completeSession], and
    equally after [stopSession] once its timer has fired, the manager
    holds no session, no file and no controller, and the next
    [initializeSession] starts a fresh session over the actions it is
    given. *)
Theorem finished_session_is_not_resumed
    (now : Z) (random : string) (actions : list DeltaAction) (size : Z)
    (m : Manager) (s : SyncSession)
    (Hs : currentSession m = Some s) :
  completeSession m = newManager None /\
  interrupt now (snd (stopSession m)) StopTimerFired = newManager None /\
  getProgress now (newManager None) = None /\
  getNextBatch (newManager None) = ([], false) /\
  exists m',
    initializeSession now random actions size (newManager None)
    = Some (freshSession now random actions size, m') /\
    sessionFile m'
    = Some (Document (encodeSession (freshSession now random actions size))).
Proof.
  unfold completeSession. rewrite Hs.
  repeat split. eexists. split; reflexivity.
Qed.

Lemma finished_session_is_not_resumed_witness :
  completeSession (processBatch 1100 (startedManager 5 2)) = newManager None /\
  exists m',
    initializeSession 9000 "zz" (createTestActions 3) 2
      (completeSession (processBatch 1100 (startedManager 5 2)))
    = Some (freshSession 9000 "zz" (createTestActions 3) 2, m').
Proof.
  destruct (currentSession (processBatch 1100 (startedManager 5 2)))
    as [s|] eqn:Hs; [|vm_compute in Hs; discriminate].
  destruct (finished_session_is_not_resumed 9000 "zz" (createTestActions 3) 2 _ s Hs)
    as (H1 & _ & _ & _ & m' & H2 & _).
  split; [exact H1|]. rewrite H1. exists m'. exact H2.
Defined.

(* ------------------------------------------------------------------ *)
(** ** Bounds of the progress report (src/sync-state.ts, getProgress) *)

(** X14.  For a session whose batch size is positive, whose processed
    count lies between 0 and the total, and whose numbers are safe
    integers, the progress report stays in range:
    the percentage is between 0 and 100, the current batch between 1 and
    the number of batches, and the remaining count is not negative.  The
    percentage is rounded, so for a total up to [2^50 / 100] it reads 100
    as soon as at least 99.5 percent is processed: exactly when
    [199 * total <= 200 * processed] for a positive total. *)
Theorem getProgress_in_range (now : Z) (m : Manager) (s : SyncSession)
    (Hs : currentSession m = Some s)
    (Hsize : 0 < batchSize s <= 2 ^ 53)
    (Hdone : 0 <= processedActions s <= totalActions s)
    (Hsafe : totalActions s <= 2 ^ 53) :
  exists p,
    getProgress now m = Some p /\
    0 <= percentage p <= 100 /\
    1 <= currentBatch p <= totalBatches p /\
    0 <= remaining p /\
    (totalActions s * 100 <= 2 ^ 50 ->
     (percentage p = 100 <->
      0 < totalActions s /\ 199 * totalActions s <= 200 * processedActions s)).
Proof.
  unfold getProgress. rewrite Hs. eexists. split; [reflexivity|].
  cbn [percentage currentBatch totalBatches remaining].
  pose proof (Math_ceil_divide_mono (processedActions s) (totalActions s)
                (batchSize s) Hdone (proj1 Hsize)) as Hbatches.
  split_and!; try lia.
  - destruct (Z.ltb_spec 0 (totalActions s)) as [Hpos|Hzero]; [|lia].
    now apply percentage_range.
  - destruct (Z.ltb_spec 0 (totalActions s)) as [Hpos|Hzero]; [|lia].
    now apply percentage_range.
  - intros Hbound. destruct (Z.ltb_spec 0 (totalActions s)) as [Hpos|Hzero];
      [|split; [discriminate | lia]].
    pose proof (Math_round_times_divide (processedActions s) (totalActions s)
                  100 ltac:(lia) ltac:(lia) ltac:(lia) ltac:(lia)) as Hround.
    cbv zeta in Hround. change (asQ 100) with 100%Q in Hround.
    pose proof (nearest_spec (processedActions s * 100) _ Hpos) as Hnearest.
    set (r := Math_round _) in *.
    set (n := nearest (processedActions s * 100) (totalActions s)) in *.
    split.
    + intros H100. split; [exact Hpos|].
      destruct (Z_lt_le_dec (200 * processedActions s) (199 * totalActions s))
        as [Hless|]; [exfalso|lia].
      assert (n <= 99) by nia.
      destruct Hround as [Hr|[_ Hr]]; lia.
    + intros [_ H].
      destruct (Z.eq_dec (199 * totalActions s) (200 * processedActions s))
        as [Hhalf|Hmore].
      { now apply percentage_at_half. }
      assert (n = 100) as Hn by nia.
      destruct Hround as [Hr|[Htie Hr]]; [lia|exfalso].
      apply Z.mod_divide in Htie; [|lia]. destruct Htie as [k Hk].
      assert (k = 100) by nia. lia.
Qed.

Lemma getProgress_in_range_witness :
  exists p,
    getProgress 2000 (with_session (newManager None) (Some almostDone)) = Some p /\
    processed p = 199 /\ total p = 200 /\ percentage p = 100.
Proof.
  destruct (getProgress_in_range 2000
              (with_session (newManager None) (Some almostDone)) almostDone
              eq_refl ltac:(cbn; lia) ltac:(cbn; lia) ltac:(cbn; lia))
    as (p & H1 & _ & _ & _ & H2).
  exists p. split; [exact H1|].
  assert (processed p = 199 /\ total p = 200) as [-> ->].
  { unfold getProgress in H1. cbn [with_session currentSession] in H1.
    injection H1 as <-. now split. }
  split; [reflexivity|]. split; [reflexivity|].
  apply H2; cbn [almostDone totalActions processedActions]; lia.
Defined.

(* ------------------------------------------------------------------ *)
(** ** Runs of the batch loop (src/chroma-runner.ts) *)

Lemma batchLoop_nothing_to_do (trace : list Turn) (m : Manager)
    (totalProcessed : Z) (allErrors : list string) :
  fst (getNextBatch m) = [] ->
  batchLoop trace m totalProcessed allErrors
  = Some (totalProcessed, allErrors, m).
Proof.
  intros H. destruct trace; cbn [batchLoop];
    destruct (getNextBatch m) as [actions more]; cbn [fst] in H; subst actions;
    reflexivity.
Qed.

Lemma declareSuccess_nothing (session : option SyncSession) :
  declareSuccess 0 session [] = false.
Proof.
  unfold declareSuccess.
  set (t := match session with
            | Some s => if totalActions s =? 0 then 1 else totalActions s
            | None => 1
            end).
  assert ((asQ 0 / asQ t)%Q == 0)%Q as Hzero by (unfold Qdiv; apply Qmult_0_l).
  assert (Qle_bool (8 # 10) (asQ 0 / asQ t)%Q = false) as ->.
  { apply not_true_is_false. rewrite Qle_bool_iff, Hzero.
    unfold Qle. cbn. lia. }
  assert (Qle_bool (asQ 0 / asQ t)%Q 0 = true) as ->.
  { rewrite Qle_bool_iff, Hzero. apply Qle_refl. }
  reflexivity.
Qed.

(** X15.  A run with nothing to do is reported as a failure.  When the
    manager offers no batch (no session, a session that is not running,
    or an empty queue) [executeSyncBatches] calls no script and returns
    [success = false] with nothing processed and no error, leaving the
    manager as it is.  In particular [executeSync] of an empty plan fails
    without an error, and its session is left in place, running. *)
Theorem run_with_nothing_to_do_fails (trace : list Turn) (m : Manager)
    (Hidle : fst (getNextBatch m) = []) :
  executeSyncBatches trace m
  = Some ({| success := false; res_processed := 0; res_errors := [];
             duration := 0 |}, m) /\
  forall (startedAt initializedAt finishedAt size : Z) (random : string),
  exists m',
    executeSync startedAt initializedAt random [] size trace finishedAt
      (newManager None)
    = Some ({| success := false; res_processed := 0; res_errors := [];
               duration := finishedAt - startedAt |}, m') /\
    currentSession m' = Some (freshSession initializedAt random [] size).
Proof.
  split.
  - unfold executeSyncBatches.
    rewrite batchLoop_nothing_to_do by exact Hidle.
    now rewrite declareSuccess_nothing.
  - intros. unfold executeSync.
    cbn [initializeSession loadSession newManager sessionFile mbind option_bind].
    unfold executeSyncBatches.
    rewrite batchLoop_nothing_to_do.
    + rewrite declareSuccess_nothing. eexists. split; reflexivity.
    + unfold getNextBatch, Array_slice0. cbn. apply firstn_nil.
Qed.

Lemma run_with_nothing_to_do_fails_witness :
  exists m1,
    pauseSession 1500 (startedManager 5 2) = (true, m1) /\
    executeSyncBatches [quietTurn 1600 (scriptOk 2)] m1
    = Some ({| success := false; res_processed := 0; res_errors := [];
               duration := 0 |}, m1).
Proof.
  eexists. split; [reflexivity|].
  apply run_with_nothing_to_do_fails. reflexivity.
Defined.

Lemma stateIs_interrupt (now : Z) (m : Manager) (i : Interruption) :
  stateIs (interrupt now m i) running = false.
Proof.
  unfold stateIs. destruct i; cbn [interrupt].
  - unfold pauseSession. destruct (currentSession m) as [s|] eqn:Hs.
    + destruct (String.eqb (sess_state s) running) eqn:Hst; cbn [snd].
      * now rewrite currentSession_abort.
      * now rewrite Hs.
    + cbn [snd]. now rewrite Hs.
  - unfold stopSession. destruct (currentSession m) as [s|] eqn:Hs.
    + destruct (String.eqb_spec (sess_state s) idle) as [Hst|]; cbn [snd].
      * now rewrite Hs, Hst.
      * now rewrite currentSession_abort.
    + cbn [snd]. now rewrite Hs.
  - reflexivity.
Qed.

Lemma stateIs_interruptAll (now : Z) (events : list Interruption)
    (m : Manager) (aborted : bool) :
  stateIs m running = false \/ events <> [] ->
  stateIs (fst (interruptAll now events m aborted)) running = false.
Proof.
  revert m aborted. induction events as [|i later IH]; intros m aborted H.
  - destruct H as [H|H]; [exact H | congruence].
  - cbn [interruptAll]. apply IH. left. apply stateIs_interrupt.
Qed.

Lemma stateIs_completeBatch (now : Z) (completed : list DeltaAction)
    (m : Manager) (st : string) :
  stateIs (completeBatch now completed m) st = stateIs m st.
Proof.
  unfold stateIs, completeBatch.
  destruct (currentSession m) eqn:H; cbn; rewrite ?H; reflexivity.
Qed.

Lemma stateIs_addError (error : string) (m : Manager) (st : string) :
  stateIs (addError error m) st = stateIs m st.
Proof.
  unfold stateIs, addError.
  destruct (currentSession m) eqn:H; cbn; rewrite ?H; reflexivity.
Qed.

Lemma getNextBatch_not_running (m : Manager) :
  stateIs m running = false -> getNextBatch m = ([], false).
Proof.
  unfold stateIs, getNextBatch. destruct (currentSession m); [|reflexivity].
  now intros ->.
Qed.

(** X16.  After a pause or stop request the script is not called again.
    When at least one interruption (a pause request, a stop request, or
    the stop timer) arrives while a script call is pending, the loop ends
    with that call: it returns a result, and the turns that the
    environment could still play are not consumed. *)
Theorem no_script_call_after_interruption
    (turn : Turn) (later : list Turn) (m : Manager)
    (totalProcessed : Z) (allErrors : list string)
    (Hevent : interruptions turn <> []) :
  is_Some (batchLoop [turn] m totalProcessed allErrors) /\
  batchLoop (turn :: later) m totalProcessed allErrors
  = batchLoop [turn] m totalProcessed allErrors.
Proof.
  assert (forall later1 later2,
            is_Some (batchLoop (turn :: later1) m totalProcessed allErrors) /\
            batchLoop (turn :: later1) m totalProcessed allErrors
            = batchLoop (turn :: later2) m totalProcessed allErrors) as H.
  { intros later1 later2. cbn [batchLoop].
    destruct (getNextBatch m) as [actions more].
    destruct (len actions =? 0); [split; [eauto | reflexivity]|].
    destruct (isAborted (abortController m)); [split; [eauto | reflexivity]|].
    pose proof (stateIs_interruptAll (settledAt turn) (interruptions turn) m
                  false (or_intror Hevent)) as Hstate.
    destruct (interruptAll (settledAt turn) (interruptions turn) m false)
      as [m1 aborted]. cbn [fst] in Hstate.
    destruct (outcome turn) as [batchResult|name message].
    - destruct (success batchResult).
      + rewrite !batchLoop_nothing_to_do;
          try (rewrite getNextBatch_not_running;
               [reflexivity | now rewrite stateIs_completeBatch]).
        split; [eauto | reflexivity].
      + rewrite !batchLoop_nothing_to_do;
          try (rewrite getNextBatch_not_running;
               [reflexivity
               | now rewrite stateIs_completeBatch, stateIs_addError]).
        split; [eauto | reflexivity].
    - destruct (String.eqb name "AbortError" || _); split; eauto. }
  split; [apply (H [] []) | apply (H later [])].
Qed.

Lemma no_script_call_after_interruption_witness :
  batchLoop [ {| interruptions := [PauseRequested]; settledAt := 1500;
                 outcome := Rejected "AbortError" "Process aborted" |};
              quietTurn 1600 (scriptOk 2) ]
            (startedManager 5 2) 0 []
  = Some (0, [], snd (pauseSession 1500 (startedManager 5 2))).
Proof.
  rewrite (proj2 (no_script_call_after_interruption
             {| interruptions := [PauseRequested]; settledAt := 1500;
                outcome := Rejected "AbortError" "Process aborted" |}
             [quietTurn 1600 (scriptOk 2)] (startedManager 5 2) 0 []
             ltac:(discriminate))).
  reflexivity.
Defined.

Lemma cooperative_done (fuel : nat) (now size left : Z) :
  left <= 0 -> cooperative fuel now size left = [].
Proof.
  intros H. destruct fuel; [reflexivity|]. cbn [cooperative].
  now destruct (Z.leb_spec left 0); [|lia].
Qed.

Lemma abortController_completeBatch (now : Z) (completed : list DeltaAction)
    (m : Manager) :
  abortController (completeBatch now completed m) = abortController m.
Proof. unfold completeBatch. now destruct (currentSession m). Qed.

Lemma abortController_addError (error : string) (m : Manager) :
  abortController (addError error m) = abortController m.
Proof. unfold addError. now destruct (currentSession m). Qed.

Lemma batchLoop_cooperative (fuel : nat) (now : Z) (m : Manager)
    (s : SyncSession) (totalProcessed : Z) (allErrors : list string) :
  currentSession m = Some s ->
  sess_state s = running ->
  0 < batchSize s ->
  isAborted (abortController m) = false ->
  (length (remainingActions s) <= fuel)%nat ->
  exists m' s',
    batchLoop (cooperative fuel now (batchSize s) (len (remainingActions s)))
      m totalProcessed allErrors
    = Some (totalProcessed + len (remainingActions s), allErrors, m') /\
    currentSession m' = Some s' /\
    totalActions s' = totalActions s /\
    remainingActions s' = [] /\
    processedActions s'
    = processedActions s + len (remainingActions s).
Proof.
  revert m s totalProcessed.
  induction fuel as [|fuel IH]; intros m s totalProcessed Hs Hrun Hsize Hlive Hfuel.
  - destruct (remainingActions s) as [|a r] eqn:Hrem; [|cbn in Hfuel; lia].
    exists m, s. cbn [cooperative batchLoop]. unfold getNextBatch.
    rewrite Hs, Hrun, Hrem. change (String.eqb running running) with true.
    cbn iota. rewrite Array_slice0_firstn by lia. rewrite firstn_nil.
    change (len []) with 0. cbn [Z.eqb]. rewrite !Z.add_0_r. repeat split; auto.
  - destruct (remainingActions s) as [|a r] eqn:Hrem.
    + exists m, s. rewrite cooperative_done by (unfold len; cbn; lia).
      cbn [batchLoop]. unfold getNextBatch.
      rewrite Hs, Hrun, Hrem. change (String.eqb running running) with true.
      cbn iota. rewrite Array_slice0_firstn by lia. rewrite firstn_nil.
      change (len []) with 0. cbn [Z.eqb]. rewrite !Z.add_0_r. repeat split; auto.
    + rewrite <- Hrem in *.
      assert (0 < len (remainingActions s)) as Hpos
        by (rewrite Hrem; unfold len; cbn; lia).
      cbn [cooperative]. destruct (Z.leb_spec (len (remainingActions s)) 0); [lia|].
      cbn [batchLoop]. unfold getNextBatch at 1.
      rewrite Hs, Hrun. change (String.eqb running running) with true.
      cbn iota. rewrite Array_slice0_firstn by lia.
      set (batch := firstn (Z.to_nat (batchSize s)) (remainingActions s)).
      assert (len batch = Z.min (batchSize s) (len (remainingActions s))) as Hbatch.
      { unfold batch. rewrite len_firstn. lia. }
      destruct (Z.eqb_spec (len batch) 0) as [Hz|_]; [lia|].
      rewrite Hlive.
      cbn [quietTurn interruptions settledAt outcome interruptAll scriptOk
           res_processed success].
      rewrite Array_slice0_firstn by lia.
      assert (firstn (Z.to_nat (Z.min (batchSize s) (len (remainingActions s))))
                batch = batch) as ->.
      { apply firstn_all2. unfold len in Hbatch |- *. lia. }
      set (m1 := completeBatch now batch m).
      assert (currentSession m1
              = Some {| sess_id := sess_id s;
                        sess_state := sess_state s;
                        startTime := startTime s;
                        pauseTime := pauseTime s;
                        resumeTime := resumeTime s;
                        totalActions := totalActions s;
                        processedActions := processedActions s + len batch;
                        remainingActions :=
                          Array_slice (len batch) (remainingActions s);
                        processedIds :=
                          foldl (fun ids a => Set_add ids (act_id a))
                                (processedIds s) batch;
                        sess_errors := sess_errors s;
                        lastCheckpointTime := now;
                        batchSize := batchSize s |}) as Hs1.
      { unfold m1, completeBatch. rewrite Hs. reflexivity. }
      assert (len (Array_slice (len batch) (remainingActions s))
              = Z.max 0 (len (remainingActions s) - batchSize s)) as Hleft.
      { rewrite Array_slice_skipn by apply len_nonneg.
        rewrite len_skipn, Z2Nat.id by apply len_nonneg. lia. }
      destruct (IH m1 _ (totalProcessed
                         + Z.min (batchSize s) (len (remainingActions s)))
                  Hs1 Hrun Hsize) as (m' & s' & Hloop & Hs' & Ht & Hr & Hp).
      { unfold m1. now rewrite abortController_completeBatch. }
      { cbn [remainingActions]. apply Nat2Z.inj_le.
        fold (len (Array_slice (len batch) (remainingActions s))).
        rewrite Hleft. unfold len in Hpos |- *. lia. }
      cbn [batchSize remainingActions totalActions processedActions] in Hloop, Ht, Hp.
      rewrite Hleft in Hloop, Hp.
      exists m', s'.
      assert (cooperative fuel now (batchSize s)
                (len (remainingActions s) - batchSize s)
              = cooperative fuel now (batchSize s)
                  (Z.max 0 (len (remainingActions s) - batchSize s))) as ->.
      { destruct (Z.le_gt_cases 0 (len (remainingActions s) - batchSize s)).
        - now rewrite Z.max_r.
        - rewrite Z.max_l by lia. rewrite !cooperative_done by lia. reflexivity. }
      rewrite Hloop. split; [do 3 f_equal; lia|].
      split; [exact Hs'|]. split; [exact Ht|]. split; [exact Hr|]. lia.
Qed.

(** X17.  A cooperative script brings a sync to completion.  When a sync
    of a non-empty plan starts without a stored session, with a positive
    batch size, and the script indexes every action of every batch it is
    sent, [executeSync] reports success with all actions processed and
    no error, and leaves no session and no session file behind. *)
Theorem executeSync_cooperative_script
    (startedAt initializedAt now finishedAt size : Z) (random : string)
    (actions : list DeltaAction)
    (Hplan : actions <> [])
    (Hsize : 0 < size) :
  executeSync startedAt initializedAt random actions size
    (cooperative (length actions) now size (len actions)) finishedAt
    (newManager None)
  = Some ({| success := true; res_processed := len actions;
             res_errors := []; duration := finishedAt - startedAt |},
          newManager None).
Proof.
  unfold executeSync.
  cbn [initializeSession loadSession newManager sessionFile mbind option_bind].
  fold (freshSession initializedAt random actions size).
  set (m1 := saveSession _).
  destruct (batchLoop_cooperative (length actions) now m1
              (freshSession initializedAt random actions size) 0 []
              eq_refl eq_refl Hsize eq_refl (Nat.le_refl _))
    as (m' & s' & Hloop & Hs' & Ht & Hr & Hp).
  cbn [batchSize remainingActions freshSession totalActions] in Hloop, Ht.
  unfold executeSyncBatches. rewrite Hloop, Hs', Z.add_0_l.
  assert (0 < len actions) as Hpos
    by (destruct actions; [congruence | unfold len; cbn; lia]).
  assert (declareSuccess (len actions) (Some s') [] = true) as ->.
  { apply declareSuccess_iff; [lia|]. left. lia. }
  cbn [mbind option_bind success]. unfold completeSession. rewrite Hs'.
  reflexivity.
Qed.

Lemma executeSync_cooperative_script_witness :
  executeSync 900 1000 "k3j2" (createTestActions 5) 2
    [quietTurn 1100 (scriptOk 2); quietTurn 1100 (scriptOk 2);
     quietTurn 1100 (scriptOk 1)] 2000 (newManager None)
  = Some ({| success := true; res_processed := 5; res_errors := [];
             duration := 1100 |}, newManager None).
Proof.
  exact (executeSync_cooperative_script 900 1000 1100 2000 2 "k3j2"
           (createTestActions 5) ltac:(discriminate) ltac:(lia)).
Defined.

(** X18.  A batch of which nothing is indexed is sent again, without
    end.  While a running session has work left and its controller is
    not aborted, every script call that resolves with [processed = 0]
    (successfully or with errors) leaves the queue as it was, and the
    loop calls the script again: however many such turns the environment
    plays, the loop is still waiting for the script when they are used
    up. *)
Theorem stalled_script_is_called_without_end
    (trace : list Turn) (m : Manager) (s : SyncSession)
    (totalProcessed : Z) (allErrors : list string)
    (Hs : currentSession m = Some s)
    (Hrunning : sess_state s = running)
    (Hwork : remainingActions s <> [])
    (Hsize : 0 < batchSize s)
    (Hlive : isAborted (abortController m) = false)
    (Hstalled : Forall stalled trace) :
  batchLoop trace m totalProcessed allErrors = None.
Proof.
  revert m s totalProcessed allErrors Hs Hrunning Hwork Hsize Hlive.
  induction Hstalled as [|turn later (Hquiet & result & Hout & Hzero) _ IH];
    intros m s totalProcessed allErrors Hs Hrunning Hwork Hsize Hlive.
  - cbn [batchLoop]. unfold getNextBatch. rewrite Hs, Hrunning.
    change (String.eqb running running) with true. cbn iota.
    rewrite Array_slice0_firstn by lia.
    destruct (remainingActions s) as [|a r]; [congruence|].
    destruct (Z.to_nat (batchSize s)) as [|b] eqn:Hb; [lia|].
    cbn [firstn]. unfold len. cbn [length].
    destruct (Z.eqb_spec (Z.of_nat (S (length (firstn b r)))) 0); [lia|].
    now rewrite Hlive.
  - cbn [batchLoop]. unfold getNextBatch at 1. rewrite Hs, Hrunning.
    change (String.eqb running running) with true. cbn iota.
    rewrite Array_slice0_firstn by lia.
    set (batch := firstn (Z.to_nat (batchSize s)) (remainingActions s)).
    assert ((len batch =? 0) = false) as ->.
    { apply Z.eqb_neq. unfold batch, len.
      destruct (remainingActions s) as [|a r]; [congruence|].
      destruct (Z.to_nat (batchSize s)) as [|b] eqn:Hb; [lia|]. cbn. lia. }
    rewrite Hlive, Hquiet, Hout, Hzero. cbn [interruptAll].
    rewrite !Array_slice0_firstn by lia.
    change (Z.to_nat 0) with 0%nat. cbn [firstn].
    destruct (success result).
    + apply (IH _ {| sess_id := sess_id s;
                     sess_state := sess_state s;
                     startTime := startTime s;
                     pauseTime := pauseTime s;
                     resumeTime := resumeTime s;
                     totalActions := totalActions s;
                     processedActions := processedActions s + len (@nil DeltaAction);
                     remainingActions := Array_slice (len (@nil DeltaAction))
                                           (remainingActions s);
                     processedIds := processedIds s;
                     sess_errors := sess_errors s;
                     lastCheckpointTime := settledAt turn;
                     batchSize := batchSize s |}).
      * unfold completeBatch. rewrite Hs. reflexivity.
      * exact Hrunning.
      * cbn [remainingActions]. rewrite Array_slice_skipn by apply len_nonneg.
        exact Hwork.
      * exact Hsize.
      * now rewrite abortController_completeBatch.
    + apply (IH _ {| sess_id := sess_id s;
                     sess_state := sess_state s;
                     startTime := startTime s;
                     pauseTime := pauseTime s;
                     resumeTime := resumeTime s;
                     totalActions := totalActions s;
                     processedActions := processedActions s + len (@nil DeltaAction);
                     remainingActions := Array_slice (len (@nil DeltaAction))
                                           (remainingActions s);
                     processedIds := processedIds s;
                     sess_errors :=
                       sess_errors s
                       ++ [Array_join ", " (res_errors result)];
                     lastCheckpointTime := settledAt turn;
                     batchSize := batchSize s |}).
      * unfold completeBatch, addError. rewrite Hs. reflexivity.
      * exact Hrunning.
      * cbn [remainingActions]. rewrite Array_slice_skipn by apply len_nonneg.
        exact Hwork.
      * exact Hsize.
      * now rewrite abortController_completeBatch, abortController_addError.
Qed.

Lemma stalled_script_is_called_without_end_witness :
  batchLoop [quietTurn 1100 (scriptFailed 0 ["exit 1"%string]);
             quietTurn 1300 (scriptOk 0)]
            (startedManager 5 2) 0 []
  = None.
Proof.
  destruct (currentSession (startedManager 5 2)) as [s|] eqn:Hs;
    [|vm_compute in Hs; discriminate].
  apply (stalled_script_is_called_without_end _ _ s 0 [] Hs).
  - vm_compute in Hs; injection Hs as <-; reflexivity.
  - vm_compute in Hs; injection Hs as <-; discriminate.
  - vm_compute in Hs; injection Hs as <-; reflexivity.
  - reflexivity.
  - repeat constructor; eexists; split; reflexivity.
Defined.

(** X19.  A paused sync is finished by [resumeSync].  For a running
    session with work left, a positive batch size and a positive total:
    [resumeSync] is refused with the error "No paused session to resume"
    and changes nothing while the session is running; after [pauseSync]
    it resumes the session, and with a script that indexes every action
    it is sent it reports success with exactly the queued actions
    processed and leaves no session behind. *)
Theorem resumeSync_finishes_paused_sync
    (pausedAt resumedAt startedAt now finishedAt : Z)
    (m : Manager) (s : SyncSession)
    (Hs : currentSession m = Some s)
    (Hrunning : sess_state s = running)
    (Hwork : remainingActions s <> [])
    (Hsize : 0 < batchSize s)
    (Htotal : 0 < totalActions s) :
  let script :=
    cooperative (length (remainingActions s)) now (batchSize s)
      (len (remainingActions s)) in
  resumeSync resumedAt startedAt script finishedAt m
  = Some ({| success := false; res_processed := 0;
             res_errors := ["No paused session to resume"%string];
             duration := 0 |}, m) /\
  exists m1,
    pauseSync pausedAt m = (true, m1) /\
    resumeSync resumedAt startedAt script finishedAt m1
    = Some ({| success := true; res_processed := len (remainingActions s);
               res_errors := []; duration := finishedAt - startedAt |},
            newManager None).
Proof.
  cbn zeta. split.
  { unfold resumeSync, resumeSession. rewrite Hs, Hrunning. reflexivity. }
  unfold pauseSync, pauseSession. rewrite Hs, Hrunning.
  change (String.eqb running running) with true. cbn iota.
  eexists. split; [reflexivity|].
  unfold resumeSync, resumeSession. rewrite currentSession_abort.
  cbn [saveSession with_session currentSession with_file sess_state set_state].
  change (String.eqb paused paused) with true. cbn iota. cbn [negb].
  match goal with
  | |- context [executeSyncBatches _ ?mm] => set (m2 := mm)
  end.
  destruct (batchLoop_cooperative (length (remainingActions s)) now m2
              (set_state (set_state s paused (Some pausedAt) (resumeTime s))
                 running (Some pausedAt) (Some resumedAt)) 0 []
              eq_refl eq_refl Hsize eq_refl (Nat.le_refl _))
    as (m' & s' & Hloop & Hs' & Ht & Hr & Hp).
  cbn [batchSize remainingActions totalActions set_state] in Hloop, Ht.
  unfold executeSyncBatches. rewrite Hloop, Hs', Z.add_0_l.
  assert (0 < len (remainingActions s)) as Hpos
    by (destruct (remainingActions s); [congruence | unfold len; cbn; lia]).
  assert (declareSuccess (len (remainingActions s)) (Some s') [] = true) as ->.
  { apply declareSuccess_iff; [lia|]. right. split; [constructor | exact Hpos]. }
  cbn [mbind option_bind success]. unfold completeSession. rewrite Hs'.
  reflexivity.
Qed.

Lemma resumeSync_finishes_paused_sync_witness :
  exists m1,
    pauseSync 1500 (processBatch 1100 (startedManager 5 2)) = (true, m1) /\
    resumeSync 1600 1601
      [quietTurn 1700 (scriptOk 2); quietTurn 1700 (scriptOk 1)] 2000 m1
    = Some ({| success := true; res_processed := 3; res_errors := [];
               duration := 399 |}, newManager None).
Proof.
  destruct (currentSession (processBatch 1100 (startedManager 5 2)))
    as [s|] eqn:Hs; [|vm_compute in Hs; discriminate].
  assert (sess_state s = running) as Hrun
    by (vm_compute in Hs; injection Hs as <-; reflexivity).
  assert (remainingActions s <> []) as Hwork
    by (vm_compute in Hs; injection Hs as <-; discriminate).
  assert (0 < batchSize s) as Hsize
    by (vm_compute in Hs; injection Hs as <-; reflexivity).
  assert (0 < totalActions s) as Htotal
    by (vm_compute in Hs; injection Hs as <-; reflexivity).
  destruct (resumeSync_finishes_paused_sync 1500 1600 1601 1700 2000 _ s
              Hs Hrun Hwork Hsize Htotal) as (_ & m1 & H1 & H2).
  exists m1. split; [exact H1|].
  vm_compute in Hs. injection Hs as <-. exact H2.
Defined.

(* ------------------------------------------------------------------ *)
(** ** The markdown tokenizer covers the document
       (src/document-chunker.ts, tokenizeMarkdown) *)

Lemma strlen_append (a b : string) : strlen (a ++ b) = strlen a + strlen b.
Proof.
  unfold strlen. induction a as [|c a IH]; [reflexivity|].
  rewrite String_append_cons. cbn [String.length]. lia.
Qed.

Lemma Array_join_cons (sep x y : string) (l : list string) :
  Array_join sep (x :: y :: l) = (x ++ sep ++ Array_join sep (y :: l))%string.
Proof. reflexivity. Qed.

Lemma Array_join_app (sep : string) (a b : list string) :
  a <> [] -> b <> [] ->
  Array_join sep (a ++ b) = (Array_join sep a ++ sep ++ Array_join sep b)%string.
Proof.
  intros Ha Hb. induction a as [|x a IH]; [congruence|].
  destruct a as [|y a].
  - destruct b as [|z b]; [congruence|]. reflexivity.
  - cbn [app] in *. rewrite !Array_join_cons, IH by discriminate.
    now rewrite !String_append_assoc.
Qed.

Lemma String_split_nonempty (sep : ascii) (s : string) : String_split sep s <> [].
Proof.
  destruct s as [|c r]; [discriminate|]. cbn [String_split].
  destruct (Ascii.eqb c sep); [discriminate|].
  destruct (String_split sep r); discriminate.
Qed.

(** [s.split('\n').join('\n')] is [s]. *)
Lemma Array_join_String_split (s : string) :
  Array_join newline (String_split LF s) = s.
Proof.
  induction s as [|c r IH]; [reflexivity|]. cbn [String_split].
  pose proof (String_split_nonempty LF r) as Hne.
  destruct (Ascii.eqb_spec c LF) as [->|_].
  - destruct (String_split LF r) as [|h t]; [congruence|].
    rewrite Array_join_cons, IH. reflexivity.
  - destruct (String_split LF r) as [|h t]; [congruence|].
    destruct t as [|y t].
    + cbn in IH |- *. now rewrite IH.
    + rewrite Array_join_cons, String_append_cons, <- Array_join_cons, IH.
      reflexivity.
Qed.

Lemma codeBlockTail_prefix (lines : list string) :
  firstn (length (codeBlockTail lines)) lines = codeBlockTail lines.
Proof.
  induction lines as [|l r IH]; [reflexivity|]. cbn [codeBlockTail].
  destruct (isFenceLine l); cbn [length firstn]; [reflexivity | now rewrite IH].
Qed.

Lemma listItemTail_prefix (lines : list string) :
  firstn (length (listItemTail lines)) lines = listItemTail lines.
Proof.
  induction lines as [|l r IH]; [reflexivity|]. cbn [listItemTail].
  destruct (startsWith l "  " || isBlankLine l); [|reflexivity].
  destruct (isBlankLine l && _); cbn [length firstn];
    [reflexivity | now rewrite IH].
Qed.

Lemma paragraphTail_prefix (lines : list string) :
  firstn (length (paragraphTail lines)) lines = paragraphTail lines.
Proof.
  induction lines as [|l r IH]; [reflexivity|]. cbn [paragraphTail].
  destruct (nonEmpty (trim l)); [|reflexivity].
  destruct (isHeadingLine l || isListLine l || isFenceLine l);
    [reflexivity|]. cbn [length firstn]. now rewrite IH.
Qed.

Lemma lastTokenEnd_cons (token next : TokenChunk) (rest : list TokenChunk) :
  lastTokenEnd (token :: next :: rest) = lastTokenEnd (next :: rest).
Proof.
  unfold lastTokenEnd. cbn [rev]. rewrite <- !app_assoc.
  destruct (rev rest) as [|x l]; reflexivity.
Qed.

Lemma covers_step (pos : Z) (type : TokenType) (taken following : list string)
    (line : string) (finish : Z) (tokens : list TokenChunk) :
  firstn (length taken) following = taken ->
  finish = pos + strlen (Array_join newline (line :: taken)) ->
  (skipn (length taken) following = [] -> tokens = []) ->
  (skipn (length taken) following <> [] ->
   covers tokens (skipn (length taken) following) (finish + 1)) ->
  covers ({| tok_start := pos; tok_end := finish; tok_type := type;
             tok_content := Array_join newline (line :: taken) |} :: tokens)
         (line :: following) pos.
Proof.
  intros Hprefix Hfinish Hnil Hcons.
  pose proof (firstn_skipn (length taken) following) as Hsplit.
  rewrite Hprefix in Hsplit.
  destruct (skipn (length taken) following) as [|r0 rest] eqn:Hrest.
  - rewrite (Hnil eq_refl). rewrite app_nil_r in Hsplit. subst following.
    split; [discriminate|]. split; [reflexivity|].
    split; [cbn; repeat split; exact Hfinish|]. exact Hfinish.
  - destruct (Hcons ltac:(discriminate)) as (Hne & Hjoin & Htiled & Hlast).
    destruct tokens as [|next more]; [congruence|].
    split; [discriminate|]. split; [|split].
    + unfold tokenContents in *. cbn [map] in *.
      rewrite Array_join_cons, Hjoin, <- Hsplit.
      change (line :: taken ++ r0 :: rest) with ((line :: taken) ++ r0 :: rest).
      now rewrite Array_join_app by discriminate.
    + change (tiled pos (?t :: ?r))
        with (tok_start t = pos /\ tok_end t = pos + strlen (tok_content t) /\
              tiled (tok_end t + 1) r).
      cbn [tok_start tok_end tok_content].
      split; [reflexivity|]. split; [exact Hfinish | exact Htiled].
    + rewrite lastTokenEnd_cons, Hlast, <- Hsplit.
      change (line :: taken ++ r0 :: rest) with ((line :: taken) ++ r0 :: rest).
      rewrite (Array_join_app _ (line :: taken)) by discriminate.
      rewrite !strlen_append, Hfinish. change (strlen newline) with 1. lia.
Qed.

Lemma tokenizeLines_covers (fuel : nat) :
  forall lines pos,
    (length lines <= fuel)%nat -> lines <> [] ->
    covers (tokenizeLines fuel lines pos) lines pos.
Proof.
  induction fuel as [|fuel IH]; intros lines pos Hfuel Hne.
  - destruct lines; [congruence | cbn in Hfuel; lia].
  - destruct lines as [|line following]; [congruence|].
    cbn [length] in Hfuel.
    assert (forall (taken : list string) finish,
              (skipn (length taken) following = [] ->
               tokenizeLines fuel (skipn (length taken) following) finish = []) /\
              (skipn (length taken) following <> [] ->
               covers (tokenizeLines fuel (skipn (length taken) following) finish)
                      (skipn (length taken) following) finish)) as Hrest.
    { intros taken finish. split.
      - intros ->. now destruct fuel.
      - apply IH. rewrite length_skipn. lia. }
    cbn [tokenizeLines]. cbv zeta.
    unfold extractCodeBlock, extractListItem, extractParagraph.
    cbn [length skipn].
    destruct (isFenceLine line);
      [apply covers_step;
       [apply codeBlockTail_prefix | reflexivity | apply Hrest | apply Hrest]|].
    destruct (isHeadingLine line).
    { apply (covers_step pos heading [] following line);
        [reflexivity | cbn; lia | apply (Hrest []) | ].
      intros H. replace (pos + strlen line + 1 - 1 + 1) with (pos + strlen line + 1)
        by lia. now apply (Hrest []). }
    destruct (isListLine line);
      [apply covers_step;
       [apply listItemTail_prefix | reflexivity | apply Hrest | apply Hrest]|].
    destruct (nonEmpty (trim line));
      [apply covers_step;
       [apply paragraphTail_prefix | reflexivity | apply Hrest | apply Hrest]|].
    apply (covers_step pos blank [] following line);
      [reflexivity | cbn; lia | apply (Hrest []) | ].
    intros H. replace (pos + strlen line + 1 - 1 + 1) with (pos + strlen line + 1)
      by lia. now apply (Hrest []).
Qed.

(** X20.  The markdown tokenizer loses nothing and its offsets are exact.
    The tokens of a document, joined by line breaks, give back the
    document; the first token starts at offset 0, every token ends its
    own length after its start, the next one starts one character later,
    and the last one ends at the length of the document. *)
Theorem tokenizeMarkdown_covers_document (content : string) :
  tokenContents (tokenizeMarkdown content) = content /\
  tiled 0 (tokenizeMarkdown content) /\
  lastTokenEnd (tokenizeMarkdown content) = strlen content.
Proof.
  unfold tokenizeMarkdown.
  destruct (tokenizeLines_covers (length (String_split LF content))
              (String_split LF content) 0 (Nat.le_refl _)
              (String_split_nonempty LF content))
    as (_ & Hjoin & Htiled & Hlast).
  rewrite Array_join_String_split in Hjoin, Hlast.
  split; [exact Hjoin|]. split; [exact Htiled | exact Hlast].
Qed.

(* ------------------------------------------------------------------ *)
(** ** Chunks of a long document (src/document-chunker.ts) *)

Lemma assignOrder_lookup (chunks : list DocumentChunk) :
  forall (index : Z) (i : nat) (c : DocumentChunk),
    assignOrder index chunks !! i = Some c ->
    exists c', chunks !! i = Some c' /\ c = with_order c' (index + Z.of_nat i).
Proof.
  induction chunks as [|x r IH]; intros index i c; cbn [assignOrder].
  - rewrite lookup_nil. discriminate.
  - destruct i as [|i].
    + cbn. intros [= <-]. exists x. split; [reflexivity|].
      now rewrite Z.add_0_r.
    + cbn [lookup list_lookup]. intros H.
      destruct (IH _ _ _ H) as (c' & Hc' & ->).
      exists c'. split; [exact Hc'|]. f_equal. lia.
Qed.

(** X21.  Chunks are numbered in the order they are yielded: the chunk at
    position [i] of the result, counting from 0, has [meta.order = i],
    for short and for long documents alike. *)
Theorem chunkDocument_order_is_position
    (options : ChunkerOptions) (doc : SourceDocument) (i : nat)
    (c : DocumentChunk)
    (Hc : chunkDocument options doc !! i = Some c) :
  order (meta c) = Z.of_nat i.
Proof.
  unfold chunkDocument in Hc.
  destruct (strlen (doc_content doc) <=? maxLen options).
  - destruct i as [|i]; [|now rewrite lookup_cons, lookup_nil in Hc].
    cbn in Hc. now injection Hc as <-.
  - apply assignOrder_lookup in Hc as (c' & _ & ->). reflexivity.
Qed.

Lemma chunkDocument_order_is_position_witness :
  exists c,
    chunkDocument testOptions (document markdown longContent) !! 1%nat = Some c /\
    order (meta c) = 1.
Proof.
  destruct (chunkDocument testOptions (document markdown longContent) !! 1%nat)
    as [c|] eqn:Hc; [|vm_compute in Hc; discriminate].
  exists c. split; [reflexivity|].
  exact (chunkDocument_order_is_position _ _ 1 c Hc).
Defined.

Lemma tokenContents_app (carried extra : list TokenChunk) :
  carried <> [] ->
  exists tail,
    tokenContents (carried ++ extra) = (tokenContents carried ++ tail)%string.
Proof.
  intros Hne. unfold tokenContents. rewrite map_app.
  destruct extra as [|e extra].
  - exists ""%string. rewrite app_nil_r.
    induction (Array_join newline (map tok_content carried)) as [|c s IH];
      [reflexivity|]. now rewrite String_append_cons, <- IH.
  - eexists. apply Array_join_app; [|discriminate].
    destruct carried; [congruence | discriminate].
Qed.

(** The flushes of the assembly loop, when the buffer starts with the
    tokens carried over and the pending overlap is their text. *)
Lemma processLoop_carried options doc tokens :
  forall buffer pending carried extra bufferLen chunkStart,
    buffer = carried ++ extra ->
    pending = tokenContents carried ->
    Forall (fun c =>
              exists carried extra,
                chunk_content c
                = ((if nonEmpty (tokenContents carried)
                    then tokenContents carried ++ newline else "")
                   ++ tokenContents (carried ++ extra))%string /\
                overlapWithPrev (meta c) = (0 <? strlen (tokenContents carried)))
      (processLoop options doc tokens buffer bufferLen pending chunkStart).
Proof.
  assert (forall buffer carried extra start c,
            buffer = carried ++ extra ->
            c ∈ yield (finalizeChunk doc buffer start (tokenContents carried)) ->
            exists carried extra,
              chunk_content c
              = ((if nonEmpty (tokenContents carried)
                  then tokenContents carried ++ newline else "")
                 ++ tokenContents (carried ++ extra))%string /\
              overlapWithPrev (meta c) = (0 <? strlen (tokenContents carried)))
    as Hflush.
  { intros buffer carried extra start c -> Hc.
    destruct (carried ++ extra) as [|t b] eqn:Hb; [inversion Hc|].
    cbn [finalizeChunk yield] in Hc. apply list_elem_of_singleton in Hc.
    subst c. cbn [chunk_content meta overlapWithPrev].
    exists carried, extra. rewrite Hb. split; reflexivity. }
  assert (forall buffer,
            overlapContent (prepareOverlap options buffer)
            = tokenContents (nextBuffer (prepareOverlap options buffer)))
    as Hnext by (intros [|t b]; reflexivity).
  induction tokens as [|token rest IH];
    intros buffer pending carried extra bufferLen chunkStart -> ->.
  - cbn [processLoop]. destruct (0 <? _); [|constructor].
    apply Forall_forall. intros c Hc. eapply Hflush; [reflexivity | exact Hc].
  - cbn [processLoop].
    destruct ((maxLen options <? bufferLen + strlen (tok_content token))
              && (0 <? Z.of_nat (length (carried ++ extra)))).
    + set (kept := nextBuffer (prepareOverlap options (carried ++ extra))).
      destruct (targetLen options <=? _).
      * rewrite !Forall_app. split_and!.
        -- apply Forall_forall. intros c Hc.
           eapply Hflush; [reflexivity | exact Hc].
        -- apply Forall_forall. intros c Hc. rewrite Hnext in Hc.
           eapply Hflush; [reflexivity | exact Hc].
        -- eapply IH; [symmetry; apply app_nil_r | apply Hnext].
      * rewrite Forall_app. split.
        -- apply Forall_forall. intros c Hc.
           eapply Hflush; [reflexivity | exact Hc].
        -- eapply IH; [reflexivity | apply Hnext].
    + destruct (targetLen options <=? _); cbn [app].
      * rewrite Forall_app. split.
        -- apply Forall_forall. intros c Hc.
           eapply (Hflush _ carried (extra ++ [token]));
             [now rewrite app_assoc | exact Hc].
        -- eapply IH; [symmetry; apply app_nil_r | apply Hnext].
      * eapply IH; [now rewrite <- app_assoc | reflexivity].
Qed.

(** X22.  A chunk that overlaps the previous one holds the overlap text
    twice.  The text of such a chunk is the overlap text, a line break,
    and then the text of the whole token buffer, and that buffer itself
    starts with the tokens carried over, whose text is the overlap: the
    chunk begins with the overlap, a line break, and the overlap
    again. *)
Theorem overlapping_chunk_repeats_the_overlap
    (options : ChunkerOptions) (doc : SourceDocument) (c : DocumentChunk)
    (Hc : c ∈ chunkDocument options doc)
    (Hprev : overlapWithPrev (meta c) = true) :
  exists (carried extra : list TokenChunk) (tail : string),
    tokenContents carried <> ""%string /\
    chunk_content c
    = (tokenContents carried ++ newline ++ tokenContents (carried ++ extra))%string /\
    chunk_content c
    = (tokenContents carried ++ newline ++ tokenContents carried ++ tail)%string.
Proof.
  unfold chunkDocument in Hc.
  destruct (strlen (doc_content doc) <=? maxLen options).
  - apply list_elem_of_singleton in Hc. subst c. discriminate Hprev.
  - apply assignOrder_inv in Hc as (c' & i & Hin & ->).
    cbn [with_order meta overlapWithPrev chunk_content] in *.
    pose proof (processLoop_carried options doc (tokenizeDocument doc)
                  [] "" [] [] 0 0 eq_refl eq_refl) as Hall.
    rewrite Forall_forall in Hall.
    destruct (Hall c' Hin) as (carried & extra & Hcontent & Hflag).
    rewrite Hprev in Hflag. symmetry in Hflag. apply Z.ltb_lt in Hflag.
    assert (nonEmpty (tokenContents carried) = true) as Hne
      by now apply nonEmpty_strlen.
    rewrite Hne in Hcontent.
    assert (carried <> []) as Hcarried.
    { intros ->. discriminate Hne. }
    destruct (tokenContents_app carried extra Hcarried) as (tail & Htail).
    exists carried, extra, tail. split; [|split].
    + intros Hempty. rewrite Hempty in Hne. discriminate.
    + now rewrite Hcontent, String_append_assoc.
    + now rewrite Hcontent, Htail, String_append_assoc.
Qed.

Lemma overlapping_chunk_repeats_the_overlap_witness :
  exists c carried tail,
    chunkDocument testOptions (document markdown longContent) !! 1%nat = Some c /\
    tokenContents carried <> ""%string /\
    chunk_content c
    = (tokenContents carried ++ newline ++ tokenContents carried ++ tail)%string.
Proof.
  destruct (chunkDocument testOptions (document markdown longContent) !! 1%nat)
    as [c|] eqn:Hc; [|vm_compute in Hc; discriminate].
  assert (c ∈ chunkDocument testOptions (document markdown longContent)) as Hin
    by (eapply list_elem_of_lookup_2; exact Hc).
  assert (overlapWithPrev (meta c) = true) as Hprev
    by (vm_compute in Hc; injection Hc as <-; reflexivity).
  destruct (overlapping_chunk_repeats_the_overlap _ _ c Hin Hprev)
    as (carried & extra & tail & H1 & _ & H2).
  exists c, carried, tail. split; [reflexivity|]. split; [exact H1 | exact H2].
Defined.

(* ------------------------------------------------------------------ *)
(** ** What the overlap carries (src/document-chunker.ts, prepareOverlap) *)

Lemma totalLength_single (t : TokenChunk) :
  totalLength [t] = strlen (tok_content t).
Proof. unfold totalLength. cbn [foldr]. lia. Qed.

Lemma overlapTokens_budget (reversed : list TokenChunk) :
  forall budget,
    (forall t, t ∈ overlapTokens reversed budget ->
               isAtomic (tok_type t) = true -> t ∈ reversed) /\
    (totalLength (overlapTokens reversed budget) <= Z.max 0 budget \/
     exists t rest,
       overlapTokens reversed budget = t :: rest /\
       isAtomic (tok_type t) = true /\
       totalLength rest < budget /\
       budget - totalLength rest < strlen (tok_content t)).
Proof.
  induction reversed as [|token earlier IH]; intros budget; cbn [overlapTokens].
  - split; [intros t Ht; inversion Ht|]. left. cbn. lia.
  - destruct (Z.ltb_spec 0 budget) as [Hpos|Hnone];
      [|split; [intros t Ht; inversion Ht | left; cbn; lia]].
    destruct (Z.leb_spec (strlen (tok_content token)) budget) as [Hfits|Hbig].
    + destruct (IH (budget - strlen (tok_content token))) as [Hatom Hsize].
      split.
      * intros t Ht Ha. apply elem_of_app in Ht as [Ht|Ht].
        -- right. now apply Hatom.
        -- apply list_elem_of_singleton in Ht. subst. left.
      * destruct Hsize as [Hle|(t & rest & Heq & Ha & Hlt & Hover)].
        -- left. rewrite totalLength_snoc. lia.
        -- right. exists t, (rest ++ [token]). rewrite Heq.
           split; [reflexivity|]. split; [exact Ha|].
           rewrite totalLength_snoc. lia.
    + destruct (isAtomic (tok_type token)) eqn:Ha.
      * split.
        -- intros t Ht _. apply list_elem_of_singleton in Ht. subst. left.
        -- right. exists token, []. split; [reflexivity|]. split; [exact Ha|].
           change (totalLength []) with 0. lia.
      * destruct (String_slice_last budget (tok_content token)) as [Hlen _];
          [lia..|].
        pose proof (findSentenceBoundary_range
                      (String_slice (- budget) (tok_content token))) as Hrange.
        destruct (Z.ltb_spec 0 (findSentenceBoundary
                                  (String_slice (- budget) (tok_content token))))
          as [Hsb|Hsb]; [|lia].
        split.
        -- intros t Ht Hat. apply list_elem_of_singleton in Ht. subst t.
           cbn [with_content tok_type] in Hat. congruence.
        -- left. rewrite totalLength_single. cbn [with_content tok_content].
           destruct (String_slice_last
                       (findSentenceBoundary
                          (String_slice (- budget) (tok_content token)))
                       (tok_content token)) as [Hcut _]; lia.
Qed.

(** X23.  The overlap never splits a heading or a code block.  Every
    heading or code-fence token that [prepareOverlap] carries into the
    next buffer is a token of the flushed buffer, unchanged.  The text
    carried stays within the overlap budget, except when the earliest
    carried token is such an atomic token longer than what was left of
    the budget: it is carried whole. *)
Theorem prepareOverlap_keeps_atomic_tokens_whole
    (options : ChunkerOptions) (buffer : list TokenChunk) :
  let kept := nextBuffer (prepareOverlap options buffer) in
  (forall t, t ∈ kept -> isAtomic (tok_type t) = true -> t ∈ buffer) /\
  (totalLength kept <= Z.max 0 (overlap options) \/
   exists t rest,
     kept = t :: rest /\
     isAtomic (tok_type t) = true /\
     totalLength rest < overlap options /\
     overlap options - totalLength rest < strlen (tok_content t)).
Proof.
  cbn zeta. destruct buffer as [|b0 buffer].
  - cbn. split; [intros t Ht; inversion Ht | left; lia].
  - unfold prepareOverlap. cbn [nextBuffer].
    destruct (overlapTokens_budget (rev (b0 :: buffer)) (overlap options))
      as [Hatom Hsize].
    split; [|exact Hsize].
    intros t Ht Ha. rewrite list_elem_of_In, in_rev, <- list_elem_of_In.
    now apply Hatom.
Qed.

(* ------------------------------------------------------------------ *)
(** ** The heading trail (src/document-chunker.ts, extractHeadings) *)

Lemma String_span_hashes (level : nat) (rest : string) :
  String_span isHash (String_repeat (ch 35) level ++ " " ++ rest)
  = (level, (" " ++ rest)%string).
Proof.
  induction level as [|level IH]; [reflexivity|].
  cbn [String_repeat]. rewrite String_append_cons. cbn [String_span].
  change (isHash (ch 35)) with true. cbn iota. now rewrite IH.
Qed.

Lemma popHeadings_below (level : nat) (stack : list string) :
  StronglySorted (fun above below => (headingLevel below < headingLevel above)%nat)
    stack ->
  Forall (fun entry => (headingLevel entry <= 6)%nat) stack ->
  StronglySorted (fun above below => (headingLevel below < headingLevel above)%nat)
    (popHeadings level stack) /\
  Forall (fun entry => (1 <= headingLevel entry <= 6)%nat ->
                       (headingLevel entry < level)%nat)
         (popHeadings level stack) /\
  Forall (fun entry => entry ∈ stack) (popHeadings level stack).
Proof.
  induction stack as [|top below IH]; intros Hsorted Hrange; cbn [popHeadings].
  - repeat split; constructor.
  - apply StronglySorted_inv in Hsorted as [Hbelow Htop].
    apply Forall_cons in Hrange as [Hr Hrange].
    fold (headingLevel top). rewrite Nat.min_r by exact Hr.
    destruct (Nat.ltb_spec (headingLevel top) level) as [Hlt|Hge].
    + split; [now constructor|]. split.
      * constructor; [intros _; exact Hlt|].
        eapply Forall_impl; [exact Htop|]. cbn. intros entry H _. lia.
      * apply Forall_forall. auto.
    + destruct (IH Hbelow Hrange) as (H1 & H2 & H3).
      split; [exact H1|]. split; [exact H2|].
      eapply Forall_impl; [exact H3|]. cbn. intros entry H. now right.
Qed.

Lemma matchHeadingLine_level (line : string) (level : nat) (title : string) :
  matchHeadingLine line = Some (level, title) -> (1 <= level <= 6)%nat.
Proof.
  unfold matchHeadingLine. destruct (String_span isHash line) as [n rest].
  destruct (Nat.leb_spec 1 n); [|discriminate].
  destruct (Nat.leb_spec n 6); [|discriminate]. cbn [andb].
  destruct (matchSpacesThenRest rest); [|discriminate].
  intros [= <- _]. lia.
Qed.

(** X24.  The heading trail is a path through the outline.  The entries
    [extractHeadings] returns have levels between 1 and 6 (the number of
    [#] they start with) and strictly increasing from one entry to the
    next: no two entries of the trail are on the same level, and none is
    followed by a shallower one. *)
Theorem extractHeadings_levels_increase (content : string) (position : Z) :
  StronglySorted (fun earlier later =>
                    (headingLevel earlier < headingLevel later)%nat)
    (extractHeadings content position) /\
  Forall (fun entry => (1 <= headingLevel entry <= 6)%nat)
    (extractHeadings content position).
Proof.
  unfold extractHeadings.
  set (lines := String_split LF (String_substring0 position content)).
  set (push := fun (stack : list string) (line : string) =>
                 match matchHeadingLine line with
                 | Some (level, title) =>
                     (String_repeat (ch 35) level ++ " " ++ trim title)%string
                     :: popHeadings level stack
                 | None => stack
                 end).
  assert (forall stack,
            StronglySorted
              (fun above below => (headingLevel below < headingLevel above)%nat)
              stack ->
            Forall (fun entry => (1 <= headingLevel entry <= 6)%nat) stack ->
            StronglySorted
              (fun above below => (headingLevel below < headingLevel above)%nat)
              (foldl push stack lines) /\
            Forall (fun entry => (1 <= headingLevel entry <= 6)%nat)
              (foldl push stack lines)) as Hloop.
  { induction lines as [|line rest IH]; intros stack Hsorted Hrange;
      [now split|].
    cbn [foldl]. apply IH; unfold push.
    - destruct (matchHeadingLine line) as [[level title]|] eqn:Hm; [|exact Hsorted].
      destruct (popHeadings_below level stack Hsorted) as (H1 & H2 & H3).
      { eapply Forall_impl; [exact Hrange|]. cbn. lia. }
      constructor; [exact H1|].
      rewrite Forall_forall in H2, H3, Hrange. apply Forall_forall.
      intros entry Hin. unfold headingLevel at 2.
      rewrite String_span_hashes. cbn [fst].
      apply H2; [exact Hin|]. apply Hrange, H3, Hin.
    - destruct (matchHeadingLine line) as [[level title]|] eqn:Hm; [|exact Hrange].
      destruct (popHeadings_below level stack Hsorted) as (H1 & H2 & H3).
      { eapply Forall_impl; [exact Hrange|]. cbn. lia. }
      constructor.
      + unfold headingLevel. rewrite String_span_hashes. cbn [fst].
        now apply matchHeadingLine_level in Hm.
      + rewrite Forall_forall in H3, Hrange. apply Forall_forall.
        intros entry Hin. apply Hrange, H3, Hin. }
  destruct (Hloop [] ltac:(constructor) ltac:(constructor)) as [Hsorted Hrange].
  split.
  - clear Hrange Hloop. induction Hsorted as [|top below Hbelow IH Htop];
      [constructor|].
    cbn [rev]. apply StronglySorted_app_2; [|exact IH|repeat constructor].
    intros x1 x2 H1 H2. apply list_elem_of_singleton in H2. subst x2.
    rewrite Forall_forall in Htop. apply Htop.
    now rewrite list_elem_of_In, in_rev, <- list_elem_of_In.
  - apply Forall_forall. intros entry Hin. rewrite Forall_forall in Hrange.
    apply Hrange. now rewrite list_elem_of_In, in_rev, <- list_elem_of_In.
Qed.

(* ------------------------------------------------------------------ *)
(** ** Fingerprints (src/document-chunker.ts, hashContent) *)

Lemma String_length_append (a b : string) :
  String.length (a ++ b) = (String.length a + String.length b)%nat.
Proof.
  induction a as [|c a IH]; [reflexivity|].
  rewrite String_append_cons. cbn [String.length]. now rewrite IH.
Qed.

Lemma hexDigit_is_hex (x : Z) :
  let c := Sha1.hexDigit (Z.land x 15) in
  isDigit c || ((97 <=? charCode c)%N && (charCode c <=? 102)%N) = true.
Proof.
  cbn zeta. change 15 with (Z.ones 4). rewrite Z.land_ones by lia.
  pose proof (Z.mod_pos_bound x (2 ^ 4) ltac:(lia)) as Hrange.
  revert Hrange. generalize (x mod 2 ^ 4). intros n Hrange.
  assert (forallb (fun k : nat =>
                     let c := Sha1.hexDigit (Z.of_nat k) in
                     isDigit c
                     || ((97 <=? charCode c)%N && (charCode c <=? 102)%N))
                  (seq 0 16) = true) as Hall by reflexivity.
  rewrite forallb_forall in Hall.
  specialize (Hall (Z.to_nat n)). cbn zeta in Hall.
  rewrite Z2Nat.id in Hall by lia. apply Hall, in_seq. lia.
Qed.

Lemma hexWord_is_hex (n : nat) (x : Z) :
  String.length (Sha1.hexWord n x) = n /\
  String_forallb (fun c => isDigit c
                           || ((97 <=? charCode c)%N && (charCode c <=? 102)%N))
                 (Sha1.hexWord n x) = true.
Proof.
  induction n as [|n [IH1 IH2]]; [now split|].
  cbn [Sha1.hexWord String.length String_forallb]. rewrite IH1, IH2.
  split; [reflexivity|]. now rewrite hexDigit_is_hex.
Qed.

Lemma String_forallb_append (p : ascii -> bool) (a b : string) :
  String_forallb p (a ++ b) = String_forallb p a && String_forallb p b.
Proof.
  induction a as [|c a IH]; [reflexivity|].
  rewrite String_append_cons. cbn [String_forallb]. rewrite IH.
  now rewrite andb_assoc.
Qed.

Lemma digest_is_40_hex_digits (s : string) :
  String.length (Sha1.digest s) = 40%nat /\
  String_forallb (fun c => isDigit c
                           || ((97 <=? charCode c)%N && (charCode c <=? 102)%N))
                 (Sha1.digest s) = true.
Proof.
  unfold Sha1.digest.
  destruct (Sha1.blocks _ _ _) as [[[[h0 h1] h2] h3] h4].
  rewrite !String_length_append, !String_forallb_append.
  destruct (hexWord_is_hex 8 h0) as [-> ->], (hexWord_is_hex 8 h1) as [-> ->],
    (hexWord_is_hex 8 h2) as [-> ->], (hexWord_is_hex 8 h3) as [-> ->],
    (hexWord_is_hex 8 h4) as [-> ->].
  now split.
Qed.

Lemma String_take_length (n : nat) (s : string) :
  (n <= String.length s)%nat -> String.length (String_take n s) = n.
Proof.
  revert s. induction n as [|n IH]; intros s H; [reflexivity|].
  destruct s as [|c r]; cbn in H; [lia|].
  cbn [String_take String.length]. rewrite IH; lia.
Qed.

(** X25.  Every chunk carries the fingerprint of its own text.  For each
    chunk of a document, [hash] is the SHA-1 digest of the chunk's
    [content], written as 40 lower-case hexadecimal digits; [parentId] is
    the id of the document; and [id] is that id, a colon and the first 12
    digits of the hash, so it is 13 characters longer than the id of the
    document. *)
Theorem chunk_fingerprint (options : ChunkerOptions) (doc : SourceDocument)
    (c : DocumentChunk)
    (Hc : c ∈ chunkDocument options doc) :
  chunk_hash c = hashContent (chunk_content c) /\
  String.length (chunk_hash c) = 40%nat /\
  String_forallb (fun x => isDigit x
                           || ((97 <=? charCode x)%N && (charCode x <=? 102)%N))
                 (chunk_hash c) = true /\
  parentId c = doc_id doc /\
  chunk_id c = (doc_id doc ++ ":" ++ String_slice0 12 (chunk_hash c))%string /\
  String.length (chunk_id c) = (String.length (doc_id doc) + 13)%nat.
Proof.
  assert (chunk_hash c = hashContent (chunk_content c) /\
          parentId c = doc_id doc /\
          chunk_id c = (doc_id doc ++ ":" ++ String_slice0 12 (chunk_hash c))%string)
    as (Hhash & Hparent & Hid).
  { unfold chunkDocument in Hc.
    destruct (strlen (doc_content doc) <=? maxLen options).
    - apply list_elem_of_singleton in Hc. subst c. repeat split.
    - apply assignOrder_inv in Hc as (c' & i & Hin & ->).
      cbn [with_order chunk_hash chunk_content parentId chunk_id].
      pose proof (chained_flushes _ _ _ _
        (processLoop_chained options doc (tokenizeDocument doc) [] 0 "" 0))
        as Hall.
      rewrite Forall_forall in Hall.
      destruct (Hall c' Hin) as (buffer & start & before & Hflush).
      apply finalizeChunk_fields in Hflush as (_ & H1 & H2 & H3 & _).
      rewrite H2 at 2. now split. }
  destruct (digest_is_40_hex_digits (chunk_content c)) as [Hlen Hhex].
  fold (hashContent (chunk_content c)) in Hlen, Hhex. rewrite <- Hhash in Hlen, Hhex.
  split; [exact Hhash|]. split; [exact Hlen|]. split; [exact Hhex|].
  split; [exact Hparent|]. split; [exact Hid|].
  rewrite Hid, !String_length_append. unfold String_slice0.
  rewrite String_take_length by lia. cbn. lia.
Qed.

Lemma chunk_fingerprint_witness :
  exists c,
    chunkDocument testOptions (document markdown longContent) !! 0%nat = Some c /\
    chunk_hash c = hashContent (chunk_content c) /\
    String.length (chunk_id c) = 21%nat.
Proof.
  destruct (chunkDocument testOptions (document markdown longContent) !! 0%nat)
    as [c|] eqn:Hc; [|vm_compute in Hc; discriminate].
  destruct (chunk_fingerprint testOptions (document markdown longContent) c
              ltac:(eapply list_elem_of_lookup_2; exact Hc))
    as (H1 & _ & _ & _ & _ & H2).
  exists c. split; [reflexivity|]. split; [exact H1 | exact H2].
Defined.

(* ------------------------------------------------------------------ *)
(** ** Documents that yield no chunk (src/document-chunker.ts) *)

Lemma processLoop_some_chunk options doc tokens :
  forall buffer bufferLen pending chunkStart,
    tokens <> [] ->
    processLoop options doc tokens buffer bufferLen pending chunkStart <> [].
Proof.
  destruct tokens as [|token rest]; [congruence|].
  intros buffer bufferLen pending chunkStart _. cbn [processLoop].
  destruct ((maxLen options <? bufferLen + strlen (tok_content token))
            && (0 <? Z.of_nat (length buffer))).
  - destruct (targetLen options <=? _).
    + destruct (yield_finalizeChunk doc
                  (nextBuffer (prepareOverlap options buffer) ++ [token])
                  (nextStart (prepareOverlap options buffer))
                  (overlapContent (prepareOverlap options buffer))
                  (snoc_nonempty _ _)) as (c & -> & _).
      intros H. apply app_eq_nil in H as [_ H]. discriminate H.
    + intros H. apply app_eq_nil in H as [_ H].
      pose proof (processLoop_yields options doc rest
                    (nextBuffer (prepareOverlap options buffer) ++ [token])
                    (nextBufferLen (prepareOverlap options buffer)
                     + strlen (tok_content token))
                    (overlapContent (prepareOverlap options buffer))
                    (nextStart (prepareOverlap options buffer))
                    (snoc_nonempty _ _)) as Hlen.
      rewrite H in Hlen. cbn in Hlen. lia.
  - destruct (targetLen options <=? _); cbn [app].
    + destruct (yield_finalizeChunk doc (buffer ++ [token]) chunkStart pending
                  (snoc_nonempty _ _)) as (c & -> & _).
      discriminate.
    + intros H.
      pose proof (processLoop_yields options doc rest (buffer ++ [token])
                    (bufferLen + strlen (tok_content token)) pending chunkStart
                    (snoc_nonempty _ _)) as Hlen.
      rewrite H in Hlen. cbn in Hlen. lia.
Qed.

(** X26.  A markdown document always yields a chunk: whatever its
    content (even empty or blank) and whatever the options, the result of
    [chunkDocument] is not empty. *)
Theorem markdown_document_yields_a_chunk
    (options : ChunkerOptions) (doc : SourceDocument)
    (Hmime : doc_mime doc = markdown) :
  chunkDocument options doc <> [].
Proof.
  unfold chunkDocument.
  destruct (strlen (doc_content doc) <=? maxLen options); [discriminate|].
  intros H. apply (f_equal (@length _)) in H.
  rewrite assignOrder_length in H. apply length_zero_iff_nil in H.
  revert H. apply processLoop_some_chunk.
  unfold tokenizeDocument. rewrite Hmime.
  destruct (tokenizeLines_covers (length (String_split LF (doc_content doc)))
              (String_split LF (doc_content doc)) 0 (Nat.le_refl _)
              (String_split_nonempty LF (doc_content doc))) as (Hne & _).
  exact Hne.
Qed.

Lemma markdown_document_yields_a_chunk_witness :
  chunkDocument {| maxLen := 3; targetLen := 80; overlap := 20 |}
    (document markdown (String_repeat (ch 32) 5)) <> [].
Proof.
  exact (markdown_document_yields_a_chunk
           {| maxLen := 3; targetLen := 80; overlap := 20 |}
           (document markdown (String_repeat (ch 32) 5)) eq_refl).
Defined.

Lemma trim_blank (s : string) :
  String_forallb isWhiteSpace s = true -> trim s = ""%string.
Proof.
  unfold trim. induction s as [|c r IH]; [reflexivity|].
  cbn [String_forallb trimStart]. intros [Hc Hr]%andb_prop.
  rewrite Hc. now apply IH.
Qed.

Lemma splitParagraphs_blank (s : string) :
  forall skip,
    String_forallb isWhiteSpace s = true ->
    Forall (fun para => String_forallb isWhiteSpace para = true)
           (splitParagraphs skip s).
Proof.
  induction s as [|c r IH]; intros skip H; [now repeat constructor|].
  cbn [String_forallb] in H. apply andb_prop in H as [Hc Hr].
  cbn [splitParagraphs]. destruct skip as [|k]; [|now apply IH].
  destruct (matchBlankSeparator (String c r)).
  - constructor; [reflexivity | now apply IH].
  - pose proof (IH O Hr) as Hrest.
    destruct (splitParagraphs 0 r) as [|h t];
      [constructor; [cbn; now rewrite Hc | constructor]|].
    apply Forall_cons in Hrest as [Hh Ht].
    constructor; [|exact Ht]. cbn [String_forallb]. now rewrite Hc, Hh.
Qed.

Lemma plainTextTokens_blank (paragraphs : list string) :
  forall pos,
    Forall (fun para => String_forallb isWhiteSpace para = true) paragraphs ->
    plainTextTokens paragraphs pos = [].
Proof.
  induction paragraphs as [|para rest IH]; intros pos H; [reflexivity|].
  apply Forall_cons in H as [Hp Hrest]. cbn [plainTextTokens].
  rewrite (trim_blank para Hp). cbn [nonEmpty]. now apply IH.
Qed.

(** X27.  A blank document that is not markdown yields no chunk once it
    is longer than [maxLen].  When the content consists of white space
    only, the plain-text tokenizer (used for [text] and [pdf]) produces
    no token, so a document too long for the single-chunk path yields
    nothing at all, while a shorter one still yields its single
    chunk. *)
Theorem blank_text_document_yields_no_chunk
    (options : ChunkerOptions) (doc : SourceDocument)
    (Hmime : doc_mime doc <> markdown)
    (Hblank : String_forallb isWhiteSpace (doc_content doc) = true) :
  chunkDocument options doc
  = if strlen (doc_content doc) <=? maxLen options
    then [createSingleChunk doc] else [].
Proof.
  unfold chunkDocument.
  destruct (strlen (doc_content doc) <=? maxLen options); [reflexivity|].
  assert (tokenizeDocument doc = []) as ->.
  { unfold tokenizeDocument, tokenizePlainText.
    destruct (doc_mime doc); [congruence|..];
      apply plainTextTokens_blank, splitParagraphs_blank, Hblank. }
  reflexivity.
Qed.

Lemma blank_text_document_yields_no_chunk_witness :
  chunkDocument {| maxLen := 3; targetLen := 80; overlap := 20 |}
    (document text (String_repeat (ch 32) 5)) = [].
Proof.
  exact (blank_text_document_yields_no_chunk
           {| maxLen := 3; targetLen := 80; overlap := 20 |}
           (document text (String_repeat (ch 32) 5))
           ltac:(discriminate) eq_refl).
Defined.

(* ------------------------------------------------------------------ *)
(** ** Scanning the vault (src/delta.ts, shouldIncludeFile / scanVault) *)

Lemma getFileMetadata_Some (file : TFile) (metadata : FileMetadata) :
  getFileMetadata file = Some metadata <->
  exists content,
    file_content file = Some content /\
    metadata = {| fm_path := file_path file; fm_hash := Sha256.digest content;
                  fm_mtime := file_mtime file; fm_size := file_size file |}.
Proof.
  unfold getFileMetadata, getFileHash.
  destruct (file_content file) as [content|]; cbn.
  - split; [intros [= <-]; eauto | intros (c & [= <-] & ->); reflexivity].
  - split; [discriminate | intros (c & H & _); discriminate].
Qed.

Lemma Record_set_lookup {T} (record : gmap string T) (key : string) (value : T)
    (path : string) :
  Record_set record key value !! path
  = if decide (key = path /\ key <> "__proto__"%string) then Some value
    else record !! path.
Proof.
  unfold Record_set. destruct (String.eqb_spec key "__proto__") as [Hproto|Hkey].
  - rewrite decide_False by tauto. reflexivity.
  - destruct (decide (key = path)) as [->|Hne].
    + rewrite decide_True by tauto. apply lookup_insert_eq.
    + rewrite decide_False by tauto. now apply lookup_insert_ne.
Qed.

Lemma scan_loop (included : list TFile) :
  forall (fileState : gmap string FileMetadata) (path : string)
         (metadata : FileMetadata),
    foldl (fun fileState file =>
             match getFileMetadata file with
             | Some metadata => Record_set fileState (file_path file) metadata
             | None => fileState
             end) fileState included !! path = Some metadata ->
    fileState !! path = Some metadata \/
    (path <> "__proto__"%string /\
     exists file, file ∈ included /\ file_path file = path /\
                  getFileMetadata file = Some metadata).
Proof.
  induction included as [|file rest IH]; intros fileState path metadata;
    cbn [foldl]; [now left|].
  intros H. apply IH in H as [H|(Hpath & f & Hin & Hp & Hm)].
  - destruct (getFileMetadata file) as [md|] eqn:Hmd; [|now left].
    rewrite Record_set_lookup in H.
    destruct (decide _) as [[Heq Hkey]|_]; [|now left].
    injection H as ->. right. split; [congruence|].
    exists file. split; [left|]. now split.
  - right. split; [exact Hpath|]. exists f. split; [now right|]. now split.
Qed.

Lemma scan_loop_covers (included : list TFile) :
  forall (fileState : gmap string FileMetadata) (path : string),
    is_Some (fileState !! path) \/
    (path <> "__proto__"%string /\
     exists file, file ∈ included /\ file_path file = path /\
                  is_Some (file_content file)) ->
    is_Some (foldl (fun fileState file =>
                      match getFileMetadata file with
                      | Some metadata =>
                          Record_set fileState (file_path file) metadata
                      | None => fileState
                      end) fileState included !! path).
Proof.
  induction included as [|file rest IH]; intros fileState path H; cbn [foldl].
  - destruct H as [H|(_ & f & Hin & _)]; [exact H | inversion Hin].
  - apply IH. destruct H as [H|(Hpath & f & Hin & Hp & Hc)].
    + left. destruct (getFileMetadata file); [|exact H].
      rewrite Record_set_lookup. destruct (decide _); [eauto | exact H].
    + apply elem_of_cons in Hin as [->|Hin].
      * left. destruct Hc as [content Hc].
        unfold getFileMetadata, getFileHash. rewrite Hc. cbn.
        rewrite Record_set_lookup, decide_True; [eauto|].
        split; congruence.
      * right. split; [exact Hpath|]. exists f. now split.
Qed.

Lemma scanVault_entry (minimatch : string -> string -> bool)
    (includeGlobs excludeGlobs : list string) (vault : Vault) (path : string)
    (metadata : FileMetadata) :
  scanVault minimatch includeGlobs excludeGlobs vault !! path = Some metadata ->
  path <> "__proto__"%string /\
  exists file content,
    file ∈ vault /\ file_path file = path /\
    file_content file = Some content /\
    metadata = {| fm_path := path; fm_hash := Sha256.digest content;
                  fm_mtime := file_mtime file; fm_size := file_size file |}.
Proof.
  unfold scanVault. intros H.
  apply scan_loop in H as [H|(Hpath & file & Hin & Hp & Hm)];
    [now rewrite lookup_empty in H|].
  split; [exact Hpath|].
  apply list_elem_of_In, filter_In in Hin as [Hin _].
  apply list_elem_of_In in Hin.
  apply getFileMetadata_Some in Hm as (content & Hc & ->).
  exists file, content. rewrite Hp. auto.
Qed.

(** The loop that follows the prototype of the record. *)
Lemma prototype_loop (included : list TFile) :
  forall (prototype : option FileMetadata),
    is_Some (foldl (fun prototype file =>
                      match getFileMetadata file with
                      | Some metadata =>
                          if String.eqb (file_path file) "__proto__"
                          then Some metadata else prototype
                      | None => prototype
                      end) prototype included)
    <-> is_Some prototype \/
        exists file, file ∈ included /\ file_path file = "__proto__"%string /\
                     is_Some (file_content file).
Proof.
  induction included as [|file rest IH]; intros prototype; cbn [foldl].
  - split; [now left|]. intros [H|(f & Hin & _)]; [exact H | inversion Hin].
  - rewrite IH. setoid_rewrite elem_of_cons.
    destruct (getFileMetadata file) as [md|] eqn:Hmd.
    + apply getFileMetadata_Some in Hmd as (content & Hc & _).
      destruct (String.eqb_spec (file_path file) "__proto__") as [Hp|Hp].
      * split; [|intros _; left; eauto].
        intros _. right. exists file. rewrite Hc. eauto.
      * split; [intros [H|(f & Hin & Hrest)]; [now left | right; eauto]|].
        intros [H|(f & [->|Hin] & Hf & Hrest)]; [now left | contradiction |].
        right. eauto.
    + assert (file_content file = None) as Hnone.
      { unfold getFileMetadata, getFileHash in Hmd.
        now destruct (file_content file). }
      split; [intros [H|(f & Hin & Hrest)]; [now left | right; eauto]|].
      intros [H|(f & [->|Hin] & Hf & Hrest)]; [now left | |right; eauto].
      rewrite Hnone in Hrest. now destruct Hrest.
Qed.

(** The digest of the repository's hash test. *)
Lemma getFileHash_test :
  getFileHash (note "note.md" "# Test Content" 1000)
  = Some "eb3ea244fc201b681f033362a20efb9f55ff3127f96e6f6c508d59553b8ce2cd"%string.
Proof. vm_compute. reflexivity. Qed.

Lemma shouldIncludeFile_iff (minimatch : string -> string -> bool)
    (includeGlobs excludeGlobs : list string) (path : string) :
  shouldIncludeFile minimatch includeGlobs excludeGlobs path = true <->
  (forall pattern, pattern ∈ excludeGlobs -> minimatch path pattern = false) /\
  (exists pattern, pattern ∈ includeGlobs /\ minimatch path pattern = true).
Proof.
  unfold shouldIncludeFile.
  destruct (existsb (minimatch path) excludeGlobs) eqn:Hex.
  - apply existsb_exists in Hex as (pattern & Hin & Hm).
    split; [discriminate|]. intros [Hnone _].
    apply list_elem_of_In in Hin. rewrite (Hnone pattern Hin) in Hm.
    discriminate.
  - rewrite existsb_exists. setoid_rewrite <- list_elem_of_In.
    split; intros H; [split; [|exact H] | tauto].
    intros pattern Hin. apply not_true_is_false. intros Hm.
    apply not_true_iff_false in Hex. apply Hex, existsb_exists.
    exists pattern. split; [now apply list_elem_of_In | exact Hm].
Qed.

(** X28.  What a scan records.  A path is in the result of [scanVault]
    exactly when it is not [__proto__], the vault has a readable file of
    that path, no exclude pattern matches the path and some include
    pattern does (exclusion wins over inclusion); the entry of a path
    holds the path, the modification time and the size of such a file,
    and the SHA-256 digest of its content.  A readable file named
    [__proto__] that the patterns let in is not recorded: its metadata
    becomes the prototype of the record. *)
Theorem scanVault_records_included_files
    (minimatch : string -> string -> bool)
    (includeGlobs excludeGlobs : list string) (vault : Vault) (path : string) :
  let scan := scanVault minimatch includeGlobs excludeGlobs vault in
  let wanted (path : string) :=
    (exists file, file ∈ vault /\ file_path file = path /\
                  is_Some (file_content file)) /\
    (forall pattern, pattern ∈ excludeGlobs -> minimatch path pattern = false) /\
    (exists pattern, pattern ∈ includeGlobs /\ minimatch path pattern = true) in
  (is_Some (scan !! path) <-> path <> "__proto__"%string /\ wanted path) /\
  (forall metadata,
     scan !! path = Some metadata ->
     exists file content,
       file ∈ vault /\ file_path file = path /\
       file_content file = Some content /\
       metadata = {| fm_path := path; fm_hash := Sha256.digest content;
                     fm_mtime := file_mtime file; fm_size := file_size file |}) /\
  (is_Some (scanPrototype minimatch includeGlobs excludeGlobs vault)
   <-> wanted "__proto__"%string).
Proof.
  cbn zeta.
  set (keep := fun file : TFile =>
                 shouldIncludeFile minimatch includeGlobs excludeGlobs
                   (file_path file)).
  assert (forall p,
            (exists file, file ∈ List.filter keep vault /\ file_path file = p /\
                          is_Some (file_content file)) <->
            (exists file, file ∈ vault /\ file_path file = p /\
                          is_Some (file_content file)) /\
            (forall pattern, pattern ∈ excludeGlobs ->
                             minimatch p pattern = false) /\
            (exists pattern, pattern ∈ includeGlobs /\
                             minimatch p pattern = true)) as Hkept.
  { intros p. rewrite <- shouldIncludeFile_iff. split.
    - intros (file & Hin & Hp & Hc).
      apply list_elem_of_In, filter_In in Hin as [Hin Hk].
      apply list_elem_of_In in Hin. unfold keep in Hk. rewrite Hp in Hk.
      split; [eauto | exact Hk].
    - intros ((file & Hin & Hp & Hc) & Hk). exists file.
      split; [|now split].
      apply list_elem_of_In, filter_In. split; [now apply list_elem_of_In|].
      unfold keep. now rewrite Hp. }
  split; [split|split].
  - intros [metadata H]. unfold scanVault in H.
    apply scan_loop in H as [H|(Hpath & file & Hin & Hp & Hm)];
      [now rewrite lookup_empty in H|].
    split; [exact Hpath|]. apply Hkept. exists file.
    apply getFileMetadata_Some in Hm as (content & Hc & _).
    rewrite Hc. eauto.
  - intros [Hpath Hwanted]. apply scan_loop_covers. right.
    split; [exact Hpath|]. now apply Hkept.
  - intros metadata H. now apply scanVault_entry in H as [_ H].
  - unfold scanPrototype. fold keep. rewrite prototype_loop, <- Hkept.
    split; [intros [[x H]|H]; [discriminate | exact H] | now right].
Qed.

(* ------------------------------------------------------------------ *)
(** ** The delta plan (src/delta.ts, generateDeltaPlan) *)

Lemma getAbstractFileByPath_unique (vault : Vault) (file : TFile) :
  NoDup (file_path <$> vault) -> file ∈ vault ->
  getAbstractFileByPath vault (file_path file) = Some file.
Proof.
  unfold getAbstractFileByPath.
  induction vault as [|f rest IH]; intros Hnd Hin; [inversion Hin|].
  rewrite fmap_cons in Hnd. apply NoDup_cons in Hnd as [Hf Hrest].
  cbn [find]. apply elem_of_cons in Hin as [->|Hin].
  - now rewrite String.eqb_refl.
  - destruct (String.eqb_spec (file_path f) (file_path file)) as [Heq|_];
      [|now apply IH].
    exfalso. apply Hf. rewrite Heq. apply list_elem_of_fmap. eauto.
Qed.

Lemma countIf_cons {A} (f : A -> bool) (x : A) (l : list A) :
  countIf f (x :: l) = (if f x then 1 else 0) + countIf f l.
Proof.
  unfold countIf, len. cbn [List.filter]. destruct (f x); cbn [length]; lia.
Qed.

Lemma countIf_nonneg {A} (f : A -> bool) (l : list A) : 0 <= countIf f l.
Proof. unfold countIf, len. lia. Qed.

Lemma planDeletes_spec (currentFiles : gmap string FileMetadata)
    (prototype : option FileMetadata) (entries : list (string * FileMetadata)) :
  forall actions stats,
  exists deletes,
    planDeletes currentFiles prototype entries actions stats
    = (actions ++ deletes,
       {| added := added stats; updated := updated stats;
          deleted := deleted stats + len deletes;
          unchanged := unchanged stats |}) /\
    (forall a, a ∈ deletes <->
               exists path, path ∈ entries.*1 /\
                            tracked currentFiles prototype path = false /\
                            a = deleteAction path).
Proof.
  induction entries as [|[path meta] rest IH]; intros actions stats;
    cbn [planDeletes].
  - exists []. rewrite app_nil_r, Z.add_0_r. split; [now destruct stats|].
    intros a. split; [intros H; inversion H|].
    intros (p & H & _). inversion H.
  - destruct (tracked currentFiles prototype path) eqn:Hcur.
    + destruct (IH actions stats) as (deletes & -> & Hin).
      exists deletes. split; [reflexivity|]. intros a. rewrite Hin.
      rewrite fmap_cons. cbn [fst]. setoid_rewrite elem_of_cons.
      split; [intros (p & Hp & Hc & ->); eauto|].
      intros (p & [->|Hp] & Hc & ->); [congruence | eauto].
    + destruct (IH (actions ++ [deleteAction path])
                  {| added := added stats; updated := updated stats;
                     deleted := deleted stats + 1;
                     unchanged := unchanged stats |})
        as (deletes & -> & Hin).
      exists (deleteAction path :: deletes).
      split.
      * rewrite <- app_assoc. cbn [app added updated deleted unchanged].
        do 2 f_equal. unfold len. cbn [length]. lia.
      * intros a. rewrite elem_of_cons, Hin, fmap_cons. cbn [fst].
        setoid_rewrite elem_of_cons. split.
        -- intros [->|(p & Hp & Hc & ->)]; eauto 10.
        -- intros (p & [->|Hp] & Hc & ->); eauto 10.
Qed.

Lemma planUpserts_spec (vault : Vault) (previousFiles : gmap string FileMetadata)
    (entries : list (string * FileMetadata)) :
  (forall path meta, (path, meta) ∈ entries ->
     exists file content,
       getAbstractFileByPath vault path = Some file /\
       file_content file = Some content) ->
  forall actions stats,
  exists upserts stats',
    planUpserts vault previousFiles entries actions stats
    = Some (actions ++ upserts, stats') /\
    added stats'
    = added stats + countIf (fun entry => isNew previousFiles entry.1) entries /\
    updated stats'
    = updated stats
      + countIf (fun entry => hasChanged previousFiles entry.1 entry.2) entries /\
    added stats' + updated stats' + unchanged stats'
    = added stats + updated stats + unchanged stats + len entries /\
    added stats' + updated stats'
    = added stats + updated stats + len upserts /\
    deleted stats' = deleted stats /\
    (forall a, a ∈ upserts <->
       exists path meta file content,
         (path, meta) ∈ entries /\
         isNew previousFiles path || hasChanged previousFiles path meta = true /\
         getAbstractFileByPath vault path = Some file /\
         file_content file = Some content /\
         a = upsertAction path meta file content).
Proof.
  induction entries as [|[path meta] rest IH]; intros Hread actions stats;
    cbn [planUpserts].
  - exists [], stats. rewrite app_nil_r. change (len []) with 0.
    unfold countIf. cbn [List.filter]. change (len []) with 0.
    split; [reflexivity|]. split; [lia|]. split; [lia|].
    split; [lia|]. split; [lia|]. split; [reflexivity|].
    intros a. split; [intros H; inversion H|].
    intros (p & m & f & c & H & _). inversion H.
  - assert (forall p m, (p, m) ∈ rest ->
              exists file content,
                getAbstractFileByPath vault p = Some file /\
                file_content file = Some content) as Hrest
      by (intros p m H; apply (Hread p m); now right).
    destruct (Hread path meta ltac:(left)) as (file & content & Hfile & Hcontent).
    assert (len ((path, meta) :: rest) = len rest + 1) as Hlen
      by (unfold len; cbn [length]; lia).
    rewrite !countIf_cons. cbn [fst snd]. unfold isNew at 1, hasChanged at 1.
    destruct (previousFiles !! path) as [previousMeta|] eqn:Hprev.
    + destruct (String.eqb_spec (fm_hash meta) (fm_hash previousMeta))
        as [Hsame|Hdiff]; cbn [negb].
      * destruct (IH Hrest actions
                    {| added := added stats; updated := updated stats;
                       deleted := deleted stats;
                       unchanged := unchanged stats + 1 |})
          as (upserts & stats' & -> & Ha & Hu & H1 & H2 & H5 & Hin).
        cbn [added updated deleted unchanged] in *.
        exists upserts, stats'. split; [reflexivity|].
        split; [lia|]. split; [lia|]. split; [lia|]. split; [lia|].
        split; [exact H5|].
        intros a. rewrite Hin. setoid_rewrite elem_of_cons. split.
        -- intros (p & m & f & c & H & Hrestp); exists p, m, f, c; tauto.
        -- intros (p & m & f & c & [[= -> ->]|H] & Hcase & Hrestp).
           ++ unfold isNew, hasChanged in Hcase. rewrite Hprev, Hsame in Hcase.
              rewrite String.eqb_refl in Hcase. discriminate.
           ++ exists p, m, f, c; tauto.
      * rewrite Hfile. cbn [mbind option_bind]. rewrite Hcontent.
        cbn [mbind option_bind].
        destruct (IH Hrest (actions ++ [upsertAction path meta file content])
                    {| added := added stats; updated := updated stats + 1;
                       deleted := deleted stats;
                       unchanged := unchanged stats |})
          as (upserts & stats' & -> & Ha & Hu & H1 & H2 & H5 & Hin).
        cbn [added updated deleted unchanged] in *.
        exists (upsertAction path meta file content :: upserts), stats'.
        rewrite <- app_assoc. split; [reflexivity|].
        assert (len (upsertAction path meta file content :: upserts)
                = len upserts + 1) as -> by (unfold len; cbn [length]; lia).
        split; [lia|]. split; [lia|]. split; [lia|]. split; [lia|].
        split; [exact H5|].
        intros a. rewrite elem_of_cons, Hin. setoid_rewrite elem_of_cons. split.
        -- intros [->|(p & m & f & c & H & Hrestp)].
           ++ exists path, meta, file, content. split; [now left|].
              split; [|auto]. unfold isNew, hasChanged. rewrite Hprev.
              now destruct (String.eqb_spec (fm_hash meta) (fm_hash previousMeta)).
           ++ exists p, m, f, c; tauto.
        -- intros (p & m & f & c & [[= -> ->]|H] & Hcase & Hf & Hc & ->).
           ++ left. rewrite Hfile in Hf. injection Hf as <-.
              rewrite Hcontent in Hc. now injection Hc as <-.
           ++ right. exists p, m, f, c; tauto.
    + rewrite Hfile. cbn [mbind option_bind]. rewrite Hcontent.
      cbn [mbind option_bind].
      destruct (IH Hrest (actions ++ [upsertAction path meta file content])
                  (if inherited path then
                     {| added := added stats; updated := updated stats + 1;
                        deleted := deleted stats;
                        unchanged := unchanged stats |}
                   else
                     {| added := added stats + 1; updated := updated stats;
                        deleted := deleted stats;
                        unchanged := unchanged stats |}))
        as (upserts & stats' & -> & Ha & Hu & H1 & H2 & H5 & Hin).
      exists (upsertAction path meta file content :: upserts), stats'.
      rewrite <- app_assoc. split; [reflexivity|].
      assert (len (upsertAction path meta file content :: upserts)
              = len upserts + 1) as -> by (unfold len; cbn [length]; lia).
      destruct (inherited path) eqn:Hkey;
        cbn [added updated deleted unchanged negb] in *;
        (split; [lia|]; split; [lia|]; split; [lia|]; split; [lia|];
         split; [exact H5|]);
        intros a; rewrite elem_of_cons, Hin; setoid_rewrite elem_of_cons;
        (split;
         [ intros [->|(p & m & f & c & H & Hrestp)];
           [ exists path, meta, file, content; split; [now left|];
             split; [|auto]; unfold isNew, hasChanged; now rewrite Hprev, Hkey
           | exists p, m, f, c; tauto ]
         | intros (p & m & f & c & [[= -> ->]|H] & Hcase & Hf & Hc & ->);
           [ left; rewrite Hfile in Hf; injection Hf as <-;
             rewrite Hcontent in Hc; now injection Hc as <-
           | right; exists p, m, f, c; tauto ] ]).
Qed.

Section DeltaPlan.

Variable minimatch : string -> string -> bool.
Variable Object_entries :
  gmap string FileMetadata -> list (string * FileMetadata).
Variable includeGlobs excludeGlobs : list string.

(** [Object.entries] enumerates the own properties of the record, each
    once. *)
Hypothesis Object_entries_enumerates :
  forall record, Object_entries record ≡ₚ map_to_list record.

Lemma Object_entries_elem (record : gmap string FileMetadata)
    (path : string) (meta : FileMetadata) :
  (path, meta) ∈ Object_entries record <-> record !! path = Some meta.
Proof.
  rewrite (Object_entries_enumerates record). apply elem_of_map_to_list.
Qed.

Lemma Object_entries_keys (record : gmap string FileMetadata) (path : string) :
  path ∈ (Object_entries record).*1 <-> is_Some (record !! path).
Proof.
  rewrite list_elem_of_fmap. split.
  - intros ([p m] & -> & H). apply Object_entries_elem in H. cbn. eauto.
  - intros [m H]. exists (path, m). split; [reflexivity|].
    now apply Object_entries_elem.
Qed.

Lemma Object_entries_length (record : gmap string FileMetadata) :
  len (Object_entries record) = Z.of_nat (size record).
Proof.
  unfold len. now rewrite (Object_entries_enumerates record), length_map_to_list.
Qed.

(** X29.  The plan accounts for every path.  When no two files of the
    vault share a path, [generateDeltaPlan] returns a plan in which the
    upserts come first and the deletions after them; every scanned path
    is counted once as added, updated or unchanged, and there are as many
    upserts as added and updated paths and as many deletions as the
    [deleted] count says.  A scanned path is added when the previous
    record has no property of that name, own or inherited from
    [Object.prototype], and updated when the record holds it with another
    hash (a change of the modification time alone is not an update) or
    only inherits the name; it is upserted exactly in these two cases,
    the upsert carrying the content of the file.  A deletion is planned
    exactly for the paths of the previous state for which the scanned
    record has no truthy value, own or inherited.  No scanned file is to
    be named like a field of the metadata, so that the plan is the same
    for a previous state read from its file and for one still in
    memory. *)
Theorem generateDeltaPlan_accounts_for_every_path
    (vault : Vault) (previousState : option FileState)
    (Hpaths : NoDup (file_path <$> vault))
    (Hfields : forall path,
       path ∈ metadataFields ->
       scanVault minimatch includeGlobs excludeGlobs vault !! path = None) :
  let current := scanVault minimatch includeGlobs excludeGlobs vault in
  let prototype := scanPrototype minimatch includeGlobs excludeGlobs vault in
  let previous :=
    match previousState with Some state => files state | None => ∅ end in
  exists upserts deletes stats,
    generateDeltaPlan minimatch Object_entries includeGlobs excludeGlobs
      vault previousState
    = Some {| plan_actions := upserts ++ deletes; plan_stats := stats |} /\
    added stats
    = countIf (fun entry => isNew previous entry.1) (Object_entries current) /\
    updated stats
    = countIf (fun entry => hasChanged previous entry.1 entry.2)
        (Object_entries current) /\
    added stats + updated stats + unchanged stats = Z.of_nat (size current) /\
    added stats + updated stats = len upserts /\
    deleted stats = len deletes /\
    (forall a, a ∈ upserts <->
       exists path meta file content,
         current !! path = Some meta /\
         isNew previous path || hasChanged previous path meta = true /\
         file ∈ vault /\ file_path file = path /\
         file_content file = Some content /\
         a = upsertAction path meta file content) /\
    (forall a, a ∈ deletes <->
       exists path,
         is_Some (previous !! path) /\
         tracked current prototype path = false /\
         a = deleteAction path).
Proof.
  cbn zeta. unfold generateDeltaPlan.
  set (current := scanVault minimatch includeGlobs excludeGlobs vault).
  set (prototype := scanPrototype minimatch includeGlobs excludeGlobs vault).
  set (previous := match previousState with
                   | Some state => files state
                   | None => ∅
                   end).
  assert (forall path meta, current !! path = Some meta ->
            exists file content,
              file ∈ vault /\ file_path file = path /\
              file_content file = Some content /\
              getAbstractFileByPath vault path = Some file) as Hfound.
  { intros path meta Hm.
    destruct (scanVault_entry minimatch includeGlobs excludeGlobs vault path
                meta Hm) as (_ & file & content & Hin & Hp & Hc & _).
    destruct (getAbstractFileByPath vault path) as [found|] eqn:Hfind.
    - pose proof (getAbstractFileByPath_unique vault file Hpaths Hin) as Hu.
      rewrite Hp, Hfind in Hu. injection Hu as ->. eauto 10.
    - pose proof (getAbstractFileByPath_unique vault file Hpaths Hin) as Hu.
      rewrite Hp, Hfind in Hu. discriminate. }
  destruct (planUpserts_spec vault previous (Object_entries current)) with
    (actions := @nil DeltaAction) (stats := noStats)
    as (upserts & stats1 & -> & Ha & Hu & H1 & H2 & H5 & Hup).
  { intros path meta Hin. apply Object_entries_elem in Hin.
    destruct (Hfound path meta Hin) as (file & content & _ & _ & Hc & Hf).
    eauto. }
  cbn [mbind option_bind app].
  destruct (planDeletes_spec current prototype (Object_entries previous)
              upserts stats1) as (deletes & -> & Hdel).
  cbn [added updated deleted unchanged noStats] in *.
  exists upserts, deletes. eexists. split; [reflexivity|].
  cbn [added updated deleted unchanged].
  rewrite Object_entries_length in H1.
  split; [lia|]. split; [lia|]. split; [lia|]. split; [lia|]. split; [lia|].
  split.
  - intros a. rewrite Hup. split.
    + intros (path & meta & file & content & Hin & Hcase & Hf & Hc & ->).
      apply Object_entries_elem in Hin.
      destruct (Hfound path meta Hin) as (file' & content' & Hv & Hp & _ & Hf').
      rewrite Hf in Hf'. injection Hf' as <-.
      exists path, meta, file, content. auto 10.
    + intros (path & meta & file & content & Hm & Hcase & Hv & Hp & Hc & ->).
      pose proof (getAbstractFileByPath_unique vault file Hpaths Hv) as Hunique.
      rewrite Hp in Hunique.
      exists path, meta, file, content.
      split; [now apply Object_entries_elem|]. auto.
  - intros a. rewrite Hdel. split.
    + intros (path & Hin & Hnone & ->). exists path.
      split; [now apply Object_entries_keys|]. now split.
    + intros (path & Hsome & Hnone & ->). exists path.
      split; [now apply Object_entries_keys|]. now split.
Qed.

(** X30.  Nothing to do when nothing changed.  When the previous state
    tracks exactly the scanned paths, each with the hash it has now,
    [generateDeltaPlan] returns an empty plan that counts every scanned
    path as unchanged; modification times and sizes play no part.  This
    is the case for the state [createCurrentState] has just made of the
    same vault. *)
Theorem generateDeltaPlan_of_unchanged_vault
    (vault : Vault) (previousState : FileState)
    (Hsame : forall path,
       match scanVault minimatch includeGlobs excludeGlobs vault !! path,
             files previousState !! path with
       | Some currentMeta, Some previousMeta =>
           fm_hash currentMeta = fm_hash previousMeta
       | None, None => True
       | _, _ => False
       end) :
  generateDeltaPlan minimatch Object_entries includeGlobs excludeGlobs
    vault (Some previousState)
  = Some {| plan_actions := [];
            plan_stats :=
              {| added := 0; updated := 0; deleted := 0;
                 unchanged :=
                   Z.of_nat (size (scanVault minimatch includeGlobs
                                     excludeGlobs vault)) |} |}.
Proof.
  unfold generateDeltaPlan.
  set (current := scanVault minimatch includeGlobs excludeGlobs vault) in *.
  set (prototype := scanPrototype minimatch includeGlobs excludeGlobs vault).
  assert (forall entries stats,
            (forall path meta, (path, meta) ∈ entries ->
                               current !! path = Some meta) ->
            planUpserts vault (files previousState) entries [] stats
            = Some ([], {| added := added stats; updated := updated stats;
                           deleted := deleted stats;
                           unchanged := unchanged stats + len entries |}))
    as Hup.
  { induction entries as [|[path meta] rest IH]; intros stats Hin.
    - cbn. rewrite Z.add_0_r. now destruct stats.
    - cbn [planUpserts]. specialize (Hsame path).
      rewrite (Hin path meta ltac:(left)) in Hsame.
      destruct (files previousState !! path) as [pm|]; [|contradiction].
      rewrite Hsame, String.eqb_refl. cbn [negb].
      rewrite IH by (intros p m H; apply Hin; now right).
      cbn [added updated deleted unchanged]. do 3 f_equal.
      unfold len. cbn [length]. lia. }
  assert (forall entries stats,
            (forall path meta, (path, meta) ∈ entries ->
                               is_Some (current !! path)) ->
            planDeletes current prototype entries [] stats = ([], stats))
    as Hdel.
  { induction entries as [|[path meta] rest IH]; intros stats Hin;
      [reflexivity|].
    cbn [planDeletes]. unfold tracked.
    destruct (Hin path meta ltac:(left)) as [cm ->].
    apply IH. intros p m H. apply (Hin p m). now right. }
  rewrite Hup by (intros path meta H; now apply Object_entries_elem).
  cbn [mbind option_bind]. rewrite Hdel.
  - cbn [noStats added updated deleted unchanged].
    now rewrite Object_entries_length.
  - intros path meta H. apply Object_entries_elem in H.
    specialize (Hsame path). rewrite H in Hsame.
    destruct (current !! path); [eauto | contradiction].
Qed.

End DeltaPlan.

Lemma generateDeltaPlan_accounts_for_every_path_witness :
  exists upserts deletes stats,
    generateDeltaPlan testMatch map_to_list ["**/*.md"%string]
      ["**/.obsidian/**"%string] testVault None
    = Some {| plan_actions := upserts ++ deletes; plan_stats := stats |} /\
    added stats = 2 /\ updated stats = 0 /\ unchanged stats = 0 /\
    len upserts = 2 /\ len deletes = 0.
Proof.
  destruct (generateDeltaPlan_accounts_for_every_path testMatch map_to_list
              ["**/*.md"%string] ["**/.obsidian/**"%string]
              (fun record => reflexivity (map_to_list record)) testVault None)
    as (upserts & deletes & stats & H1 & H2 & H3 & H4 & H5 & H6 & _ & H7).
  { apply (bool_decide_unpack (NoDup _)). vm_compute. exact I. }
  { intros path Hpath. unfold metadataFields in Hpath.
    rewrite !elem_of_cons, elem_of_nil in Hpath.
    destruct Hpath as [->|[->|[->|[->|[]]]]]; vm_compute; reflexivity. }
  exists upserts, deletes, stats. split; [exact H1|].
  assert (len deletes = 0) as Hd.
  { destruct deletes as [|a rest]; [reflexivity|].
    destruct (proj1 (H7 a) ltac:(left)) as (path & [meta Hsome] & _).
    now rewrite lookup_empty in Hsome. }
  assert (added stats = 2) as Ha by (rewrite H2; vm_compute; reflexivity).
  assert (updated stats = 0) as Hu by (rewrite H3; vm_compute; reflexivity).
  assert (Z.of_nat (size (scanVault testMatch ["**/*.md"%string]
                            ["**/.obsidian/**"%string] testVault)) = 2)
    as Hsize by (vm_compute; reflexivity).
  rewrite Hsize in H4. rewrite Ha, Hu in *.
  repeat split; lia.
Defined.

Lemma generateDeltaPlan_of_unchanged_vault_witness :
  generateDeltaPlan testMatch map_to_list ["**/*.md"%string]
    ["**/.obsidian/**"%string] testVault
    (Some (createCurrentState testMatch ["**/*.md"%string]
             ["**/.obsidian/**"%string] 5000 testVault))
  = Some {| plan_actions := [];
            plan_stats :=
              {| added := 0; updated := 0; deleted := 0;
                 unchanged :=
                   Z.of_nat (size (scanVault testMatch ["**/*.md"%string]
                                     ["**/.obsidian/**"%string] testVault)) |} |}.
Proof.
  apply (generateDeltaPlan_of_unchanged_vault testMatch map_to_list
           ["**/*.md"%string] ["**/.obsidian/**"%string]
           (fun record => reflexivity (map_to_list record))).
  intros path. cbn [createCurrentState files].
  now destruct (scanVault _ _ _ _ !! path).
Defined.

(** Names that the records inherit.  In a vault with the files
    [constructor], [__proto__] and [a.md], scanned against a state that
    tracks [toString], [size] and [gone.md]: the scan records two paths,
    [__proto__] not being one of them; [a.md] is added and [constructor]
    updated; and only [gone.md] is deleted, [toString] being inherited
    from [Object.prototype] and [size] from the metadata of the file
    [__proto__]. *)
Lemma generateDeltaPlan_inherited_names :
  let plan :=
    generateDeltaPlan anyMatch map_to_list ["**"%string] [] oddVault
      (Some oddState) in
  size (scanVault anyMatch ["**"%string] [] oddVault) = 2%nat /\
  scanVault anyMatch ["**"%string] [] oddVault !! "__proto__"%string = None /\
  plan_stats <$> plan
  = Some {| added := 1; updated := 1; deleted := 1; unchanged := 0 |} /\
  (List.filter (fun a => match act_action a with Delete => true | _ => false end) <$>
     (plan_actions <$> plan))
  = Some [deleteAction "gone.md"].
Proof. vm_compute. repeat split. Qed.
